(** * yes-captions-server: caption timing, frame planning and progress

    A shallow embedding of the caption pipeline of the repository:

    - [src/transcription.ts]: [groupWordsByTiming], [normalizeSegments];
    - [lib/getVisibleSubtitles.js]: [getVisibleSubtitles];
    - [src/renderer/overlay-renderer.ts]: the chunk planner of
      [renderCaptionOverlays] and the in-page [updateCaptions];
    - [lib/serverRenderFrame.js]: the per-word state of [renderFrame];
    - [src/renderer/frame-extractor.ts], [src/renderer/video-compositor.js]:
      the numbering of the frame files;
    - the [/render] route of the export worker and [lib/progressStore.ts];
    - [transcribeVideo] of [src/transcription.ts] from its duration check
      on, the subscribers of [lib/progressStore.ts], the progress reports
      of the sequential [renderCaptionOverlays], the frame numbering and
      the batches of the legacy exporter [lib/serverExportVideo.js], the
      names of the frame files of [captureFrames], and the placement of
      the video frame in [lib/serverRenderFrame.js].

    Numbers.  A JavaScript [number] that holds a time or a percent is a
    rational ([Q]); a value that [Number.isFinite] rejects (or that is
    missing) is [None] in an [option Q].  Frame counts and indices are
    [nat].  Scores are [Z].  The modules of the first part compute sums,
    products and comparisons exactly.  The engine computes in binary64:
    [Double] gives the rounding of a result to the nearest binary64
    number, [Machine] the two arithmetics, and [DomOn], [VisibilityOn] and
    [CanvasOn] hold the code of the renderers over either of them, where
    the sum [currentTime + 0.05] decides what a frame shows.  [Cleanup]
    and [Route] add the cleanup timers of the progress store and the first
    line of the [/render] route. *)

From Stdlib Require Import String Ascii.
From Stdlib Require Import QArith Qround Lqa ZArith NArith Lia List Bool Arith Sorted
  Permutation.
Import ListNotations.

Local Open Scope Q_scope.

(** ** JavaScript arithmetic helpers *)

Module Js.

(** [a < b] on numbers. *)
Definition ltb (a b : Q) : bool := negb (Qle_bool b a).
(** [a <= b]. *)
Definition leb (a b : Q) : bool := Qle_bool a b.
(** [a >= b]. *)
Definition geb (a b : Q) : bool := Qle_bool b a.
(** [a > b]. *)
Definition gtb (a b : Q) : bool := negb (Qle_bool a b).

(** [Math.max(a, b)] and [Math.min(a, b)] on finite numbers. *)
Definition max (a b : Q) : Q := if Qle_bool a b then b else a.
Definition min (a b : Q) : Q := if Qle_bool a b then a else b.

(** [Math.round]: the nearest integer, ties towards +infinity. *)
Definition round (x : Q) : Z := Qfloor (x + (1 # 2)).

(** [Number.isFinite(x) ? x : dflt]. *)
Definition finite_or (x : option Q) (dflt : Q) : Q :=
  match x with Some q => q | None => dflt end.

End Js.

(** [clamp] and [roundTo] of [src/transcription.ts]. *)
Definition clamp (value lo hi : Q) : Q := Js.min (Js.max value lo) hi.

(** [roundTo(value, 2)]: [factor = 10 ** 2]; the quotient
    [Math.round(value * factor) / factor] is kept as the fraction with
    denominator [100]. *)
Definition roundTo (value : Q) : Q := Js.round (value * 100) # 100.

Definition MIN_WORD_DURATION : Q := 0.05.
Definition MIN_SEGMENT_DURATION : Q := 0.2.

(** ** Double precision *)

Module Double.

(** The binary64 numbers of the engine are rationals; [round] is the
    number that a real result is stored as: the nearest binary64 number,
    a tie going to the one with the even significand.  Results beyond the
    finite range (which no time of a video reaches) are not modelled. *)

(** [floor (log2 (n / d))]. *)
Definition ilog2 (n d : positive) : Z :=
  let k := (Z.log2 (Zpos n) - Z.log2 (Zpos d))%Z in
  if (0 <=? k)%Z
  then if (Zpos d * 2 ^ k <=? Zpos n)%Z then k else (k - 1)%Z
  else if (Zpos d <=? Zpos n * 2 ^ (- k))%Z then k else (k - 1)%Z.

(** The integer nearest to [n / d], a tie going to the even one. *)
Definition nearest_even (n d : Z) : Z :=
  let q := (n / d)%Z in
  match (2 * (n mod d) ?= d)%Z with
  | Lt => q
  | Gt => (q + 1)%Z
  | Eq => if Z.even q then q else (q + 1)%Z
  end.

(** A significand of 53 bits; the exponent of the last bit is [-1074] at
    least. *)
Definition round_pos (n d : positive) : Q :=
  let e := Z.max (ilog2 n d - 52) (-1074) in
  if (0 <=? e)%Z
  then inject_Z (nearest_even (Zpos n) (Zpos d * 2 ^ e) * 2 ^ e)
  else nearest_even (Zpos n * 2 ^ (- e)) (Zpos d) # Z.to_pos (2 ^ (- e)).

Definition round (q : Q) : Q :=
  match Qnum q with
  | Z0 => 0
  | Zpos n => round_pos n (Qden q)
  | Zneg n => - round_pos n (Qden q)
  end.

(** [a + b], [a - b], [a * b] and [a / b] on binary64 numbers. *)
Definition add (a b : Q) : Q := round (a + b).
Definition sub (a b : Q) : Q := round (a - b).
Definition mul (a b : Q) : Q := round (a * b).
Definition div (a b : Q) : Q := round (a / b).

(** [roundTo(value, 2)] of [src/transcription.ts] on the number that the
    numeral [value] denotes: [Math.round(value * factor)], and its
    quotient by [factor]. *)
Definition hundredths (value : Q) : Z := Js.round (mul (round value) 100).
Definition roundTo (value : Q) : Q := div (inject_Z (hundredths value)) 100.

End Double.

(** ** The arithmetic of the engine *)

Module Machine.

(** What [a + b] and [a - b] return, and the number that a numeral of the
    source, of the payload or of a [dataset] attribute denotes. *)
Record Arith : Type := mkArith
  { plus : Q -> Q -> Q;
    minus : Q -> Q -> Q;
    number : Q -> Q }.

(** Exact arithmetic, and the arithmetic of the engine. *)
Definition exact : Arith := mkArith Qplus Qminus (fun q => q).
Definition binary64 : Arith := mkArith Double.add Double.sub Double.round.

End Machine.

(** ** FrameJobPlanner: the chunks of [renderCaptionOverlays] / [captureFrames] *)

Module Planner.

Record Chunk : Type := mkChunk { id : nat; start : nat; end_ : nat }.

(** [Math.ceil(a / b)] on non-negative integers. *)
Definition ceil_div (a b : nat) : nat := (a + b - 1) / b.

(** The body of the [for (let i = 0; i < concurrency; i++)] loop. *)
Definition chunk_of (framesPerWorker totalFrames i : nat) : Chunk :=
  {| id := i;
     start := i * framesPerWorker;
     end_ := Nat.min ((i + 1) * framesPerWorker) totalFrames |}.

Definition planChunks (totalFrames concurrency : nat) : list Chunk :=
  let framesPerWorker := ceil_div totalFrames concurrency in
  filter (fun c => start c <? totalFrames)
         (map (chunk_of framesPerWorker totalFrames) (seq 0 concurrency)).

(** The frame indices a worker visits: [for (i = chunk.start; i < chunk.end; i++)]. *)
Definition frames_of (c : Chunk) : list nat := seq (start c) (end_ c - start c).

Definition size (c : Chunk) : nat := end_ c - start c.

(** [CONCURRENCY = 4] of [renderCaptionOverlays]. *)
Definition CONCURRENCY : nat := 4.

End Planner.

(** ** FrameSource / Compositor: how frame files are numbered *)

Module FrameFiles.

(** [extractVideoFrames]: ["-start_number", "0"] before [video-frame-%06d.jpg]. *)
Definition EXTRACT_START_NUMBER : nat := 0.

(** [composeFinalVideo]: ["-start_number", "1"] before the video-frame input,
    ["-start_number", "0"] before the overlay input. *)
Definition COMPOSE_VIDEO_START_NUMBER : nat := 1.
Definition COMPOSE_OVERLAY_START_NUMBER : nat := 0.

(** An ffmpeg image sequence [%06d] with [-start_number s]: frame [k]
    (counting from 0) of the sequence is the file numbered [s + k]. *)
Definition sequence_file (start_number k : nat) : nat := start_number + k.

(** The extractor writes frame [j] of the [fps]-filtered video, whose
    timestamp is [j / fps], to this file number. *)
Definition video_frame_file (j : nat) : nat := sequence_file EXTRACT_START_NUMBER j.

(** [renderCaptionOverlays] writes the overlay of frame [i] to
    [overlay-${String(i).padStart(6, "0")}.png]; it was rendered at
    [currentTime = i * frameInterval] with [frameInterval = 1 / fps]. *)
Definition overlay_file (i : nat) : nat := i.
Definition overlay_time (fps : Q) (i : nat) : Q := inject_Z (Z.of_nat i) * (1 / fps).

Definition video_time (fps : Q) (j : nat) : Q := inject_Z (Z.of_nat j) / fps.

(** Which extracted frame, and which overlay, a file number holds. *)
Definition video_frame_in (totalFrames file : nat) : option nat :=
  find (fun j => video_frame_file j =? file)%nat (seq 0 totalFrames).
Definition overlay_in (totalFrames file : nat) : option nat :=
  find (fun i => overlay_file i =? file)%nat (seq 0 totalFrames).

(** Output frame [k] of [composeFinalVideo]: the filter [[0:v][1:v]overlay]
    puts frame [k] of the overlay input on frame [k] of the video input.
    The result is (extracted video frame, overlay index). *)
Definition composed_pair (totalFrames k : nat) : option nat * option nat :=
  (video_frame_in totalFrames (sequence_file COMPOSE_VIDEO_START_NUMBER k),
   overlay_in totalFrames (sequence_file COMPOSE_OVERLAY_START_NUMBER k)).

End FrameFiles.

(** ** Caption payload ([src/types.ts]) *)

Record CaptionWordState : Type := mkWordState
  { appear : Q; activeStart : Q; activeEnd : Q; fade : Q }.

(** [CaptionExportWord extends Word]. *)
Record CaptionExportWord : Type := mkExportWord
  { cw_word : string; cw_start : Q; cw_end : Q; cw_states : CaptionWordState }.

(** [CaptionExportSubtitle]; [position] does not take part in timing. *)
Record CaptionExportSubtitle : Type := mkSubtitle
  { sub_id : string; sub_text : string; sub_start : Q; sub_end : Q;
    sub_words : option (list CaptionExportWord) }.

(** What a renderer assigns to a word: [opacity] and [fontWeight]. *)
Record WordStyle : Type := mkStyle { opacity : Q; fontWeight : Z }.

Definition TIMING_BUFFER : Q := 0.05.

(** ** Variant A: the in-page [updateCaptions] of [overlay-renderer.ts] *)

Module Dom.

(** The body of [caption.querySelectorAll('.word').forEach]; the span's
    [dataset.start/end/fade] were filled from [word.states]. *)
Definition word_style (adjustedTime : Q) (w : CaptionExportWord) : WordStyle :=
  let wordStart := activeStart (cw_states w) in
  let wordEnd := activeEnd (cw_states w) in
  let fade := fade (cw_states w) in
  let isActive := Js.geb adjustedTime wordStart && Js.leb adjustedTime wordEnd in
  let hasAppeared := Js.geb adjustedTime wordStart in
  let isAboutToAppear :=
    Js.geb adjustedTime (wordStart - TIMING_BUFFER) && Js.ltb adjustedTime wordStart in
  if isActive then mkStyle 1 700
  else if isAboutToAppear then mkStyle 0.5 500
  else if hasAppeared && Js.leb adjustedTime fade then mkStyle 0.7 600
  else if Js.ltb adjustedTime wordStart then mkStyle 0.3 400
  else mkStyle 0 400.

(** A [.caption] element: its subtitle, its [style.display] ([true] is
    ['block'], [false] is ['none']) and the inline style of its [.word]
    spans ([None] until a first update touches the span). *)
Record CaptionElement : Type := mkElement
  { el_subtitle : CaptionExportSubtitle;
    el_display : bool;
    el_words : list (CaptionExportWord * option WordStyle) }.

(** [PAYLOAD.subtitles.forEach]: the elements as built on page load; the
    style sheet gives [.caption] [display: none]. *)
Definition build (s : CaptionExportSubtitle) : CaptionElement :=
  {| el_subtitle := s;
     el_display := false;
     el_words := match sub_words s with
                 | Some ws => map (fun w => (w, None)) ws
                 | None => []
                 end |}.

Definition in_range (adjustedTime : Q) (s : CaptionExportSubtitle) : bool :=
  Js.geb adjustedTime (sub_start s) && Js.leb adjustedTime (sub_end s).

Definition update_element (adjustedTime : Q) (e : CaptionElement) : CaptionElement :=
  if in_range adjustedTime (el_subtitle e)
  then {| el_subtitle := el_subtitle e;
          el_display := true;
          el_words := map (fun ws => (fst ws, Some (word_style adjustedTime (fst ws))))
                          (el_words e) |}
  else {| el_subtitle := el_subtitle e;
          el_display := false;
          el_words := el_words e |}.

Definition updateCaptions (currentTime : Q) (page : list CaptionElement)
  : list CaptionElement :=
  let adjustedTime := currentTime + TIMING_BUFFER in
  map (update_element adjustedTime) page.

(** The captions a rendered frame shows. *)
Definition displayed (page : list CaptionElement) : list CaptionExportSubtitle :=
  map el_subtitle (filter el_display page).

End Dom.

(** ** CaptionVisibilityModel: [lib/getVisibleSubtitles.js] *)

Module Visibility.

(** [earliestStart] starts at [Infinity] and [latestEnd] at [-Infinity]. *)
Inductive ext : Type := NegInf | Fin (q : Q) | PosInf.

(** [Math.min(e, x)] and [Math.max(e, x)] with a finite [x]. *)
Definition ext_min (e : ext) (x : Q) : ext :=
  match e with NegInf => NegInf | Fin q => Fin (Js.min q x) | PosInf => Fin x end.
Definition ext_max (e : ext) (x : Q) : ext :=
  match e with PosInf => PosInf | Fin q => Fin (Js.max q x) | NegInf => Fin x end.

(** The sign of [b - a]; [Infinity - Infinity] is [NaN], which [sort]
    treats as [0]. *)
Definition ext_sub_sign (b a : ext) : Z :=
  match b, a with
  | Fin x, Fin y => if Js.ltb x y then (-1)%Z else if Js.ltb y x then 1%Z else 0%Z
  | PosInf, PosInf | NegInf, NegInf => 0%Z
  | PosInf, _ | _, NegInf => 1%Z
  | _, PosInf | NegInf, _ => (-1)%Z
  end.

Record Candidate : Type := mkCandidate
  { subtitle : CaptionExportSubtitle;
    score : Z;
    hasActiveWord : bool;
    activeWordCount : Z;
    earliestStart : ext;
    latestEnd : ext }.

(** The accumulator of [sub.words.forEach]. *)
Record Acc : Type := mkAcc
  { a_score : Z; a_active : bool; a_count : Z; a_earliest : ext; a_latest : ext }.

Definition isActive (adjustedTime : Q) (w : CaptionExportWord) : bool :=
  Js.geb adjustedTime (cw_start w) && Js.leb adjustedTime (cw_end w).

Definition word_step (adjustedTime : Q) (acc : Acc) (w : CaptionExportWord) : Acc :=
  let hasAppeared := Js.geb adjustedTime (cw_start w) in
  let isAboutToAppear :=
    Js.geb adjustedTime (cw_start w - TIMING_BUFFER) && Js.ltb adjustedTime (cw_start w) in
  let acc1 :=
    if isActive adjustedTime w
    then mkAcc (a_score acc + 10) true (a_count acc + 1) (a_earliest acc) (a_latest acc)
    else if isAboutToAppear
    then mkAcc (a_score acc + 5) (a_active acc) (a_count acc) (a_earliest acc) (a_latest acc)
    else if hasAppeared
    then let timeSinceEnd := adjustedTime - cw_end w in
         if Js.leb timeSinceEnd 0.1
         then mkAcc (a_score acc + 2) (a_active acc) (a_count acc)
                    (a_earliest acc) (a_latest acc)
         else acc
    else acc in
  mkAcc (a_score acc1) (a_active acc1) (a_count acc1)
        (ext_min (a_earliest acc1) (cw_start w))
        (ext_max (a_latest acc1) (cw_end w)).

Definition acc0 : Acc := mkAcc 0 false 0 PosInf NegInf.

(** [adjustedTime >= earliestStart - TIMING_BUFFER && adjustedTime <= latestEnd + 0.1]. *)
Definition within_range (adjustedTime : Q) (earliest latest : ext) : bool :=
  (match earliest with
   | Fin e => Js.geb adjustedTime (e - TIMING_BUFFER)
   | NegInf => true
   | PosInf => false
   end)
  &&
  (match latest with
   | Fin l => Js.leb adjustedTime (l + 0.1)
   | PosInf => true
   | NegInf => false
   end).

(** [timeSinceStart >= -TIMING_BUFFER && timeSinceStart < 0.5]. *)
Definition recently_started (adjustedTime : Q) (earliest : ext) : bool :=
  match earliest with
  | Fin e => let timeSinceStart := adjustedTime - e in
             Js.geb timeSinceStart (- TIMING_BUFFER) && Js.ltb timeSinceStart 0.5
  | NegInf => false
  | PosInf => false
  end.

(** The callback of [subtitles.map]. *)
Definition score_subtitle (adjustedTime : Q) (sub : CaptionExportSubtitle) : Candidate :=
  match sub_words sub with
  | Some (w :: ws) =>
      let acc := fold_left (word_step adjustedTime) (w :: ws) acc0 in
      let score :=
        if negb (within_range adjustedTime (a_earliest acc) (a_latest acc)) then 0%Z
        else
          let s1 := if a_active acc then (a_score acc + 100)%Z else a_score acc in
          if recently_started adjustedTime (a_earliest acc) then (s1 + 20)%Z else s1 in
      mkCandidate sub score (a_active acc) (a_count acc) (a_earliest acc) (a_latest acc)
  | _ =>
      let isInRange := Js.geb adjustedTime (sub_start sub) && Js.leb adjustedTime (sub_end sub) in
      if isInRange
      then mkCandidate sub 50 true 0 (Fin (sub_start sub)) (Fin (sub_end sub))
      else
        let isAboutToStart :=
          Js.geb adjustedTime (sub_start sub - TIMING_BUFFER)
          && Js.ltb adjustedTime (sub_start sub) in
        if isAboutToStart
        then mkCandidate sub 10 false 0 (Fin (sub_start sub)) (Fin (sub_end sub))
        else mkCandidate sub 0 false 0 PosInf NegInf
  end.

(** The comparator of [.sort((a, b) => ...)]: its sign. *)
Definition compare_candidates (a b : Candidate) : Z :=
  if negb (Bool.eqb (hasActiveWord a) (hasActiveWord b))
  then (Z.b2z (hasActiveWord b) - Z.b2z (hasActiveWord a))%Z
  else if negb (score a =? score b)%Z
  then (score b - score a)%Z
  else ext_sub_sign (earliestStart b) (earliestStart a).

(** [Array.prototype.sort] is stable: [x] moves behind [y] only when the
    comparator is positive. *)
Fixpoint insert_sorted {A : Type} (cmp : A -> A -> Z) (x : A) (l : list A) : list A :=
  match l with
  | [] => [x]
  | y :: l' => if (cmp x y <=? 0)%Z then x :: y :: l' else y :: insert_sorted cmp x l'
  end.

Definition stable_sort {A : Type} (cmp : A -> A -> Z) (l : list A) : list A :=
  fold_right (insert_sorted cmp) [] l.

Definition candidates (subtitles : list CaptionExportSubtitle) (currentTime : Q)
  : list Candidate :=
  let adjustedTime := currentTime + TIMING_BUFFER in
  stable_sort compare_candidates
    (filter (fun c => (0 <? score c)%Z) (map (score_subtitle adjustedTime) subtitles)).

Definition getVisibleSubtitles (subtitles : list CaptionExportSubtitle) (currentTime : Q)
  : list CaptionExportSubtitle :=
  match candidates subtitles currentTime with
  | [] => []
  | c :: _ => [subtitle c]
  end.

(** A caption with word timing one of whose words is active. *)
Definition has_active_word (adjustedTime : Q) (sub : CaptionExportSubtitle) : bool :=
  match sub_words sub with
  | Some (w :: ws) => existsb (isActive adjustedTime) (w :: ws)
  | _ => false
  end.

(** *** Properties of candidates *)

(** [a] ranks at least as high as [b] on the first two sort keys. *)
Definition outranks (a b : Candidate) : Prop :=
  (hasActiveWord a = true /\ hasActiveWord b = false)
  \/ (hasActiveWord a = hasActiveWord b /\ (score b <= score a)%Z).

(** [e] is at most [x]; [e] is at least [x]. *)
Definition starts_by (e : ext) (x : Q) : Prop :=
  match e with Fin q => q <= x | NegInf => True | PosInf => False end.
Definition ends_from (e : ext) (x : Q) : Prop :=
  match e with Fin q => x <= q | PosInf => True | NegInf => False end.

End Visibility.

(** ** Variant B: the per-word state of [renderFrame] in [lib/serverRenderFrame.js] *)

Module Canvas.

Definition buffer : Q := 0.05.

(** The callback of [sub.words.map]; [t = currentTime + buffer]. *)
Definition word_style (t : Q) (w : CaptionExportWord) : WordStyle :=
  let active := Js.geb t (cw_start w) && Js.leb t (cw_end w) in
  let appeared := Js.geb t (cw_start w) in
  let aboutTo := Js.geb t (cw_start w - buffer) && Js.ltb t (cw_start w) in
  if active then mkStyle 1 700
  else if aboutTo then mkStyle 0.5 500
  else if appeared then mkStyle 0.7 600
  else mkStyle 0.3 400.

(** [wordsToDraw] for one visible subtitle. *)
Definition wordsToDraw (currentTime : Q) (sub : CaptionExportSubtitle)
  : list (string * WordStyle) :=
  match sub_words sub with
  | Some ws =>
      let t := currentTime + buffer in
      map (fun w => (cw_word w, word_style t w)) ws
  | None => [(sub_text sub, mkStyle 1 600)]
  end.

(** The subtitles [renderFrame] draws, each with its words. *)
Definition renderFrame (subtitles : list CaptionExportSubtitle) (currentTime : Q)
  : list (CaptionExportSubtitle * list (string * WordStyle)) :=
  map (fun sub => (sub, wordsToDraw currentTime sub))
      (Visibility.getVisibleSubtitles subtitles currentTime).

End Canvas.

(** ** [updateCaptions] over an arithmetic *)

Module DomOn.
Import Machine Dom.

Section Page.
Variable A : Arith.

(** [const adjustedTime = currentTime + TIMING_BUFFER]. *)
Definition adjustedTime (currentTime : Q) : Q :=
  plus A (number A currentTime) (number A TIMING_BUFFER).

(** The body of [caption.querySelectorAll('.word').forEach]; the times are
    read with [parseFloat] from the [dataset] of the span. *)
Definition word_style (adjustedTime : Q) (w : CaptionExportWord) : WordStyle :=
  let wordStart := number A (activeStart (cw_states w)) in
  let wordEnd := number A (activeEnd (cw_states w)) in
  let fade := number A (fade (cw_states w)) in
  let isActive := Js.geb adjustedTime wordStart && Js.leb adjustedTime wordEnd in
  let hasAppeared := Js.geb adjustedTime wordStart in
  let isAboutToAppear :=
    Js.geb adjustedTime (minus A wordStart (number A TIMING_BUFFER))
    && Js.ltb adjustedTime wordStart in
  if isActive then mkStyle 1 700
  else if isAboutToAppear then mkStyle 0.5 500
  else if hasAppeared && Js.leb adjustedTime fade then mkStyle 0.7 600
  else if Js.ltb adjustedTime wordStart then mkStyle 0.3 400
  else mkStyle 0 400.

(** [adjustedTime >= start && adjustedTime <= end] with
    [start = parseFloat(caption.dataset.start)]. *)
Definition in_range (adjustedTime : Q) (s : CaptionExportSubtitle) : bool :=
  Js.geb adjustedTime (number A (sub_start s))
  && Js.leb adjustedTime (number A (sub_end s)).

Definition update_element (adjustedTime : Q) (e : CaptionElement) : CaptionElement :=
  if in_range adjustedTime (el_subtitle e)
  then {| el_subtitle := el_subtitle e;
          el_display := true;
          el_words := map (fun ws => (fst ws, Some (word_style adjustedTime (fst ws))))
                          (el_words e) |}
  else {| el_subtitle := el_subtitle e;
          el_display := false;
          el_words := el_words e |}.

Definition updateCaptions (currentTime : Q) (page : list CaptionElement)
  : list CaptionElement :=
  map (update_element (adjustedTime currentTime)) page.

End Page.

End DomOn.

(** ** [getVisibleSubtitles] over an arithmetic *)

Module VisibilityOn.
Import Machine Visibility.

Section Scores.
Variable A : Arith.

Definition adjustedTime (currentTime : Q) : Q :=
  plus A (number A currentTime) (number A TIMING_BUFFER).

Definition isActive (adjustedTime : Q) (w : CaptionExportWord) : bool :=
  Js.geb adjustedTime (number A (cw_start w))
  && Js.leb adjustedTime (number A (cw_end w)).

Definition word_step (adjustedTime : Q) (acc : Acc) (w : CaptionExportWord) : Acc :=
  let hasAppeared := Js.geb adjustedTime (number A (cw_start w)) in
  let isAboutToAppear :=
    Js.geb adjustedTime (minus A (number A (cw_start w)) (number A TIMING_BUFFER))
    && Js.ltb adjustedTime (number A (cw_start w)) in
  let acc1 :=
    if isActive adjustedTime w
    then mkAcc (a_score acc + 10) true (a_count acc + 1) (a_earliest acc) (a_latest acc)
    else if isAboutToAppear
    then mkAcc (a_score acc + 5) (a_active acc) (a_count acc) (a_earliest acc) (a_latest acc)
    else if hasAppeared
    then let timeSinceEnd := minus A adjustedTime (number A (cw_end w)) in
         if Js.leb timeSinceEnd (number A 0.1)
         then mkAcc (a_score acc + 2) (a_active acc) (a_count acc)
                    (a_earliest acc) (a_latest acc)
         else acc
    else acc in
  mkAcc (a_score acc1) (a_active acc1) (a_count acc1)
        (ext_min (a_earliest acc1) (number A (cw_start w)))
        (ext_max (a_latest acc1) (number A (cw_end w))).

(** [adjustedTime >= earliestStart - TIMING_BUFFER && adjustedTime <= latestEnd + 0.1];
    a sum or difference with an infinity is that infinity. *)
Definition within_range (adjustedTime : Q) (earliest latest : ext) : bool :=
  (match earliest with
   | Fin e => Js.geb adjustedTime (minus A e (number A TIMING_BUFFER))
   | NegInf => true
   | PosInf => false
   end)
  &&
  (match latest with
   | Fin l => Js.leb adjustedTime (plus A l (number A 0.1))
   | PosInf => true
   | NegInf => false
   end).

(** [timeSinceStart >= -TIMING_BUFFER && timeSinceStart < 0.5]. *)
Definition recently_started (adjustedTime : Q) (earliest : ext) : bool :=
  match earliest with
  | Fin e => let timeSinceStart := minus A adjustedTime e in
             Js.geb timeSinceStart (- number A TIMING_BUFFER)
             && Js.ltb timeSinceStart (number A 0.5)
  | NegInf => false
  | PosInf => false
  end.

(** The callback of [subtitles.map]. *)
Definition score_subtitle (adjustedTime : Q) (sub : CaptionExportSubtitle) : Candidate :=
  match sub_words sub with
  | Some (w :: ws) =>
      let acc := fold_left (word_step adjustedTime) (w :: ws) acc0 in
      let score :=
        if negb (within_range adjustedTime (a_earliest acc) (a_latest acc)) then 0%Z
        else
          let s1 := if a_active acc then (a_score acc + 100)%Z else a_score acc in
          if recently_started adjustedTime (a_earliest acc) then (s1 + 20)%Z else s1 in
      mkCandidate sub score (a_active acc) (a_count acc) (a_earliest acc) (a_latest acc)
  | _ =>
      let start := number A (sub_start sub) in
      let end_ := number A (sub_end sub) in
      let isInRange := Js.geb adjustedTime start && Js.leb adjustedTime end_ in
      if isInRange
      then mkCandidate sub 50 true 0 (Fin start) (Fin end_)
      else
        let isAboutToStart :=
          Js.geb adjustedTime (minus A start (number A TIMING_BUFFER))
          && Js.ltb adjustedTime start in
        if isAboutToStart
        then mkCandidate sub 10 false 0 (Fin start) (Fin end_)
        else mkCandidate sub 0 false 0 PosInf NegInf
  end.

Definition candidates (subtitles : list CaptionExportSubtitle) (currentTime : Q)
  : list Candidate :=
  let adjustedTime := adjustedTime currentTime in
  stable_sort compare_candidates
    (filter (fun c => (0 <? score c)%Z) (map (score_subtitle adjustedTime) subtitles)).

Definition getVisibleSubtitles (subtitles : list CaptionExportSubtitle) (currentTime : Q)
  : list CaptionExportSubtitle :=
  match candidates subtitles currentTime with
  | [] => []
  | c :: _ => [subtitle c]
  end.

(** A caption with word timing one of whose words is active. *)
Definition has_active_word (adjustedTime : Q) (sub : CaptionExportSubtitle) : bool :=
  match sub_words sub with
  | Some (w :: ws) => existsb (isActive adjustedTime) (w :: ws)
  | _ => false
  end.

End Scores.

End VisibilityOn.

(** ** The word state of [renderFrame] over an arithmetic *)

Module CanvasOn.
Import Machine.

Section Words.
Variable A : Arith.

(** [const t = currentTime + buffer]. *)
Definition shifted (currentTime : Q) : Q :=
  plus A (number A currentTime) (number A Canvas.buffer).

(** The callback of [sub.words.map]. *)
Definition word_style (t : Q) (w : CaptionExportWord) : WordStyle :=
  let start := number A (cw_start w) in
  let end_ := number A (cw_end w) in
  let active := Js.geb t start && Js.leb t end_ in
  let appeared := Js.geb t start in
  let aboutTo := Js.geb t (minus A start (number A Canvas.buffer)) && Js.ltb t start in
  if active then mkStyle 1 700
  else if aboutTo then mkStyle 0.5 500
  else if appeared then mkStyle 0.7 600
  else mkStyle 0.3 400.

End Words.

End CanvasOn.

(** ** Frame times *)

Module Frames.

(** [currentTime = i * frameInterval] with [frameInterval = 1 / fps] in
    [renderCaptionOverlays], and [t = frameIndex / actualFrameRate] in the
    legacy exporter, both in binary64. *)
Definition overlay_time (fps : Z) (i : nat) : Q :=
  Double.mul (inject_Z (Z.of_nat i)) (Double.div 1 (inject_Z fps)).
Definition legacy_time (fps : Z) (frameIndex : nat) : Q :=
  Double.div (inject_Z (Z.of_nat frameIndex)) (inject_Z fps).

End Frames.

(** ** TranscriptSegmenter: [src/transcription.ts] *)

Module Transcription.

(** [Word] as it arrives: a time that is missing or not finite is [None]. *)
Record Word : Type := mkWord
  { w_word : string; w_start : option Q; w_end : option Q }.

(** A word whose times are finite numbers. *)
Record FWord : Type := mkFWord { fw_word : string; fw_start : Q; fw_end : Q }.

Record WordGroup : Type := mkGroup
  { g_words : list FWord; g_start : Q; g_end : Q; g_text : string }.

(** The argument type of [normalizeSegments]. *)
Record Segment : Type := mkSegment
  { s_text : string; s_start : option Q; s_end : option Q;
    s_words : option (list Word) }.

(** A segment whose times are finite: what [sanitized] holds and what
    [normalizeSegments] returns. *)
Record FSegment : Type := mkFSegment
  { fs_text : string; fs_start : Q; fs_end : Q; fs_words : option (list FWord) }.

Definition FAST_SPEECH_THRESHOLD : Q := 0.06.
Definition NORMAL_SPEECH_THRESHOLD : Q := 0.12.
Definition SLOW_SPEECH_THRESHOLD : Q := 0.2.
Definition MAX_GROUP_DURATION : Q := 0.6.
Definition MAX_WORDS_PER_GROUP : nat := 4.
Definition MIN_WORDS_PER_GROUP : nat := 1.

(** [next.start - w.end] on the raw words; [None] is [NaN]. *)
Definition raw_gap (w next : Word) : option Q :=
  match w_start next, w_end w with
  | Some s, Some e => Some (s - e)
  | _, _ => None
  end.

(** [gap > x]; every comparison with [NaN] is false. *)
Definition gap_gt (gap : option Q) (x : Q) : bool :=
  match gap with Some g => Js.gtb g x | None => false end.

(** The pairs [(words[i], words[i + 1])]. *)
Fixpoint boundaries (words : list Word) : list (Word * Word) :=
  match words with
  | a :: (b :: _) as rest => (a, b) :: boundaries rest
  | _ => []
  end.

(** The first loop: [(avgGap, gapCount)] over
    [i < Math.min(words.length - 1, 10)]. *)
Definition gap_sum (words : list Word) : Q * nat :=
  fold_left
    (fun acc p =>
       let gap := raw_gap (fst p) (snd p) in
       if gap_gt gap 0
       then (fst acc + Js.finite_or gap 0, S (snd acc))
       else acc)
    (firstn 10 (boundaries words)) (0, O).

Definition avgGap (words : list Word) : Q :=
  let (sum, gapCount) := gap_sum words in
  if (0 <? gapCount)%nat then sum / inject_Z (Z.of_nat gapCount) else 0.1.

Definition timingThreshold (words : list Word) : Q :=
  let avg := avgGap words in
  if Js.ltb avg 0.05 then FAST_SPEECH_THRESHOLD
  else if Js.ltb avg 0.1 then FAST_SPEECH_THRESHOLD + 0.02
  else if Js.gtb avg 0.25 then SLOW_SPEECH_THRESHOLD
  else NORMAL_SPEECH_THRESHOLD.

(** [roundedWord].  A missing [start] becomes [0] ([word.start ?? 0]) and
    a [NaN] one too ([!Number.isFinite(roundedStart)]); a missing or [NaN]
    [end] ends as [roundedStart + MIN_WORD_DURATION] on either path. *)
Definition round_word (word : Word) : FWord :=
  let roundedStart := match w_start word with Some s => roundTo s | None => 0 end in
  let roundedEnd :=
    match w_end word with
    | Some e => roundTo e
    | None => roundedStart + MIN_WORD_DURATION
    end in
  let roundedEnd :=
    if Js.ltb (roundedEnd - roundedStart) MIN_WORD_DURATION
    then roundedStart + MIN_WORD_DURATION
    else roundedEnd in
  mkFWord (w_word word) roundedStart roundedEnd.

(** [/[.!?;:]/.test(s)] and [/,/.test(s)]. *)
Fixpoint has_char (p : ascii -> bool) (s : string) : bool :=
  match s with
  | EmptyString => false
  | String c s' => p c || has_char p s'
  end.

Definition is_sentence_end (c : ascii) : bool :=
  (c =? ".")%char || (c =? "!")%char || (c =? "?")%char
  || (c =? ";")%char || (c =? ":")%char.

Definition hasPunctuation (s : string) : bool := has_char is_sentence_end s.
Definition hasComma (s : string) : bool := has_char (fun c => (c =? ",")%char) s.

Definition dummy_word : FWord := mkFWord "" 0 0.

(** The object pushed to [groups] for a non-empty [currentGroup]. *)
Definition make_group (currentGroup : list FWord) : WordGroup :=
  let first := hd dummy_word currentGroup in
  let final := last currentGroup dummy_word in
  {| g_words := currentGroup;
     g_start := fw_start first;
     g_end := Js.max (fw_end final) (fw_start first + MIN_SEGMENT_DURATION);
     g_text := String.concat " " (map fw_word currentGroup) |}.

(** The main loop, from word [i] on, with the [currentGroup] built so far. *)
Fixpoint group_loop (threshold : Q) (words : list Word) (currentGroup : list FWord)
  : list WordGroup :=
  match words with
  | [] =>
      match currentGroup with
      | [] => []
      | _ :: _ => [make_group currentGroup]
      end
  | word :: rest =>
      let roundedWord := round_word word in
      let currentGroup := currentGroup ++ [roundedWord] in
      let n := List.length currentGroup in
      let punct := hasPunctuation (fw_word roundedWord) in
      let comma := hasComma (fw_word roundedWord) in
      let forceEndGroup := punct in
      let shouldEndGroup := negb punct && comma && (2 <=? n)%nat in
      let groupStart := fw_start (hd dummy_word currentGroup) in
      let groupEnd := fw_end roundedWord in
      let shouldEndGroup :=
        shouldEndGroup || Js.geb (groupEnd - groupStart) MAX_GROUP_DURATION in
      let shouldEndGroup := shouldEndGroup || (MAX_WORDS_PER_GROUP <=? n)%nat in
      let '(forceEndGroup, shouldEndGroup) :=
        match rest with
        | nextWord :: _ =>
            let gap := raw_gap word nextWord in
            if gap_gt gap (threshold * 2) then (true, shouldEndGroup)
            else if gap_gt gap threshold && (MIN_WORDS_PER_GROUP <=? n)%nat
            then (forceEndGroup, true)
            else (forceEndGroup, shouldEndGroup)
        | [] => (true, shouldEndGroup)
        end in
      if (forceEndGroup || shouldEndGroup) && (0 <? n)%nat
      then make_group currentGroup :: group_loop threshold rest []
      else group_loop threshold rest currentGroup
  end.

Definition groupWordsByTiming (words : list Word) : list WordGroup :=
  match words with
  | [] => []
  | _ :: _ => group_loop (timingThreshold words) words []
  end.

(** *** [normalizeSegments] *)

(** [safeDuration]: [Number.isFinite(totalDuration || NaN)]; a duration of
    [0] is falsy and counts as unknown. *)
Definition safeDuration (totalDuration : option Q) : option Q :=
  match totalDuration with
  | Some d => if Qeq_bool d 0 then None else Some d
  | None => None
  end.

(** The callback of [segment.words.map] inside [sanitized]; [start] is the
    sanitized start of the segment. *)
Definition sanitize_word (start : Q) (word : Word) : FWord :=
  let wordStart := Js.finite_or (w_start word) start in
  let wordEnd := Js.finite_or (w_end word) wordStart in
  let wordEnd :=
    if Js.ltb (wordEnd - wordStart) MIN_WORD_DURATION
    then wordStart + MIN_WORD_DURATION
    else wordEnd in
  mkFWord (w_word word) wordStart wordEnd.

(** The callback of the first [segments.map]. *)
Definition sanitize (segment : Segment) : FSegment :=
  let start := Js.finite_or (s_start segment) 0 in
  let end_ := Js.finite_or (s_end segment) start in
  let end_ :=
    if Js.ltb (end_ - start) MIN_SEGMENT_DURATION
    then start + MIN_SEGMENT_DURATION
    else end_ in
  {| fs_text := s_text segment;
     fs_start := start;
     fs_end := end_;
     fs_words := option_map (map (sanitize_word start)) (s_words segment) |}.

(** [.sort((a, b) => a.start - b.start)], stable. *)
Fixpoint insert_by_start (x : FSegment) (l : list FSegment) : list FSegment :=
  match l with
  | [] => [x]
  | y :: l' =>
      if Js.leb (fs_start x) (fs_start y) then x :: y :: l'
      else y :: insert_by_start x l'
  end.

Definition sort_by_start (l : list FSegment) : list FSegment :=
  fold_right insert_by_start [] l.

Definition sanitized (segments : list Segment) : list FSegment :=
  sort_by_start (map sanitize segments).

(** The callback of [segment.words.map] in the sweep, before the filter;
    [isLast] is [wordIndex === arr.length - 1]. *)
Definition bound_word (start end_ : Q) (isLast : bool) (word : FWord) : FWord :=
  let wordStart := clamp (fw_start word) start end_ in
  let wordEnd := clamp (fw_end word) (wordStart + MIN_WORD_DURATION) end_ in
  let wordEnd :=
    if Js.ltb (wordEnd - wordStart) MIN_WORD_DURATION
    then Js.min end_ (wordStart + MIN_WORD_DURATION)
    else wordEnd in
  let wordEnd := if isLast then end_ else wordEnd in
  mkFWord (fw_word word) (roundTo wordStart) (roundTo wordEnd).

Fixpoint bound_all (start end_ : Q) (words : list FWord) : list FWord :=
  match words with
  | [] => []
  | [w] => [bound_word start end_ true w]
  | w :: rest => bound_word start end_ false w :: bound_all start end_ rest
  end.

(** [boundedWords]: the mapped words that pass [word.start < end]. *)
Definition boundedWords (start end_ : Q) (words : list FWord) : list FWord :=
  filter (fun word => Js.ltb (fw_start word) end_) (bound_all start end_ words).

(** [start] and [end] of one step of the sweep, before rounding. *)
Definition sweep_bounds (duration : option Q) (cursor : Q) (segment : FSegment)
  (next : option FSegment) : Q * Q :=
  let start := Js.max (fs_start segment) cursor in
  let end_ := Js.max (fs_end segment) (start + MIN_SEGMENT_DURATION) in
  let end_ :=
    match next with
    | Some n => if Js.gtb (fs_start n) start then Js.min end_ (fs_start n) else end_
    | None => end_
    end in
  match duration with
  | Some d =>
      let start := clamp start 0 d in
      (start, clamp end_ (start + MIN_SEGMENT_DURATION) d)
  | None => (start, end_)
  end.

(** [sanitized.map((segment, index) => ...)] with the running [cursor]. *)
Fixpoint sweep (duration : option Q) (cursor : Q) (l : list FSegment) : list FSegment :=
  match l with
  | [] => []
  | segment :: rest =>
      let '(start, end_) := sweep_bounds duration cursor segment (hd_error rest) in
      {| fs_text := fs_text segment;
         fs_start := roundTo start;
         fs_end := roundTo end_;
         fs_words := option_map (boundedWords start end_) (fs_words segment) |}
      :: sweep duration end_ rest
  end.

Definition normalizeSegments (segments : list Segment) (totalDuration : option Q)
  : list FSegment :=
  sweep (safeDuration totalDuration) 0 (sanitized segments).

(** A returned segment handed back as an argument. *)
Definition as_word (w : FWord) : Word :=
  mkWord (fw_word w) (Some (fw_start w)) (Some (fw_end w)).
Definition as_segment (s : FSegment) : Segment :=
  {| s_text := fs_text s;
     s_start := Some (fs_start s);
     s_end := Some (fs_end s);
     s_words := option_map (map as_word) (fs_words s) |}.

(** [wordGroups.map(group => ({text, start, end, words}))] of [transcribeVideo]. *)
Definition segment_of_group (g : WordGroup) : Segment :=
  {| s_text := g_text g;
     s_start := Some (g_start g);
     s_end := Some (g_end g);
     s_words := Some (map as_word (g_words g)) |}.

(** *** Properties of segment lists *)

(** The end of one segment lies before the start of the next, and so does
    its start. *)
Definition before (a b : FSegment) : Prop :=
  fs_end a <= fs_start b /\ fs_start a <= fs_start b.

(** The cursor does not lie beyond a known duration. *)
Definition within (duration : option Q) (cursor : Q) : Prop :=
  forall d, duration = Some d -> cursor <= d.

(** A time in whole hundredths of a second. *)
Definition hundredths (q : Q) : Prop := roundTo q = q.

(** The segments of a list that start at [q], in their order. *)
Definition starting_at (q : Q) (l : list FSegment) : list FSegment :=
  filter (fun s => Qeq_bool (fs_start s) q) l.

End Transcription.

(** ** ProgressAggregator: [lib/progressStore.ts] and the [/render] route *)

Module Progress.

Record ProgressState : Type := mkState
  { progress : Q; stage : string; message : string }.

(** One call [setProgress(exportId, progress, stage, message)]. *)
Definition Update : Type := (string * ProgressState)%type.

(** The module state of [progressStore.ts] and of the event loop:
    [progressStore] keeps the latest state per id, [published] lists every
    state handed to the subscribers in order, and [pending] lists the calls
    that code still running in the background is going to make.  The
    ten-minute cleanup timer is not modelled. *)
Record World : Type := mkWorld
  { progressStore : list Update;
    published : list Update;
    pending : list Update }.

Definition empty_world : World := mkWorld [] [] [].

Definition store_set (exportId : string) (state : ProgressState) (m : list Update)
  : list Update :=
  (exportId, state) :: filter (fun kv => negb (String.eqb (fst kv) exportId)) m.

Definition setProgress (u : Update) (w : World) : World :=
  {| progressStore := store_set (fst u) (snd u) (progressStore w);
     published := published w ++ [u];
     pending := pending w |}.

Definition getProgress (exportId : string) (w : World) : option ProgressState :=
  option_map snd (find (fun kv => String.eqb (fst kv) exportId) (progressStore w)).

(** Code that changes the world and returns or throws ([inr message]). *)
Definition M (A : Type) : Type := World -> World * (A + string).

Definition ret {A : Type} (a : A) : M A := fun w => (w, inl a).
Definition throw {A : Type} (msg : string) : M A := fun w => (w, inr msg).
Definition bind {A B : Type} (m : M A) (k : A -> M B) : M B :=
  fun w => match m w with
           | (w', inl a) => k a w'
           | (w', inr e) => (w', inr e)
           end.
Definition try_catch {A : Type} (m : M A) (handler : string -> M A) : M A :=
  fun w => match m w with
           | (w', inr e) => handler e w'
           | r => r
           end.

Notation "x <- m ;; k" := (bind m (fun x => k))
  (at level 61, m at next level, right associativity).
Notation "m ;; k" := (bind m (fun _ => k))
  (at level 61, right associativity).

Definition publish (u : Update) : M unit := fun w => (setProgress u w, inl tt).

(** An awaited call into the outside (file system, ffprobe, browser). *)
Definition await (ok : bool) (msg : string) : M unit :=
  if ok then ret tt else throw msg.

(** Calls that will happen after the current function has settled. *)
Definition leave_running (us : list Update) : M unit :=
  fun w => (mkWorld (progressStore w) (published w) (pending w ++ us), inl tt).

(** [currentFrame / totalFrames] can be [NaN] or [Infinity]. *)
Inductive ratio : Type := NaN | Infinite | Finite (q : Q).

Definition frame_ratio (currentFrame totalFrames : nat) : ratio :=
  match totalFrames with
  | O => match currentFrame with O => NaN | S _ => Infinite end
  | S _ => Finite (inject_Z (Z.of_nat currentFrame) / inject_Z (Z.of_nat totalFrames))
  end.

(** [Math.min(r, 1)]; [None] is [NaN]. *)
Definition min_one (r : ratio) : option Q :=
  match r with NaN => None | Infinite => Some 1 | Finite q => Some (Js.min q 1) end.

(** What the stages are told by the outside. *)
Record Env : Type := mkEnv
  { parts_ok : bool;                 (* the multipart stream parses *)
    default_id : string;             (* [`job_${Date.now()}`] *)
    field_id : option string;        (* the [exportId] field *)
    has_video : bool;                (* a [video] file part came *)
    payload : option (option string);
      (* the [payload] field: missing, or present and either rejected by
         [JSON.parse] or carrying [metadata.exportId] *)
    mkdir_frames_ok : bool;
    probe_ok : bool;                 (* ffprobe *)
    totalFrames : nat;               (* [Math.ceil(duration * fps)] *)
    extract_frames : list nat;       (* each [frame=N] ffmpeg prints *)
    extract_ok : bool;               (* exit code 0 *)
    mkdir_overlay_ok : bool;
    browser_ok : bool;               (* [createBrowser] *)
    overlay_setup_ok : bool;         (* the HTML file is written *)
    worker_failure : option (nat * nat);
      (* [Some (done, late)]: a worker rejects; [done] frames are complete
         when the route has handled the rejection, the other workers
         complete [late] more afterwards *)
    browser_close_ok : bool;
    compose_frames : list nat;
    compose_ok : bool }.

(** *** [extractVideoFrames] (the variant that takes [onProgress]) *)

(** The [stderr] handler: [lastProgress] is the percent reported last. *)
Fixpoint extract_reports (total : nat) (frames : list nat) (lastProgress : Z)
  (onProgress : Q -> Update) : M unit :=
  match frames with
  | [] => ret tt
  | currentFrame :: rest =>
      match min_one (frame_ratio currentFrame total) with
      | Some progress =>
          let progressPercent := Qfloor (progress * 100) in
          if (lastProgress <? progressPercent)%Z && (progressPercent mod 5 =? 0)%Z
          then publish (onProgress progress) ;;
               extract_reports total rest progressPercent onProgress
          else extract_reports total rest lastProgress onProgress
      | None => extract_reports total rest lastProgress onProgress
      end
  end.

Definition extractVideoFrames (env : Env) (onProgress : Q -> Update) : M nat :=
  await (probe_ok env) "ffprobe failed" ;;
  let total := totalFrames env in
  extract_reports total (extract_frames env) 0 onProgress ;;
  await (extract_ok env) "FFmpeg frame extraction exited with code 1" ;;
  publish (onProgress 1) ;;
  ret total.

(** *** [renderCaptionOverlays] (parallel workers) *)

(** The workers share [completedFrames]; each completed frame runs
    [completedFrames++] and reports when the counter is a multiple of 10.
    These are the reports for the counter values [from + 1 .. from + n]. *)
Fixpoint counter_reports (total from n : nat) (onProgress : Q -> Update) : list Update :=
  match n with
  | O => []
  | S n' =>
      let completedFrames := S from in
      let tail := counter_reports total completedFrames n' onProgress in
      if (completedFrames mod 10 =? 0)%nat
      then onProgress (inject_Z (Z.of_nat completedFrames) / inject_Z (Z.of_nat total))
           :: tail
      else tail
  end.

Fixpoint publish_all (us : list Update) : M unit :=
  match us with
  | [] => ret tt
  | u :: rest => publish u ;; publish_all rest
  end.

(** [await Promise.all(chunks.map(processChunk))]: when a worker rejects,
    the call rejects while the other workers go on. *)
Definition renderCaptionOverlays (env : Env) (total : nat) (onProgress : Q -> Update)
  : M unit :=
  await (overlay_setup_ok env) "cannot write overlay-render.html" ;;
  let chunks := Planner.planChunks total Planner.CONCURRENCY in
  let frames := List.length (List.concat (map Planner.frames_of chunks)) in
  match worker_failure env with
  | None => publish_all (counter_reports total 0 frames onProgress)
  | Some (done, late) =>
      let done := Nat.min done frames in
      let late := Nat.min late (frames - done) in
      publish_all (counter_reports total 0 done onProgress) ;;
      leave_running (counter_reports total done late onProgress) ;;
      throw "overlay worker failed"
  end.

(** *** [composeFinalVideo] *)

(** [lastReportedProgress]: a percent, or [Infinity] ([None]). *)
Definition floor_percent (r : ratio) : option (option Z) :=
  match r with
  | NaN => None
  | Infinite => Some None
  | Finite q => Some (Some (Qfloor (q * 100)))
  end.

(** [progress >= lastReportedProgress + 5]. *)
Definition five_more (progress lastReported : option Z) : bool :=
  match progress, lastReported with
  | None, _ => true
  | Some _, None => false
  | Some p, Some l => (l + 5 <=? p)%Z
  end.

(** The [stderr] handler. *)
Fixpoint compose_reports (total : nat) (frames : list nat) (lastReported : option Z)
  (onProgress : Q -> Update) : M unit :=
  match frames with
  | [] => ret tt
  | currentFrame :: rest =>
      let r := frame_ratio currentFrame total in
      match floor_percent r, min_one r with
      | Some progress, Some normalizedProgress =>
          if five_more progress lastReported || Js.geb normalizedProgress 1
          then publish (onProgress normalizedProgress) ;;
               compose_reports total rest progress onProgress
          else compose_reports total rest lastReported onProgress
      | _, _ => compose_reports total rest lastReported onProgress
      end
  end.

Definition composeFinalVideo (env : Env) (total : nat) (onProgress : Q -> Update)
  : M unit :=
  compose_reports total (compose_frames env) (Some 0%Z) onProgress ;;
  await (compose_ok env) "FFmpeg exited with code 1" ;;
  publish (onProgress 1).

(** *** The [/render] route *)

Inductive Reply : Type :=
| BadRequest (error : string)
| VideoStream (exportId : string)
| ServerError (error : string).

Definition onFrameExtractionProgress (exportId : string) (progress : Q) : Update :=
  (exportId, mkState (10 + progress * 0.2) "video processing"
                     "Extracting frames from video").
Definition onOverlayProgress (exportId : string) (progress : Q) : Update :=
  (exportId, mkState (30 + progress * 0.4) "caption rendering"
                     "Rendering caption overlays").
Definition onCompositionProgress (exportId : string) (progress : Q) : Update :=
  (exportId, mkState (70 + progress * 0.25) "encoding"
                     "Compositing video frames").

(** The pipeline, from [// Initialize progress] to [reply.send]. *)
Definition pipeline (env : Env) (exportId : string) : M Reply :=
  publish (exportId, mkState 0 "initialization" "Starting render pipeline") ;;
  await (mkdir_frames_ok env) "mkdir failed" ;;
  publish (exportId, mkState 5 "initialization" "Extracting video frames") ;;
  total <- extractVideoFrames env (onFrameExtractionProgress exportId) ;;
  publish (exportId, mkState 30 "video processing" "Video frames extracted") ;;
  await (mkdir_overlay_ok env) "mkdir failed" ;;
  publish (exportId, mkState 30 "caption rendering" "Rendering caption overlays") ;;
  await (browser_ok env) "browser launch failed" ;;
  renderCaptionOverlays env total (onOverlayProgress exportId) ;;
  publish (exportId, mkState 70 "caption rendering" "Caption overlays rendered") ;;
  await (browser_close_ok env) "browser close failed" ;;
  publish (exportId, mkState 70 "encoding" "Compositing final video") ;;
  composeFinalVideo env total (onCompositionProgress exportId) ;;
  publish (exportId, mkState 95 "finalizing" "Finalizing video") ;;
  publish (exportId, mkState 100 "complete" "Video export complete") ;;
  ret (VideoStream exportId).

(** The outer [catch]. *)
Definition on_error (exportId : string) (error : string) : M Reply :=
  publish (exportId, mkState 100 "error" error) ;;
  ret (ServerError error).

Definition render (env : Env) : M Reply :=
  let exportId :=
    match field_id env with Some i => i | None => default_id env end in
  if negb (parts_ok env) then on_error exportId "multipart error"
  else if negb (has_video env) then ret (BadRequest "Video file is required")
  else
    match payload env with
    | None => ret (BadRequest "Payload is required")
    | Some None => on_error exportId "Unexpected token in JSON"
    | Some (Some payloadExportId) =>
        (* [exportId = payload.metadata.exportId] when they differ *)
        let exportId := payloadExportId in
        try_catch (pipeline env exportId) (on_error exportId)
    end.

(** The event loop runs what was left running. *)
Definition drain (w : World) : World :=
  fold_left (fun w u => setProgress u w)
            (pending w) (mkWorld (progressStore w) (published w) []).

(** One request served on a fresh store, to the end of all its work. *)
Definition serve (env : Env) : World * (Reply + string) :=
  let '(w, r) := render env empty_world in (drain w, r).

(** The updates published for [exportId], in order. *)
Definition updates_for (exportId : string) (w : World) : list ProgressState :=
  map snd (filter (fun u => String.eqb (fst u) exportId) (published w)).

(** The id under which a request that reaches the pipeline reports. *)
Definition job_id (env : Env) : string :=
  let exportId :=
    match field_id env with Some i => i | None => default_id env end in
  if parts_ok env
  then match payload env with
       | Some (Some payloadExportId) => payloadExportId
       | _ => exportId
       end
  else exportId.

Definition render_updates (env : Env) : list ProgressState :=
  updates_for (job_id env) (fst (serve env)).

Definition percents (l : list ProgressState) : list Q := map progress l.

(** The request succeeds: every awaited step resolves. *)
Definition succeeds (env : Env) : bool :=
  match snd (serve env) with
  | inl (VideoStream _) => true
  | _ => false
  end.

(** *** Properties of the update log *)

(** The percents of a log do not decrease and stay at or below [hi]. *)
Definition mono_below (hi : Q) (l : list Update) : Prop :=
  Sorted Qle (map (fun u => progress (snd u)) l)
  /\ Forall (fun u => progress (snd u) <= hi) l.

(** The log is in order below [hi], speaks of [exportId] only, and
    nothing is left running. *)
Definition log_ok (exportId : string) (hi : Q) (w : World) : Prop :=
  mono_below hi (published w)
  /\ Forall (fun u => fst u = exportId) (published w)
  /\ pending w = [].

(** No overlay worker reports after the route has handled a rejection. *)
Definition no_late_worker (env : Env) : Prop :=
  match worker_failure env with
  | Some (_, late) => late = O
  | None => True
  end.

(** Code that keeps a log below [lo] in order and ends below [hi]. *)
Definition keeps {A : Type} (exportId : string) (lo hi : Q) (m : M A) : Prop :=
  forall w, log_ok exportId lo w -> log_ok exportId hi (fst (m w)).

(** When the code returns, its last update is [100 / complete]. *)
Definition ends_complete (exportId : string) (x : World * (Reply + string)) : Prop :=
  forall r, snd x = inl r ->
    r = VideoStream exportId
    /\ exists l, published (fst x)
                 = l ++ [(exportId, mkState 100 "complete" "Video export complete")].

(** The request is not turned away with a 400. *)
Definition accepted (env : Env) : bool :=
  negb (parts_ok env)
  || (has_video env && match payload env with Some _ => true | None => false end).

End Progress.

(** ** Properties of word groups *)

Module Grouping.
Import Transcription.

(** What the loop of [groupWordsByTiming] knows of the group it is still
    building. *)
Definition open_group (currentGroup : list FWord) : Prop :=
  (List.length currentGroup < MAX_WORDS_PER_GROUP)%nat
  /\ Forall (fun w => fw_start w + MIN_WORD_DURATION <= fw_end w) currentGroup
  /\ Forall (fun w => hasPunctuation (fw_word w) = false
                      /\ fw_end w - fw_start (hd dummy_word currentGroup)
                         < MAX_GROUP_DURATION) currentGroup.

(** A group as the loop pushes it: between one and [MAX_WORDS_PER_GROUP]
    words; it starts with its first word, ends after its start and not
    before the end of its last word; each word ends after it starts; a
    word that is not the last holds no sentence punctuation and ends no
    more than [MAX_GROUP_DURATION] after the start of the group. *)
Definition closed_group (g : WordGroup) : Prop :=
  (1 <= List.length (g_words g) <= MAX_WORDS_PER_GROUP)%nat
  /\ g_start g = fw_start (hd dummy_word (g_words g))
  /\ g_start g < g_end g
  /\ fw_end (last (g_words g) dummy_word) <= g_end g
  /\ Forall (fun w => fw_start w < fw_end w) (g_words g)
  /\ Forall (fun w => hasPunctuation (fw_word w) = false
                      /\ fw_end w - g_start g <= MAX_GROUP_DURATION)
            (removelast (g_words g)).

(** Whether the loop closes the group [grown] after [word], given the
    word that follows, if any. *)
Definition ends_group (threshold : Q) (word : Word) (next : option Word)
  (grown : list FWord) : bool :=
  let n := List.length grown in
  let punct := hasPunctuation (w_word word) in
  let comma := hasComma (w_word word) in
  let shouldEndGroup :=
    (negb punct && comma && (2 <=? n)%nat)
    || Js.geb (fw_end (round_word word) - fw_start (hd dummy_word grown))
              MAX_GROUP_DURATION
    || (MAX_WORDS_PER_GROUP <=? n)%nat in
  match next with
  | Some nextWord =>
      let gap := raw_gap word nextWord in
      if gap_gt gap (threshold * 2) then true
      else if gap_gt gap threshold && (MIN_WORDS_PER_GROUP <=? n)%nat then true
      else punct || shouldEndGroup
  | None => true
  end.

End Grouping.

(** ** [transcribeVideo] of [src/transcription.ts] *)

Module Transcribe.
Import Transcription.

(** The answer of the transcription API as [transcribeVideo] reads it; a
    field that is missing or not of the expected kind is [None]. *)
Record GroqWord : Type := mkGroqWord
  { gw_word : option string; gw_start : option Q; gw_end : option Q }.
Record GroqSegment : Type := mkGroqSegment
  { gs_text : option string; gs_start : option Q; gs_end : option Q;
    gs_words : option (list GroqWord) }.
Record GroqData : Type := mkGroqData
  { gd_segments : option (list GroqSegment);
    gd_words : option (list Word);
    gd_text : option string }.

(** [a || b] on a number and on a string: [0], [NaN], a missing value
    and the empty string give [b]. *)
Definition or_number (a : option Q) (b : Q) : Q :=
  match a with
  | Some q => if Qeq_bool q 0 then b else q
  | None => b
  end.
Definition or_string (a : option string) (b : string) : string :=
  match a with
  | Some EmptyString => b
  | Some s => s
  | None => b
  end.

(** What [groqData.segments.forEach] pushes to [allWords] and to
    [segments] for one segment. *)
Definition segment_words (seg : GroqSegment) : list Word :=
  match gs_words seg with
  | Some (w :: ws) =>
      map (fun word =>
             mkWord (or_string (gw_word word) EmptyString)
                    (Some (or_number (gw_start word) (or_number (gs_start seg) 0)))
                    (Some (or_number (gw_end word) (or_number (gs_end seg) 0))))
          (w :: ws)
  | _ => []
  end.
Definition segment_alone (seg : GroqSegment) : list Segment :=
  match gs_words seg with
  | Some (_ :: _) => []
  | _ => [mkSegment (or_string (gs_text seg) EmptyString)
                    (Some (roundTo (or_number (gs_start seg) 0)))
                    (Some (roundTo (or_number (gs_end seg) 0)))
                    None]
  end.

(** [segments] before [normalizeSegments]. *)
Definition shape (duration : Q) (groqData : GroqData) : list Segment :=
  match gd_segments groqData with
  | Some segs =>
      let allWords := List.concat (map segment_words segs) in
      match allWords with
      | [] => List.concat (map segment_alone segs)
      | _ :: _ => map segment_of_group (groupWordsByTiming allWords)
      end
  | None =>
      match gd_words groqData with
      | Some words => map segment_of_group (groupWordsByTiming words)
      | None =>
          match gd_text groqData with
          | Some (String c s) =>
              [mkSegment (String c s) (Some 0)
                         (Some (roundTo (or_number (Some duration) 0))) None]
          | _ => []
          end
      end
  end.

(** [transcribeVideo] from the duration check on; [response] is the
    parsed answer of the API, or the error thrown on the way to it. *)
Definition transcribeVideo (duration : Q) (response : GroqData + string)
  : list FSegment + string :=
  if Js.gtb duration 60 then inr "Video must be less than 60 seconds"%string
  else match response with
       | inr error => inr error
       | inl groqData => inl (normalizeSegments (shape duration groqData) (Some duration))
       end.

(** The words a segment carries. *)
Definition words_of (s : Segment) : list Word :=
  match s_words s with Some ws => ws | None => [] end.

End Transcribe.

(** ** Settled segment lists *)

Module Settling.
Import Transcription.

(** A time that is a whole number of hundredths, up to the fraction that
    stands for it. *)
Definition on_grid (q : Q) : Prop := roundTo q == q.

(** A word lies in its segment, starts before the segment ends, and lasts
    at least [MIN_WORD_DURATION] unless it ends with the segment. *)
Definition word_settled (s : FSegment) (w : FWord) : Prop :=
  hundredths (fw_start w) /\ hundredths (fw_end w)
  /\ fs_start s <= fw_start w /\ fw_start w < fs_end s /\ fw_end w <= fs_end s
  /\ (fw_start w + MIN_WORD_DURATION <= fw_end w \/ fw_end w == fs_end s).

(** Every word is settled and the last one ends with the segment. *)
Fixpoint words_settled (s : FSegment) (ws : list FWord) : Prop :=
  match ws with
  | [] => True
  | [w] => word_settled s w /\ fw_end w == fs_end s
  | w :: rest => word_settled s w /\ words_settled s rest
  end.

(** A segment as a pass of [normalizeSegments] leaves it, [next] being the
    segment that follows: whole hundredths, not before [0], ending by the
    start of the next segment, lasting [MIN_SEGMENT_DURATION] unless its
    end was cut (with no duration known, at the start of the next
    segment; with a duration [d], at [d], so that it ends at [roundTo d]),
    and with settled words. *)
Definition segment_settled (duration : option Q) (s : FSegment)
  (next : option FSegment) : Prop :=
  hundredths (fs_start s) /\ hundredths (fs_end s)
  /\ 0 <= fs_start s /\ fs_start s <= fs_end s
  /\ (forall n, next = Some n -> fs_end s <= fs_start n)
  /\ match fs_words s with Some ws => words_settled s ws | None => True end
  /\ match duration with
     | None =>
         fs_start s + MIN_SEGMENT_DURATION <= fs_end s
         \/ (fs_start s < fs_end s
             /\ exists n, next = Some n /\ fs_end s == fs_start n)
     | Some d =>
         (fs_start s <= d \/ fs_start s = roundTo d)
         /\ ((fs_start s + MIN_SEGMENT_DURATION <= fs_end s /\ fs_end s <= d)
             \/ fs_end s = roundTo d)
     end.

Fixpoint settled (duration : option Q) (l : list FSegment) : Prop :=
  match l with
  | [] => True
  | s :: rest => segment_settled duration s (hd_error rest) /\ settled duration rest
  end.

(** The lists that a pass of [normalizeSegments] leaves as they are. *)
Definition Settled (totalDuration : option Q) (l : list FSegment) : Prop :=
  settled (safeDuration totalDuration) l.

(** A segment whose start and end, where given, are whole hundredths, as
    [transcribeVideo] passes them; and one that has no word timing
    either. *)
Definition word_on_grid (w : Word) : Prop :=
  (forall q, w_start w = Some q -> on_grid q)
  /\ (forall q, w_end w = Some q -> on_grid q).
Definition times_on_grid (s : Segment) : Prop :=
  (forall q, s_start s = Some q -> on_grid q)
  /\ (forall q, s_end s = Some q -> on_grid q)
  /\ (forall ws, s_words s = Some ws -> Forall word_on_grid ws).
Definition plain_on_grid (s : Segment) : Prop :=
  s_words s = None /\ times_on_grid s.

(** The words of a returned segment start before its end and the last of
    them ends with it. *)
Definition words_fit (s : FSegment) : Prop :=
  match fs_words s with
  | Some ws =>
      Forall (fun w => fw_start w < fs_end s) ws
      /\ match ws with
         | [] => True
         | w :: _ => fw_end (last ws w) == fs_end s
         end
  | None => True
  end.

(** A sanitized segment whose times are hundredths. *)
Definition grid_segment (s : FSegment) : Prop :=
  on_grid (fs_start s) /\ on_grid (fs_end s).

(** A hundredth, or the duration. *)
Definition grid_or (duration : option Q) (q : Q) : Prop :=
  on_grid q \/ exists d, duration = Some d /\ q == d.

(** A duration whose hundredths the engine finds as exact arithmetic
    does.  The engine rounds the product [value * 100] to binary64 before
    [Math.round] sees it: [1.005 * 100] is [100.49999999999999] there. *)
Definition steady (totalDuration : option Q) : Prop :=
  forall d, totalDuration = Some d -> Double.hundredths d = Js.round (d * 100).

(** A returned segment, sanitized again. *)
Definition again (s : FSegment) : FSegment := sanitize (as_segment s).

(** The cursor lies at or before the start of the segment it meets, or at
    the duration when the segment starts at the rounded duration. *)
Definition meets (duration : option Q) (cursor a : Q) : Prop :=
  cursor <= a \/ exists d, duration = Some d /\ cursor == d /\ a = roundTo d.

(** The start of a segment is by the duration or is the rounded duration. *)
Definition starts_by_duration (duration : option Q) (n : FSegment) : Prop :=
  hundredths (fs_start n)
  /\ forall d, duration = Some d -> fs_start n <= d \/ fs_start n = roundTo d.

(** A rounded word whose times are hundredths. *)
Definition fword_on_grid (w : FWord) : Prop :=
  on_grid (fw_start w) /\ on_grid (fw_end w).

End Settling.

(** ** The window of a caption in [getVisibleSubtitles] *)

Module Window.
Import Visibility.

(** The time window in which a caption can score: from [TIMING_BUFFER]
    before the start of one of its words to [0.1] after the end of one of
    them, or, without word timing, from [TIMING_BUFFER] before its start to
    its end (or to its start, should it end before it starts). *)
Definition in_window (adjustedTime : Q) (sub : CaptionExportSubtitle) : Prop :=
  match sub_words sub with
  | Some (w :: ws) =>
      (exists w1, In w1 (w :: ws) /\ cw_start w1 - TIMING_BUFFER <= adjustedTime)
      /\ (exists w2, In w2 (w :: ws) /\ adjustedTime <= cw_end w2 + 0.1)
  | _ =>
      sub_start sub - TIMING_BUFFER <= adjustedTime
      /\ (adjustedTime <= sub_end sub \/ adjustedTime < sub_start sub)
  end.

End Window.

(** ** What the renderers show *)

Module Stage.

(** The state a word style stands for, numbered in the order in which a
    word passes through them: not yet due ([0.3]), about to appear
    ([0.5]), active ([1]), spoken ([0.7]), faded ([0]). *)
Definition stage (s : WordStyle) : nat :=
  if Qeq_bool (opacity s) 0.3 then 0
  else if Qeq_bool (opacity s) 0.5 then 1
  else if Qeq_bool (opacity s) 1 then 2
  else if Qeq_bool (opacity s) 0.7 then 3
  else 4.

(** What a screenshot of the page can show: the displayed captions with
    the inline styles of their words. *)
Definition visible_state (page : list Dom.CaptionElement)
  : list (option (CaptionExportSubtitle * list (CaptionExportWord * option WordStyle))) :=
  map (fun e => if Dom.el_display e
                then Some (Dom.el_subtitle e, Dom.el_words e)
                else None) page.

(** A caption without word timing. *)
Definition plain (s : CaptionExportSubtitle) : Prop :=
  sub_words s = None \/ sub_words s = Some [].

End Stage.

(** ** The fractions the stages report *)

Module Reports.
Import Progress.

(** A callback that keeps the fraction it is handed. *)
Definition record (p : Q) : Update := (EmptyString, mkState p EmptyString EmptyString).

(** The fractions a stage hands to its callback, in order. *)
Definition reported {A : Type} (m : M A) : list Q :=
  map (fun u => progress (snd u)) (published (fst (m empty_world))).

(** The calls [setProgress(...)] of a list, made one after the other. *)
Definition run_updates (us : list Update) (w : World) : World :=
  fold_left (fun w u => setProgress u w) us w.

(** The last element of a list, if any. *)
Definition latest {A : Type} (l : list A) : option A := last (map Some l) None.

(** Percents that rise from above [L] in multiples of five. *)
Fixpoint rising (L : Z) (l : list Q) : Prop :=
  match l with
  | [] => True
  | p :: rest =>
      (L < Qfloor (p * 100))%Z /\ (Qfloor (p * 100) mod 5 = 0)%Z /\ p <= 1
      /\ rising (Qfloor (p * 100)) rest
  end.

(** [c / total] for frame counts. *)
Definition fraction (total c : nat) : Q :=
  inject_Z (Z.of_nat c) / inject_Z (Z.of_nat total).

End Reports.

(** ** The sequential [renderCaptionOverlays] of [overlay-renderer.ts] *)

Module Sequential.
Import Progress.

(** The frame loop, from frame [i] on, for [n] more frames;
    [screenshot_ok i] tells whether frame [i] can be captured. *)
Fixpoint frame_loop (screenshot_ok : nat -> bool) (totalFrames i n : nat)
  (lastReportedProgress : Z) (onProgress : Q -> Update) : M unit :=
  match n with
  | O => ret tt
  | S n' =>
      await (screenshot_ok i) "screenshot failed" ;;
      let progress := inject_Z (Z.of_nat (i + 1)) / inject_Z (Z.of_nat totalFrames) in
      let progressPercent := Qfloor (progress * 100) in
      if (i mod 10 =? 0)%nat
         || (lastReportedProgress + 5 <=? progressPercent)%Z
         || (i =? totalFrames - 1)%nat
      then publish (onProgress progress) ;;
           frame_loop screenshot_ok totalFrames (S i) n' progressPercent onProgress
      else frame_loop screenshot_ok totalFrames (S i) n' lastReportedProgress onProgress
  end.

Definition renderCaptionOverlays (screenshot_ok : nat -> bool) (totalFrames : nat)
  (onProgress : Q -> Update) : M unit :=
  frame_loop screenshot_ok totalFrames 0 totalFrames 0 onProgress.

End Sequential.

(** ** Reporting under one id *)

Module Tags.
Import Progress.

(** Every stored, published and pending update speaks of [exportId]. *)
Definition ids_ok (exportId : string) (w : World) : Prop :=
  Forall (fun u => fst u = exportId) (progressStore w)
  /\ Forall (fun u => fst u = exportId) (published w)
  /\ Forall (fun u => fst u = exportId) (pending w).

(** Code that reports under [exportId] only. *)
Definition tags {A : Type} (exportId : string) (m : M A) : Prop :=
  forall w, ids_ok exportId w -> ids_ok exportId (fst (m w)).

End Tags.

(** ** The subscribers of [lib/progressStore.ts] *)

Module Subscribers.
Import Progress.

(** [lib/progressStore.ts] with its subscribers.  A callback is known by
    a number; [table] is the [Map<string, Set<ProgressCallback>>] in
    insertion order and [delivered] lists the calls [callback(state)] made
    so far.  The callbacks modelled return normally; the cleanup timers are
    added in [Cleanup]. *)
Record Bus : Type := mkBus
  { world : World;
    table : list (string * list nat);
    delivered : list (nat * ProgressState) }.

Definition empty_bus : Bus := mkBus empty_world [] [].

(** [subscribers.get(exportId)]. *)
Definition callbacks_of (exportId : string) (t : list (string * list nat))
  : option (list nat) :=
  option_map snd (find (fun kv => String.eqb (fst kv) exportId) t).

(** [Map.prototype.set]: an existing key keeps its place. *)
Fixpoint table_set (exportId : string) (v : list nat) (t : list (string * list nat))
  : list (string * list nat) :=
  match t with
  | [] => [(exportId, v)]
  | (k, x) :: t' =>
      if String.eqb k exportId then (k, v) :: t'
      else (k, x) :: table_set exportId v t'
  end.

(** [Map.prototype.delete]. *)
Definition table_delete (exportId : string) (t : list (string * list nat))
  : list (string * list nat) :=
  filter (fun kv => negb (String.eqb (fst kv) exportId)) t.

(** [Set.prototype.add] and [Set.prototype.delete]. *)
Definition set_add (callback : nat) (s : list nat) : list nat :=
  if existsb (Nat.eqb callback) s then s else s ++ [callback].
Definition set_delete (callback : nat) (s : list nat) : list nat :=
  filter (fun c => negb (Nat.eqb c callback)) s.

Definition setProgress (u : Update) (b : Bus) : Bus :=
  let state := snd u in
  {| world := Progress.setProgress u (world b);
     table := table b;
     delivered :=
       match callbacks_of (fst u) (table b) with
       | Some callbacks => delivered b ++ map (fun callback => (callback, state)) callbacks
       | None => delivered b
       end |}.

Definition getProgress (exportId : string) (b : Bus) : option ProgressState :=
  Progress.getProgress exportId (world b).

Definition subscribe (exportId : string) (callback : nat) (b : Bus) : Bus :=
  let t :=
    match callbacks_of exportId (table b) with
    | Some _ => table b
    | None => table_set exportId [] (table b)
    end in
  let callbacks := match callbacks_of exportId t with Some s => s | None => [] end in
  {| world := world b;
     table := table_set exportId (set_add callback callbacks) t;
     delivered :=
       match Progress.getProgress exportId (world b) with
       | Some currentState => delivered b ++ [(callback, currentState)]
       | None => delivered b
       end |}.

Definition unsubscribe (exportId : string) (callback : nat) (b : Bus) : Bus :=
  match callbacks_of exportId (table b) with
  | Some callbacks =>
      let callbacks := set_delete callback callbacks in
      {| world := world b;
         table := if (List.length callbacks =? 0)%nat
                  then table_delete exportId (table b)
                  else table_set exportId callbacks (table b);
         delivered := delivered b |}
  | None => b
  end.

(** The states a callback was called with, in order. *)
Definition received (callback : nat) (b : Bus) : list ProgressState :=
  map snd (filter (fun d => Nat.eqb (fst d) callback) (delivered b)).

Definition run (us : list Update) (b : Bus) : Bus :=
  fold_left (fun b u => setProgress u b) us b.

(** The callback is in no set of the table. *)
Definition unknown (callback : nat) (t : list (string * list nat)) : Prop :=
  Forall (fun kv => ~ In callback (snd kv)) t.

(** The callback is in no set of the table but under [exportId]. *)
Definition only_under (exportId : string) (callback : nat)
  (t : list (string * list nat)) : Prop :=
  Forall (fun kv => fst kv <> exportId -> ~ In callback (snd kv)) t.

(** The table as the code keeps it: one entry per id, no empty set, no
    callback twice in a set. *)
Definition tidy (t : list (string * list nat)) : Prop :=
  NoDup (map fst t) /\ Forall (fun kv => snd kv <> [] /\ NoDup (snd kv)) t.

End Subscribers.

(** ** [lib/progressStore.ts] with its cleanup timers *)

Module Cleanup.
Import Progress Subscribers.

(** [10 * 60 * 1000] milliseconds. *)
Definition TEN_MINUTES : Z := 10 * 60 * 1000.

(** The module state with [cleanupTimers]: for each id with a timer, the
    time from which that timer can run.  [clock] is the time of the last
    turn of the event loop, in milliseconds. *)
Record Store : Type := mkStore
  { bus : Bus;
    cleanupTimers : list (string * Z);
    clock : Z }.

Definition empty_store : Store := mkStore empty_bus [] 0.

(** [cleanupTimers.get], [cleanupTimers.set] and [cleanupTimers.delete]. *)
Definition due (exportId : string) (timers : list (string * Z)) : option Z :=
  option_map snd (find (fun kv => String.eqb (fst kv) exportId) timers).
Definition timers_delete (exportId : string) (timers : list (string * Z))
  : list (string * Z) :=
  filter (fun kv => negb (String.eqb (fst kv) exportId)) timers.
Definition timers_set (exportId : string) (at_ : Z) (timers : list (string * Z))
  : list (string * Z) :=
  (exportId, at_) :: timers_delete exportId timers.

(** [setProgress] called at time [now]: the state is stored and handed to
    the subscribers, the timer of the id is cleared and a new one is set
    to run ten minutes later. *)
Definition setProgress (now : Z) (u : Update) (s : Store) : Store :=
  {| bus := Subscribers.setProgress u (bus s);
     cleanupTimers := timers_set (fst u) (now + TEN_MINUTES) (cleanupTimers s);
     clock := now |}.

(** The callback of the timer: [progressStore.delete(exportId)],
    [subscribers.delete(exportId)], [cleanupTimers.delete(exportId)]. *)
Definition cleanup (now : Z) (exportId : string) (s : Store) : Store :=
  {| bus :=
       {| world :=
            {| progressStore :=
                 filter (fun kv => negb (String.eqb (fst kv) exportId))
                        (progressStore (world (bus s)));
               published := published (world (bus s));
               pending := pending (world (bus s)) |};
          table := table_delete exportId (table (bus s));
          delivered := delivered (bus s) |};
     cleanupTimers := timers_delete exportId (cleanupTimers s);
     clock := now |}.

(** What a turn of the event loop runs: a call of one of the exported
    functions, or the callback of the timer of an id. *)
Inductive Event : Type :=
| SetProgress (u : Update)
| Subscribe (exportId : string) (callback : nat)
| Unsubscribe (exportId : string) (callback : nat)
| Timeout (exportId : string).

(** One turn at time [now].  Time does not go back, and a timer runs when
    it is due or later, never before. *)
Definition step (s : Store) (e : Z * Event) : option Store :=
  let '(now, event) := e in
  if (now <? clock s)%Z then None
  else
    match event with
    | SetProgress u => Some (setProgress now u s)
    | Subscribe exportId callback =>
        Some (mkStore (subscribe exportId callback (bus s)) (cleanupTimers s) now)
    | Unsubscribe exportId callback =>
        Some (mkStore (unsubscribe exportId callback (bus s)) (cleanupTimers s) now)
    | Timeout exportId =>
        match due exportId (cleanupTimers s) with
        | Some at_ => if (at_ <=? now)%Z then Some (cleanup now exportId s) else None
        | None => None
        end
    end.

(** A run of the event loop; [None] when the turns cannot happen in this
    order at these times. *)
Definition run (events : list (Z * Event)) (s : Store) : option Store :=
  fold_left (fun o e => match o with Some s => step s e | None => None end)
            events (Some s).

(** The calls [setProgress(exportId, ...)] of a run, with their times. *)
Definition sets_of (exportId : string) (events : list (Z * Event))
  : list (Z * ProgressState) :=
  flat_map (fun e => match snd e with
                     | SetProgress u => if String.eqb (fst u) exportId
                                then [(fst e, snd u)] else []
                     | _ => []
                     end) events.

(** A turn that is a call of [setProgress], or the timer of another id. *)
Definition spares (exportId : string) (e : Z * Event) : Prop :=
  match snd e with
  | SetProgress _ => True
  | Timeout k => k <> exportId
  | _ => False
  end.


End Cleanup.

(** ** The [/render] route from its first line *)

Module Route.
Import Progress.

(** [const tempDir = await ensureTempDir()] stands before the [try]: when
    it rejects, the handler rejects and nothing is reported. *)
Definition handler (temp_dir_ok : bool) (env : Env) : M Reply :=
  await temp_dir_ok "cannot create the temporary directory" ;;
  render env.

(** One request served on a fresh store, to the end of all its work. *)
Definition serve (temp_dir_ok : bool) (env : Env) : World * (Reply + string) :=
  let '(w, r) := handler temp_dir_ok env empty_world in (drain w, r).

Definition updates (temp_dir_ok : bool) (env : Env) : list ProgressState :=
  updates_for (job_id env) (fst (serve temp_dir_ok env)).

(** The request reaches the pipeline or its [catch]. *)
Definition accepted (temp_dir_ok : bool) (env : Env) : bool :=
  temp_dir_ok && Progress.accepted env.

Definition succeeds (temp_dir_ok : bool) (env : Env) : bool :=
  match snd (serve temp_dir_ok env) with
  | inl (VideoStream _) => true
  | _ => false
  end.

End Route.

(** ** The legacy exporter [lib/serverExportVideo.js] *)

Module Legacy.

(** [lib/serverExportVideo.js]: the frames are extracted to
    [frame%05d.png] with ["-start_number", "1"] and the rendered frames
    are read back with ["-start_number", "1"]. *)
Definition EXTRACT_START_NUMBER : nat := 1.
Definition COMBINE_START_NUMBER : nat := 1.

(** The render loop reads and writes [frame${String(frameIndex + 1)...}]
    and renders at [t = frameIndex / actualFrameRate]. *)
Definition frame_file (frameIndex : nat) : nat := frameIndex + 1.
Definition frame_time (actualFrameRate : Q) (frameIndex : nat) : Q :=
  inject_Z (Z.of_nat frameIndex) / actualFrameRate.

(** Which extracted frame a file of [framesDir] holds, and which turn of
    the loop wrote a file of [renderedFramesDir]. *)
Definition extracted_in (extractedFrames file : nat) : option nat :=
  find (fun j => FrameFiles.sequence_file EXTRACT_START_NUMBER j =? file)%nat
       (seq 0 extractedFrames).
Definition rendered_in (actualTotalFrames file : nat) : option nat :=
  find (fun i => frame_file i =? file)%nat (seq 0 actualTotalFrames).

(** Output frame [k] of the combine step: the extracted frame it shows
    and the turn of the loop that drew its captions. *)
Definition output_frame (totalFrames extractedFrames k : nat) : option (nat * nat) :=
  let actualTotalFrames := Nat.min totalFrames extractedFrames in
  match rendered_in actualTotalFrames (FrameFiles.sequence_file COMBINE_START_NUMBER k) with
  | Some i =>
      match extracted_in extractedFrames (frame_file i) with
      | Some j => Some (j, i)
      | None => None
      end
  | None => None
  end.

Definition CONCURRENT_FRAMES : nat := 8.

(** The render loop from frame [i] on, for [n] more frames, with the
    frames whose promises are in [framePromises]: the batches awaited,
    each with the progress reported after it. *)
Fixpoint render_loop (actualTotalFrames i n : nat) (framePromises : list nat)
  : list (list nat * Q) :=
  match n with
  | O => []
  | S n' =>
      let frameIndex := i in
      let framePromises := framePromises ++ [frameIndex] in
      if (CONCURRENT_FRAMES <=? List.length framePromises)%nat
         || (frameIndex =? actualTotalFrames - 1)%nat
      then (framePromises,
            0.4 + (inject_Z (Z.of_nat frameIndex) / inject_Z (Z.of_nat actualTotalFrames))
                  * 0.5)
           :: render_loop actualTotalFrames (S i) n' []
      else render_loop actualTotalFrames (S i) n' framePromises
  end.

Definition batches (actualTotalFrames : nat) : list (list nat * Q) :=
  render_loop actualTotalFrames 0 actualTotalFrames [].

End Legacy.

(** ** Names of the frame files *)

Module Paths.

Local Open Scope N_scope.

Definition digit_char (d : N) : ascii := ascii_of_N (48 + d).

(** [String(n)] for a frame index [n]: its decimal digits, the leading
    one first ([fuel] bounds the number of digits). *)
Fixpoint number_string_from (fuel : nat) (n : N) : string :=
  match fuel with
  | O => EmptyString
  | S fuel' =>
      if n <? 10 then String (digit_char n) EmptyString
      else (number_string_from fuel' (n / 10)
            ++ String (digit_char (n mod 10)) EmptyString)%string
  end.

Definition number_string (n : N) : string :=
  number_string_from (S (N.to_nat (N.log2 n))) n.

Fixpoint zeros (n : nat) : string :=
  match n with O => EmptyString | S n' => String "0"%char (zeros n') end.

(** [s.padStart(targetLength, "0")]. *)
Definition padStart (targetLength : nat) (s : string) : string :=
  (zeros (targetLength - String.length s) ++ s)%string.

(** [`frame-${String(i).padStart(6, "0")}.jpg`] of [captureFrames]. *)
Definition frame_name (i : N) : string :=
  ("frame-" ++ padStart 6 (number_string i) ++ ".jpg")%string.

(** [path.join(outputDir, name)] for an [outputDir] that [path.join]
    leaves as it is. *)
Definition frame_path (outputDir : string) (i : N) : string :=
  (outputDir ++ "/" ++ frame_name i)%string.

(** The decimal digits of [n] in a field of [width] characters. *)
Fixpoint fixed_width (width : nat) (n : N) : string :=
  match width with
  | O => EmptyString
  | S width' =>
      (fixed_width width' (n / 10) ++ String (digit_char (n mod 10)) EmptyString)%string
  end.

End Paths.

(** ** Where [renderFrame] draws the video frame *)

Module Layout.

(** Where [renderFrame] draws the video frame: [ctx.drawImage(frameImage,
    offsetX, offsetY, drawWidth, drawHeight)].  Sizes are positive
    numbers. *)
Record Placement : Type := mkPlacement
  { drawWidth : Q; drawHeight : Q; offsetX : Q; offsetY : Q }.

Definition fill (imageWidth imageHeight width height : Q) : Placement :=
  let videoRatio := imageWidth / imageHeight in
  let canvasRatio := width / height in
  if Js.gtb videoRatio canvasRatio
  then let drawHeight := height in
       let drawWidth := height * videoRatio in
       mkPlacement drawWidth drawHeight ((width - drawWidth) / 2) 0
  else let drawWidth := width in
       let drawHeight := width / videoRatio in
       mkPlacement drawWidth drawHeight 0 ((height - drawHeight) / 2).

End Layout.

(** ** The two [hexToRgb] *)

Module Colors.

(** Strings are strings of ASCII characters. *)

(** The value of a hexadecimal digit. *)
Definition hex_value (c : ascii) : option N :=
  let n := N_of_ascii c in
  if (48 <=? n)%N && (n <=? 57)%N then Some (n - 48)%N
  else if (97 <=? n)%N && (n <=? 102)%N then Some (n - 87)%N
  else if (65 <=? n)%N && (n <=? 70)%N then Some (n - 55)%N
  else None.

Definition is_hex (c : ascii) : bool :=
  match hex_value c with Some _ => true | None => false end.

(** White space that [parseInt] skips, and the line terminators that
    [.] does not match. *)
Definition is_white_space (c : ascii) : bool :=
  let n := N_of_ascii c in
  ((9 <=? n)%N && (n <=? 13)%N) || (n =? 32)%N.
Definition is_line_terminator (c : ascii) : bool :=
  let n := N_of_ascii c in (n =? 10)%N || (n =? 13)%N.

Fixpoint trim_start (s : string) : string :=
  match s with
  | EmptyString => EmptyString
  | String c s' => if is_white_space c then trim_start s' else s
  end.

(** The value of the longest prefix of hexadecimal digits; [None] when
    there is no digit. *)
Fixpoint hex_digits (s : string) (acc : option N) : option N :=
  match s with
  | EmptyString => acc
  | String c s' =>
      match hex_value c with
      | Some v =>
          hex_digits s' (Some (16 * (match acc with Some a => a | None => 0 end) + v)%N)
      | None => acc
      end
  end.

(** [parseInt(s, 16)]; [None] is [NaN]. *)
Definition parseInt16 (s : string) : option Z :=
  let s := trim_start s in
  let '(negative, s) :=
    match s with
    | String c rest =>
        if (c =? "-")%char then (true, rest)
        else if (c =? "+")%char then (false, rest)
        else (false, s)
    | EmptyString => (false, s)
    end in
  let s :=
    match s with
    | String c1 (String c2 rest) =>
        if (c1 =? "0")%char && ((c2 =? "x")%char || (c2 =? "X")%char) then rest else s
    | _ => s
    end in
  match hex_digits s None with
  | Some v => Some (if negative then (- Z.of_N v)%Z else Z.of_N v)
  | None => None
  end.

(** A number in a template literal. *)
Definition show_number (z : option Z) : string :=
  match z with
  | None => "NaN"
  | Some z =>
      if (z <? 0)%Z then ("-" ++ Paths.number_string (Z.to_N (- z)))%string
      else Paths.number_string (Z.to_N z)
  end.

(** [hexToRgb] of [overlay-renderer.ts]: the groups of
    [/^#?([a-f\d]{2})([a-f\d]{2})([a-f\d]{2})$/i.exec(hex)]. *)
Definition exec_regex (hex : string) : option (string * string * string) :=
  let body :=
    match hex with
    | String c rest => if (c =? "#")%char then rest else hex
    | EmptyString => hex
    end in
  match body with
  | String c1 (String c2 (String c3 (String c4 (String c5 (String c6 EmptyString))))) =>
      if is_hex c1 && is_hex c2 && is_hex c3 && is_hex c4 && is_hex c5 && is_hex c6
      then Some (String c1 (String c2 EmptyString),
                 String c3 (String c4 EmptyString),
                 String c5 (String c6 EmptyString))
      else None
  | _ => None
  end.

Definition overlay_hexToRgb (hex : string) : string :=
  match exec_regex hex with
  | None => "0, 0, 0"
  | Some (g1, g2, g3) =>
      (show_number (parseInt16 g1) ++ ", " ++ show_number (parseInt16 g2) ++ ", "
       ++ show_number (parseInt16 g3))%string
  end.

(** [hexToRgb] of [lib/serverRenderFrame.js]. *)
Record Rgb : Type := mkRgb { r : option Z; g : option Z; b : option Z }.

Definition black : Rgb := mkRgb (Some 0%Z) (Some 0%Z) (Some 0%Z).

(** [hex.replace("#", "")]: the first [#] goes. *)
Fixpoint remove_first_hash (s : string) : string :=
  match s with
  | EmptyString => EmptyString
  | String c s' => if (c =? "#")%char then s' else String c (remove_first_hash s')
  end.

(** [cleaned.match(/.{1,2}/g)]: pairs of characters, cut at line
    terminators. *)
Fixpoint chunks (s : string) : list string :=
  match s with
  | EmptyString => []
  | String c1 s1 =>
      if is_line_terminator c1 then chunks s1
      else
        match s1 with
        | EmptyString => [String c1 EmptyString]
        | String c2 s2 =>
            if is_line_terminator c2 then String c1 EmptyString :: chunks s2
            else String c1 (String c2 EmptyString) :: chunks s2
        end
  end.

Definition canvas_hexToRgb (hex : string) : Rgb :=
  match hex with
  | EmptyString => black
  | _ =>
      match chunks (remove_first_hash hex) with
      | [m0; m1; m2] => mkRgb (parseInt16 m0) (parseInt16 m1) (parseInt16 m2)
      | _ => black
      end
  end.

(** The canvas colour written as the page writes it. *)
Definition show_rgb (c : Rgb) : string :=
  (show_number (r c) ++ ", " ++ show_number (g c) ++ ", " ++ show_number (b c))%string.

End Colors.

(** ** Sample inputs *)

Module Samples.

(** A word over [[1, 2]] whose fade time is its end. *)
Definition faded_word : CaptionExportWord :=
  mkExportWord "hi" 1 2 (mkWordState 1 1 2 2).

(** Two overlapping plain segments, and a caption carrying the text and
    times of a normalized segment. *)
Definition plain_segment (text : string) (a b : Q) : Transcription.Segment :=
  Transcription.mkSegment text (Some a) (Some b) None.

Definition overlapping_segments : list Transcription.Segment :=
  [plain_segment "A" 0 1; plain_segment "B" 0.5 2].

Definition caption_of (s : Transcription.FSegment) : CaptionExportSubtitle :=
  mkSubtitle (Transcription.fs_text s) (Transcription.fs_text s)
             (Transcription.fs_start s) (Transcription.fs_end s) None.

Definition adjacent_captions : list CaptionExportSubtitle :=
  map caption_of (Transcription.normalizeSegments overlapping_segments None).

(** The three words of the grouping example. *)
Definition hi_there_friend : list Transcription.Word :=
  [Transcription.mkWord "hi" (Some 0.00) (Some 0.30);
   Transcription.mkWord "there" (Some 0.32) (Some 0.60);
   Transcription.mkWord "friend" (Some 1.10) (Some 1.40)].

(** A segment cut short by the start of the next one. *)
Definition crowded_segments : list Transcription.Segment :=
  [plain_segment "A" 0 1; plain_segment "B" 0.1 1].

(** An answer of the transcription API with a word of no length: the
    second group starts where the last word of the first one does. *)
Definition thank_you_answer : Transcribe.GroqData :=
  Transcribe.mkGroqData None
    (Some [Transcription.mkWord "Thank" (Some 0.28) (Some 0.8);
           Transcription.mkWord "you." (Some 0.83) (Some 0.83);
           Transcription.mkWord "Now" (Some 0.83) (Some 1)])
    None.

(** The answer that holds the three words of the grouping example. *)
Definition hi_there_answer : Transcribe.GroqData :=
  Transcribe.mkGroqData None (Some hi_there_friend) None.

(** A word over [[0.05, 0.1]] that has faded by [0.15]. *)
Definition spoken_word : CaptionExportWord :=
  mkExportWord "hi" 0.05 0.1 (mkWordState 0 0.05 0.1 0.15).

(** Captions that [normalizeSegments] makes meet at [0.25] and at [0.15]. *)
Definition quarter_segments : list Transcription.Segment :=
  [plain_segment "A" 0 1; plain_segment "B" 0.25 2].
Definition quarter_captions : list CaptionExportSubtitle :=
  map caption_of (Transcription.normalizeSegments quarter_segments None).
Definition meeting_segments : list Transcription.Segment :=
  [plain_segment "A" 0 1; plain_segment "B" 0.15 2].
Definition meeting_captions : list CaptionExportSubtitle :=
  map caption_of (Transcription.normalizeSegments meeting_segments None).

(** A callback that subscribes to "a", three calls of [setProgress] that
    follow, and the store after them. *)
Definition watched_events : list (Z * Cleanup.Event) :=
  [(1, Cleanup.SetProgress ("a"%string, Progress.mkState 10 "s" "m"));
   (2, Cleanup.SetProgress ("b"%string, Progress.mkState 20 "s" "m"));
   (3, Cleanup.SetProgress ("a"%string, Progress.mkState 30 "s" "m"))]%Z.
Definition watched_store : Cleanup.Store :=
  Cleanup.setProgress 3 ("a"%string, Progress.mkState 30 "s" "m")
    (Cleanup.setProgress 2 ("b"%string, Progress.mkState 20 "s" "m")
       (Cleanup.setProgress 1 ("a"%string, Progress.mkState 10 "s" "m")
          (Cleanup.mkStore (Subscribers.subscribe "a" 7 Subscribers.empty_bus) [] 0))).

(** At [t = 0.1]: the word of caption X ends at [0.15], the word of
    caption Y starts at [0.18]. *)
Definition caption_X : CaptionExportSubtitle :=
  mkSubtitle "X" "one" 0.05 0.15
             (Some [mkExportWord "one" 0.05 0.15 (mkWordState 0 0.05 0.15 0.25)]).
Definition caption_Y : CaptionExportSubtitle :=
  mkSubtitle "Y" "two" 0.18 0.30
             (Some [mkExportWord "two" 0.18 0.30 (mkWordState 0.13 0.18 0.30 0.40)]).

(** At [t = 2.0]: caption A has a word that is active, caption B a word
    that is about to appear. *)
Definition caption_A : CaptionExportSubtitle :=
  mkSubtitle "A" "now" 1.90 2.30
             (Some [mkExportWord "now" 1.90 2.30 (mkWordState 1.85 1.90 2.30 2.40)]).
Definition caption_B : CaptionExportSubtitle :=
  mkSubtitle "B" "soon" 2.08 2.50
             (Some [mkExportWord "soon" 2.08 2.50 (mkWordState 2.03 2.08 2.50 2.60)]).

(** A render of 40 frames in which an overlay worker rejects when nine
    frames are complete; another worker completes a tenth frame after the
    route has reported the error. *)
Definition late_worker_env : Progress.Env :=
  {| Progress.parts_ok := true;
     Progress.default_id := "job_1";
     Progress.field_id := Some "export-7"%string;
     Progress.has_video := true;
     Progress.payload := Some (Some "export-7"%string);
     Progress.mkdir_frames_ok := true;
     Progress.probe_ok := true;
     Progress.totalFrames := 40;
     Progress.extract_frames := [];
     Progress.extract_ok := true;
     Progress.mkdir_overlay_ok := true;
     Progress.browser_ok := true;
     Progress.overlay_setup_ok := true;
     Progress.worker_failure := Some (9%nat, 1%nat);
     Progress.browser_close_ok := true;
     Progress.compose_frames := [];
     Progress.compose_ok := true |}.

(** The same render with all workers completing. *)
Definition good_env : Progress.Env :=
  {| Progress.parts_ok := true;
     Progress.default_id := "job_1";
     Progress.field_id := Some "export-7"%string;
     Progress.has_video := true;
     Progress.payload := Some (Some "export-7"%string);
     Progress.mkdir_frames_ok := true;
     Progress.probe_ok := true;
     Progress.totalFrames := 40;
     Progress.extract_frames := [10; 20; 40]%nat;
     Progress.extract_ok := true;
     Progress.mkdir_overlay_ok := true;
     Progress.browser_ok := true;
     Progress.overlay_setup_ok := true;
     Progress.worker_failure := None;
     Progress.browser_close_ok := true;
     Progress.compose_frames := [8; 20; 40]%nat;
     Progress.compose_ok := true |}.

End Samples.

(** ** More sample inputs *)

Module Inputs.

(** The three words of the grouping example, one by one. *)
Definition word_hi : Transcription.Word :=
  Transcription.mkWord "hi" (Some 0.00) (Some 0.30).
Definition word_there : Transcription.Word :=
  Transcription.mkWord "there" (Some 0.32) (Some 0.60).
Definition word_friend : Transcription.Word :=
  Transcription.mkWord "friend" (Some 1.10) (Some 1.40).

(** An answer of the transcription API with one segment that carries
    words and one that does not. *)
Definition mixed_segments : list Transcribe.GroqSegment :=
  [Transcribe.mkGroqSegment (Some "hi there"%string) (Some 0) (Some 0.6)
     (Some [Transcribe.mkGroqWord (Some "hi"%string) (Some 0) (Some 0.3);
            Transcribe.mkGroqWord (Some "there"%string) (Some 0.32) (Some 0.6)]);
   Transcribe.mkGroqSegment (Some "friend"%string) (Some 1.1) (Some 1.4) None].
Definition mixed_answer : Transcribe.GroqData :=
  Transcribe.mkGroqData (Some mixed_segments) None (Some "hi there friend"%string).

(** A request whose [exportId] field differs from the id in its payload. *)
Definition mismatched_env : Progress.Env :=
  {| Progress.parts_ok := true;
     Progress.default_id := "job_1";
     Progress.field_id := Some "field-id"%string;
     Progress.has_video := true;
     Progress.payload := Some (Some "payload-id"%string);
     Progress.mkdir_frames_ok := true;
     Progress.probe_ok := true;
     Progress.totalFrames := 40;
     Progress.extract_frames := [10; 20; 40]%nat;
     Progress.extract_ok := true;
     Progress.mkdir_overlay_ok := true;
     Progress.browser_ok := true;
     Progress.overlay_setup_ok := true;
     Progress.worker_failure := Some (9%nat, 1%nat);
     Progress.browser_close_ok := true;
     Progress.compose_frames := [8; 20; 40]%nat;
     Progress.compose_ok := true |}.

End Inputs.

(** * Proofs *)

(** ** Planner *)

Module PlannerFacts.
Import Planner.

Local Open Scope nat_scope.

Lemma ceil_div_bounds (a b : nat) :
  0 < b -> a <= ceil_div a b * b /\ ceil_div a b * b < a + b.
Proof.
  intros Hb. unfold ceil_div.
  pose proof (Nat.div_mod (a + b - 1) b ltac:(lia)) as Hdm.
  pose proof (Nat.mod_upper_bound (a + b - 1) b ltac:(lia)) as Hm.
  split; nia.
Qed.

Lemma ceil_div_least (a b k : nat) : 0 < b -> a <= k * b -> ceil_div a b <= k.
Proof.
  intros Hb Hk. destruct (ceil_div_bounds a b Hb) as [_ Hu].
  destruct (Nat.le_gt_cases (ceil_div a b) k) as [|Hgt]; [assumption|].
  exfalso. nia.
Qed.

Section Chunks.
Variables fpw total : nat.

Let keep (c : Chunk) : bool := start c <? total.

Lemma chunks_beyond_total (m i0 : nat) :
  total <= i0 * fpw ->
  filter keep (map (chunk_of fpw total) (seq i0 m)) = [].
Proof.
  revert i0. induction m as [|m IH]; intros i0 Hle; [reflexivity|].
  cbn [seq map filter]. unfold keep at 1. cbn [start chunk_of].
  destruct (Nat.ltb_spec (i0 * fpw) total) as [Hlt|_]; [lia|].
  apply IH. nia.
Qed.

Lemma chunks_cover_from (m i0 : nat) :
  i0 * fpw <= total -> total <= (i0 + m) * fpw ->
  concat (map frames_of (filter keep (map (chunk_of fpw total) (seq i0 m))))
  = seq (i0 * fpw) (total - i0 * fpw).
Proof.
  revert i0. induction m as [|m IH]; intros i0 Hlo Hhi.
  - replace (total - i0 * fpw) with 0 by nia. reflexivity.
  - cbn [seq map filter]. unfold keep at 1. cbn [start chunk_of].
    destruct (Nat.ltb_spec (i0 * fpw) total) as [Hlt|Hge].
    + cbn [map concat]. unfold frames_of at 1. cbn [start end_ chunk_of].
      destruct (Nat.le_gt_cases ((i0 + 1) * fpw) total) as [Hfull|Hcut].
      * rewrite Nat.min_l by assumption.
        replace (S i0) with (i0 + 1) by lia.
        rewrite IH by (try assumption; nia).
        replace ((i0 + 1) * fpw - i0 * fpw) with fpw by nia.
        replace ((i0 + 1) * fpw) with (i0 * fpw + fpw) by nia.
        rewrite <- seq_app. f_equal. nia.
      * rewrite Nat.min_r by lia.
        rewrite chunks_beyond_total by nia.
        cbn [map concat]. apply app_nil_r.
    + rewrite chunks_beyond_total by nia.
      replace (total - i0 * fpw) with 0 by lia. reflexivity.
Qed.

Lemma chunks_shape (m i0 : nat) (c : Chunk) :
  In c (filter keep (map (chunk_of fpw total) (seq i0 m))) ->
  start c < total /\ c = chunk_of fpw total (id c) /\ i0 <= id c < i0 + m.
Proof.
  intros Hin. apply filter_In in Hin. destruct Hin as [Hin Hk].
  apply in_map_iff in Hin. destruct Hin as [i [<- Hi]].
  apply in_seq in Hi. unfold keep in Hk. apply Nat.ltb_lt in Hk.
  cbn [start end_ id chunk_of] in *. repeat split; try lia.
Qed.

End Chunks.

Lemma planChunks_length (total conc : nat) : length (planChunks total conc) <= conc.
Proof.
  unfold planChunks.
  etransitivity; [apply filter_length_le|].
  rewrite length_map, length_seq. constructor.
Qed.

Lemma planChunks_cover (total conc : nat) :
  1 <= conc ->
  concat (map frames_of (planChunks total conc)) = seq 0 total.
Proof.
  intros Hc. unfold planChunks.
  destruct (ceil_div_bounds total conc ltac:(lia)) as [Hlo _].
  rewrite (chunks_cover_from (ceil_div total conc) total conc 0) by lia.
  f_equal. lia.
Qed.


(** C8.  For [concurrency >= 1] the planned chunks, read in order, list
    every frame index of [[0, totalFrames)] exactly once (contiguous, no
    gap, no overlap); there are at most [concurrency] of them; none is
    empty; chunk [i] starts at [i * ceil(totalFrames / concurrency)], has
    that size unless it is the one cut at [totalFrames]; every index lies
    in exactly one chunk; and 10 frames over 4 workers give
    [0,3) [3,6) [6,9) [9,10). *)
Theorem C8_planChunks_partition (totalFrames concurrency : nat) :
  1 <= concurrency ->
  let chunks := planChunks totalFrames concurrency in
  let framesPerWorker := ceil_div totalFrames concurrency in
  List.concat (map frames_of chunks) = seq 0 totalFrames
  /\ List.length chunks <= concurrency
  /\ (totalFrames <= framesPerWorker * concurrency
      /\ forall k, totalFrames <= k * concurrency -> framesPerWorker <= k)
  /\ (forall c, In c chunks ->
        start c < end_ c <= totalFrames
        /\ start c = id c * framesPerWorker
        /\ size c <= framesPerWorker
        /\ (end_ c < totalFrames -> size c = framesPerWorker))
  /\ (forall k, k < totalFrames ->
        exists c, In c chunks /\ start c <= k < end_ c
                  /\ forall c', In c' chunks -> start c' <= k < end_ c' -> c' = c)
  /\ planChunks 10 4 = [mkChunk 0 0 3; mkChunk 1 3 6; mkChunk 2 6 9; mkChunk 3 9 10].
Proof.
  intros Hc chunks fpw.
  pose proof (planChunks_cover totalFrames concurrency Hc) as Hcover.
  destruct (ceil_div_bounds totalFrames concurrency ltac:(lia)) as [Hlo Hhi].
  fold fpw in Hlo, Hhi.
  assert (Hshape : forall c, In c chunks ->
            start c < totalFrames /\ c = chunk_of fpw totalFrames (id c)).
  { intros c Hin. apply chunks_shape in Hin. tauto. }
  assert (Hpos : 0 < totalFrames -> 0 < fpw) by (intros; nia).
  split; [exact Hcover|].
  split; [apply planChunks_length|].
  split.
  { split; [lia|]. intros k Hk. apply ceil_div_least; lia. }
  split.
  { intros c Hin. destruct (Hshape c Hin) as [Hlt Heq].
    rewrite Heq. unfold size. cbn [start end_ id chunk_of].
    rewrite Heq in Hlt. cbn [start chunk_of] in Hlt.
    assert (0 < fpw) by (apply Hpos; lia).
    destruct (Nat.min_spec ((id c + 1) * fpw) totalFrames) as [[? ->]|[? ->]]; nia. }
  split; [|reflexivity].
  intros k Hk.
  assert (Hin : In k (List.concat (map frames_of chunks))).
  { unfold chunks. rewrite Hcover. apply in_seq. lia. }
  apply in_concat in Hin. destruct Hin as [l [Hl Hkl]].
  apply in_map_iff in Hl. destruct Hl as [c [<- Hc']].
  unfold frames_of in Hkl. apply in_seq in Hkl.
  exists c. split; [assumption|]. split; [lia|].
  intros c' Hin' Hk'.
  destruct (Hshape c Hc') as [Hlt Heq]. destruct (Hshape c' Hin') as [Hlt' Heq'].
  rewrite Heq, Heq'. f_equal.
  rewrite Heq in Hkl. rewrite Heq' in Hk'. cbn [start end_ chunk_of] in Hkl, Hk'.
  assert (0 < fpw) by (apply Hpos; lia).
  assert (k < (id c + 1) * fpw) by lia.
  assert (k < (id c' + 1) * fpw) by lia.
  nia.
Qed.

Lemma C8_planChunks_partition_witness :
  1 <= 4 /\ List.concat (map frames_of (planChunks 10 4)) = seq 0 10.
Proof.
  split; [lia|]. apply (C8_planChunks_partition 10 4). lia.
Defined.

End PlannerFacts.

(** ** Rational comparisons *)

Lemma Qle_bool_false (a b : Q) : Qle_bool a b = false <-> b < a.
Proof.
  split; intros H.
  - apply Qnot_le_lt. intros Hle. apply Qle_bool_iff in Hle. congruence.
  - destruct (Qle_bool a b) eqn:E; [|reflexivity].
    apply Qle_bool_iff in E. exfalso. apply (Qlt_not_le _ _ H E).
Qed.

Ltac qprop :=
  repeat match goal with
         | H : Qle_bool _ _ = true |- _ => apply Qle_bool_iff in H
         | H : Qle_bool _ _ = false |- _ => apply Qle_bool_false in H
         end.

Ltac no_test x :=
  lazymatch x with
  | context [if _ then _ else _] => fail
  | _ => idtac
  end.

(** Split on a comparison whose operands hold no conditional. *)
Ltac qcase :=
  match goal with
  | |- context [Qle_bool ?a ?b] =>
      no_test a; no_test b; destruct (Qle_bool a b) eqn:?
  end.

Ltac qunfold :=
  unfold clamp in *; unfold Js.ltb, Js.leb, Js.geb, Js.gtb, Js.max, Js.min in *.

(** Split on every comparison, then finish by linear arithmetic. *)
Ltac qcases := cbv zeta; qunfold; repeat (qcase; cbn [negb andb orb fst snd]).
Ltac qsolve := qcases; qprop; cbn [negb andb orb fst snd]; try lra.
Ltac qsame := qcases; qprop; first [reflexivity | exfalso; lra].

Lemma Qle_bool_true_intro (a b : Q) : a <= b -> Qle_bool a b = true.
Proof. apply Qle_bool_iff. Qed.

Lemma Qle_bool_false_intro (a b : Q) : b < a -> Qle_bool a b = false.
Proof. apply Qle_bool_false. Qed.

(** ** Frame files *)

Module FrameFilesFacts.
Import FrameFiles.

Local Open Scope nat_scope.

Lemma find_in_seq (n a len : nat) :
  a <= n < a + len -> find (fun j => j =? n) (seq a len) = Some n.
Proof.
  revert a. induction len as [|len IH]; intros a H; [lia|].
  cbn [seq find]. destruct (Nat.eqb_spec a n) as [->|Hne]; [reflexivity|].
  apply IH. lia.
Qed.

Lemma find_beyond_seq (n a len : nat) :
  a + len <= n -> find (fun j => j =? n) (seq a len) = None.
Proof.
  revert a. induction len as [|len IH]; intros a H; [reflexivity|].
  cbn [seq find]. destruct (Nat.eqb_spec a n) as [->|Hne]; [lia|].
  apply IH. lia.
Qed.

(** Every output frame but the last shows overlay [k] on video frame [k + 1]. *)
Lemma composed_pair_shifted (totalFrames k : nat) :
  k + 1 < totalFrames -> composed_pair totalFrames k = (Some (k + 1), Some k).
Proof.
  intros H. unfold composed_pair, video_frame_in, overlay_in, video_frame_file,
    overlay_file, sequence_file, EXTRACT_START_NUMBER, COMPOSE_VIDEO_START_NUMBER,
    COMPOSE_OVERLAY_START_NUMBER. cbn [Nat.add].
  rewrite (find_in_seq (S k)) by lia. rewrite (find_in_seq k) by lia.
  replace (k + 1) with (S k) by lia. reflexivity.
Qed.

(** C1.  The extractor numbers the video frames from 0, the compositor
    reads them from 1: with three frames at 30 fps, output frame 0 puts
    the overlay rendered for time 0 on the video frame of time 1/30, and
    the last overlay finds no video frame. *)
Theorem C1_overlay_meets_next_video_frame :
  EXTRACT_START_NUMBER <> COMPOSE_VIDEO_START_NUMBER
  /\ composed_pair 3 0 = (Some 1, Some 0)
  /\ (overlay_time 30 0 == 0 /\ video_time 30 1 == 1 # 30)%Q
  /\ ~ (video_time 30 1 == overlay_time 30 0)%Q
  /\ composed_pair 3 2 = (None, Some 2).
Proof.
  split; [discriminate|].
  split; [reflexivity|].
  split; [split; reflexivity|].
  split; [|reflexivity].
  intros H. vm_compute in H. discriminate.
Qed.

End FrameFilesFacts.

(** ** Word state in the two rasterizers *)

Module EngineFacts.
Import Machine.

(** Over exact arithmetic the code of [DomOn], [VisibilityOn] and
    [CanvasOn] is the code of [Dom], [Visibility] and [Canvas]. *)
Lemma updateCaptions_exact (t : Q) (page : list Dom.CaptionElement) :
  DomOn.updateCaptions exact t page = Dom.updateCaptions t page.
Proof. reflexivity. Qed.

Lemma getVisibleSubtitles_exact (subtitles : list CaptionExportSubtitle) (t : Q) :
  VisibilityOn.getVisibleSubtitles exact subtitles t
  = Visibility.getVisibleSubtitles subtitles t.
Proof. reflexivity. Qed.

Lemma word_style_exact (t : Q) (w : CaptionExportWord) :
  CanvasOn.word_style exact (CanvasOn.shifted exact t) w
  = Canvas.word_style (t + Canvas.buffer) w.
Proof. reflexivity. Qed.

(** Frame 3 of a render at 30 frames a second has the time that the
    numeral [0.1] denotes, in both exporters; [0.05] added to it is more
    than what [0.15] denotes. *)
Lemma third_frame :
  Frames.overlay_time 30 3 = Double.round 0.1
  /\ Frames.legacy_time 30 3 = Double.round 0.1
  /\ Double.round 0.15 < Double.add (Double.round 0.1) (Double.round 0.05).
Proof. repeat split; vm_compute; reflexivity. Qed.

End EngineFacts.

Module WordStateFacts.
Import Machine.

(** C2, as stated, fails.  Frame 3 of a render at 30 frames a second has
    [currentTime = 0.1]; the engine adds [0.05] to it as
    [0.15000000000000002].  A word over [[0.05, 0.1]] whose fade time is
    [0.15] is past its fade time then: the page gives it opacity 0
    (weight 400), the canvas 0.7 (weight 600). *)
Lemma C2_counterexample :
  ~ (forall (w : CaptionExportWord) (t : Q),
        number binary64 (activeStart (cw_states w)) = number binary64 (cw_start w) ->
        number binary64 (activeEnd (cw_states w)) = number binary64 (cw_end w) ->
        DomOn.word_style binary64 (DomOn.adjustedTime binary64 t) w
        = CanvasOn.word_style binary64 (CanvasOn.shifted binary64 t) w).
Proof.
  intros H.
  specialize (H Samples.spoken_word (Frames.overlay_time 30 3) eq_refl eq_refl).
  vm_compute in H. discriminate.
Qed.

(** C2, amended.  Whatever the arithmetic, both renderers add the buffer to
    the frame time in the same way, and for a word whose
    [states.activeStart]/[activeEnd] are its [start]/[end] they assign the
    same opacity and weight at every frame whose buffered time [a], as
    computed, has [a <= fade], or [a <= end], or [a < start].  Once the word
    has started, has ended and its fade time has passed, the page assigns
    opacity 0 (weight 400) and the canvas 0.7 (weight 600). *)
Theorem C2_word_state_agreement (A : Arith) (w : CaptionExportWord) (t : Q) :
  number A (activeStart (cw_states w)) = number A (cw_start w) ->
  number A (activeEnd (cw_states w)) = number A (cw_end w) ->
  let a := DomOn.adjustedTime A t in
  CanvasOn.shifted A t = a
  /\ (a <= number A (fade (cw_states w)) \/ a <= number A (cw_end w)
      \/ a < number A (cw_start w) ->
      DomOn.word_style A a w = CanvasOn.word_style A (CanvasOn.shifted A t) w)
  /\ (number A (cw_start w) <= a -> number A (cw_end w) < a ->
      number A (fade (cw_states w)) < a ->
      DomOn.word_style A a w = mkStyle 0 400
      /\ CanvasOn.word_style A (CanvasOn.shifted A t) w = mkStyle 0.7 600).
Proof.
  intros Hs He a. split; [reflexivity|].
  change (CanvasOn.shifted A t) with a. clearbody a.
  unfold DomOn.word_style, CanvasOn.word_style. rewrite Hs, He.
  change Canvas.buffer with TIMING_BUFFER.
  generalize (minus A (number A (cw_start w)) (number A TIMING_BUFFER)).
  generalize (number A (cw_start w)) (number A (cw_end w))
             (number A (fade (cw_states w))).
  intros s e f m. qunfold. split.
  - intros H. repeat qcase; cbn; try reflexivity; exfalso; qprop; lra.
  - intros H1 H2 H3. split; repeat qcase; cbn; try reflexivity; exfalso; qprop; lra.
Qed.

Lemma C2_word_state_agreement_witness :
  DomOn.word_style binary64 (DomOn.adjustedTime binary64 1) Samples.faded_word
  = CanvasOn.word_style binary64 (CanvasOn.shifted binary64 1) Samples.faded_word.
Proof.
  apply (proj1 (proj2 (C2_word_state_agreement binary64 Samples.faded_word 1
                         eq_refl eq_refl))).
  left. vm_compute. discriminate.
Defined.

End WordStateFacts.

(** ** The page shows every caption whose interval holds the buffered time *)

Module DomFacts.
Import Dom.

Lemma in_range_iff (a : Q) (s : CaptionExportSubtitle) :
  in_range a s = true <-> sub_start s <= a /\ a <= sub_end s.
Proof.
  unfold in_range, Js.geb, Js.leb. rewrite andb_true_iff, !Qle_bool_iff. tauto.
Qed.

Lemma update_element_subtitle (a : Q) (e : CaptionElement) :
  el_subtitle (update_element a e) = el_subtitle e.
Proof. unfold update_element. destruct (in_range a (el_subtitle e)); reflexivity. Qed.

Lemma update_element_display (a : Q) (e : CaptionElement) :
  el_display (update_element a e) = in_range a (el_subtitle e).
Proof. unfold update_element. destruct (in_range a (el_subtitle e)); reflexivity. Qed.

Lemma displayed_iff (page : list CaptionElement) (t : Q) (s : CaptionExportSubtitle) :
  In s (displayed (updateCaptions t page))
  <-> In s (map el_subtitle page)
      /\ sub_start s <= t + 0.05 /\ t + 0.05 <= sub_end s.
Proof.
  unfold displayed, updateCaptions. rewrite !in_map_iff. split.
  - intros [e' [<- He']]. apply filter_In in He'. destruct He' as [He' Hd].
    apply in_map_iff in He'. destruct He' as [e [<- He]].
    rewrite update_element_display in Hd. rewrite update_element_subtitle.
    apply in_range_iff in Hd. split; [exists e; auto | exact Hd].
  - intros [[e [<- He]] Hr].
    exists (update_element (t + TIMING_BUFFER) e).
    split; [apply update_element_subtitle|].
    apply filter_In. split; [apply in_map; assumption|].
    rewrite update_element_display. apply in_range_iff. exact Hr.
Qed.

End DomFacts.

(** ** The page over the arithmetic of the engine *)

Module PageOnFacts.
Import Machine Dom.

Section Page.
Variable A : Arith.

Lemma in_range_on_iff (a : Q) (s : CaptionExportSubtitle) :
  DomOn.in_range A a s = true
  <-> number A (sub_start s) <= a /\ a <= number A (sub_end s).
Proof.
  unfold DomOn.in_range, Js.geb, Js.leb. rewrite andb_true_iff, !Qle_bool_iff. tauto.
Qed.

Lemma update_element_on_subtitle (a : Q) (e : CaptionElement) :
  el_subtitle (DomOn.update_element A a e) = el_subtitle e.
Proof.
  unfold DomOn.update_element. destruct (DomOn.in_range A a (el_subtitle e)); reflexivity.
Qed.

Lemma update_element_on_display (a : Q) (e : CaptionElement) :
  el_display (DomOn.update_element A a e) = DomOn.in_range A a (el_subtitle e).
Proof.
  unfold DomOn.update_element. destruct (DomOn.in_range A a (el_subtitle e)); reflexivity.
Qed.

Lemma displayed_on_iff (page : list CaptionElement) (t : Q) (s : CaptionExportSubtitle) :
  In s (displayed (DomOn.updateCaptions A t page))
  <-> In s (map el_subtitle page)
      /\ number A (sub_start s) <= DomOn.adjustedTime A t
      /\ DomOn.adjustedTime A t <= number A (sub_end s).
Proof.
  unfold displayed, DomOn.updateCaptions. rewrite !in_map_iff. split.
  - intros [e' [<- He']]. apply filter_In in He'. destruct He' as [He' Hd].
    apply in_map_iff in He'. destruct He' as [e [<- He]].
    rewrite update_element_on_display in Hd. rewrite update_element_on_subtitle.
    apply in_range_on_iff in Hd. split; [exists e; auto | exact Hd].
  - intros [[e [<- He]] Hr].
    exists (DomOn.update_element A (DomOn.adjustedTime A t) e).
    split; [apply update_element_on_subtitle|].
    apply filter_In. split; [apply in_map; assumption|].
    rewrite update_element_on_display. apply in_range_on_iff. exact Hr.
Qed.

End Page.

(** C10, as stated, fails.  At frame 3 of a render at 30 frames a second
    ([currentTime = 0.1]) the page does not show a caption over
    [[0, 0.15]]: the buffered time it computes is [0.15000000000000002]. *)
Lemma C10_counterexample :
  ~ (forall (page : list CaptionElement) (t : Q) (s : CaptionExportSubtitle),
        In s (displayed (DomOn.updateCaptions binary64 t page))
        <-> In s (map el_subtitle page)
            /\ sub_start s <= t + 0.05 /\ t + 0.05 <= sub_end s).
Proof.
  intros H.
  specialize (H (map build Samples.meeting_captions) 0.1
                (nth 0 Samples.meeting_captions (mkSubtitle "" "" 0 0 None))).
  destruct H as [_ H].
  assert (Hin : In (nth 0 Samples.meeting_captions (mkSubtitle "" "" 0 0 None))
                   (displayed (DomOn.updateCaptions binary64 0.1
                                 (map build Samples.meeting_captions)))).
  { apply H. split; [left; reflexivity|]. vm_compute. split; discriminate. }
  vm_compute in Hin. destruct Hin as [Hin|[]]. discriminate.
Qed.

(** C10, amended.  Whatever the arithmetic, after [updateCaptions(t)] the
    page shows exactly the captions with [start <= a <= end], where [a] is
    the buffered time as the page computes it; the scores of
    [getVisibleSubtitles] play no part.  So two captions that share a
    boundary are both shown at a frame whose computed buffered time is
    that boundary: at frame 6 of a render at 30 frames a second
    ([a = 0.25]) the page shows both captions that [normalizeSegments]
    made of two segments overlapping at [0.25].  At frame 3 the computed
    buffered time is not [0.15]: of two captions that meet at [0.15] the
    page shows the second only. *)
Theorem C10_dom_shows_closed_interval :
  (forall (A : Arith) (page : list CaptionElement) (t : Q) (s : CaptionExportSubtitle),
      In s (displayed (DomOn.updateCaptions A t page))
      <-> In s (map el_subtitle page)
          /\ number A (sub_start s) <= DomOn.adjustedTime A t
          /\ DomOn.adjustedTime A t <= number A (sub_end s))
  /\ (forall (A : Arith) (page : list CaptionElement) (t : Q)
             (a b : CaptionExportSubtitle),
         In a (map el_subtitle page) -> In b (map el_subtitle page) ->
         number A (sub_start a) <= number A (sub_end a) ->
         number A (sub_start b) <= number A (sub_end b) ->
         number A (sub_end a) == number A (sub_start b) ->
         DomOn.adjustedTime A t == number A (sub_end a) ->
         In a (displayed (DomOn.updateCaptions A t page))
         /\ In b (displayed (DomOn.updateCaptions A t page)))
  /\ (map (fun s => (sub_text s, sub_start s, sub_end s)) Samples.quarter_captions
      = [("A"%string, 0.00, 0.25); ("B"%string, 0.25, 2.00)]
      /\ DomOn.adjustedTime binary64 (Frames.overlay_time 30 6) == 0.25
      /\ displayed (DomOn.updateCaptions binary64 (Frames.overlay_time 30 6)
                      (map build Samples.quarter_captions))
         = Samples.quarter_captions
      /\ List.length (VisibilityOn.getVisibleSubtitles binary64 Samples.quarter_captions
                        (Frames.overlay_time 30 6)) = 1%nat)
  /\ (map (fun s => (sub_text s, sub_start s, sub_end s)) Samples.meeting_captions
      = [("A"%string, 0.00, 0.15); ("B"%string, 0.15, 2.00)]
      /\ number binary64 0.15 < DomOn.adjustedTime binary64 (Frames.overlay_time 30 3)
      /\ map sub_text (displayed (DomOn.updateCaptions binary64 (Frames.overlay_time 30 3)
                                    (map build Samples.meeting_captions)))
         = ["B"%string]).
Proof.
  split; [exact displayed_on_iff|]. split; [|split].
  - intros A page t a b Ha Hb Hsa Hsb Hab Ht.
    split; apply displayed_on_iff; (split; [assumption|]); lra.
  - repeat split; vm_compute; reflexivity.
  - repeat split; vm_compute; reflexivity.
Qed.

Lemma C10_dom_shows_closed_interval_witness :
  In (nth 0 Samples.quarter_captions (mkSubtitle "" "" 0 0 None))
     (displayed (DomOn.updateCaptions binary64 (Frames.overlay_time 30 6)
                   (map build Samples.quarter_captions)))
  /\ In (nth 1 Samples.quarter_captions (mkSubtitle "" "" 0 0 None))
        (displayed (DomOn.updateCaptions binary64 (Frames.overlay_time 30 6)
                      (map build Samples.quarter_captions))).
Proof.
  apply (proj1 (proj2 C10_dom_shows_closed_interval) binary64).
  - vm_compute. left. reflexivity.
  - vm_compute. right. left. reflexivity.
  - vm_compute. discriminate.
  - vm_compute. discriminate.
  - vm_compute. reflexivity.
  - vm_compute. reflexivity.
Defined.

End PageOnFacts.

(** ** Rounding to hundredths *)

Section Rounding.

Lemma Qfloor_shift (x : Q) (n : Z) : Qfloor (x + inject_Z n) = (Qfloor x + n)%Z.
Proof.
  pose proof (Qfloor_le x) as Hlo. pose proof (Qlt_floor x) as Hhi.
  pose proof (Qfloor_le (x + inject_Z n)) as Hlo'.
  pose proof (Qlt_floor (x + inject_Z n)) as Hhi'.
  rewrite inject_Z_plus in Hhi, Hhi'.
  assert (H1 : inject_Z (Qfloor (x + inject_Z n)) < inject_Z (Qfloor x + n + 1)).
  { rewrite !inject_Z_plus. lra. }
  assert (H2 : inject_Z (Qfloor x + n) < inject_Z (Qfloor (x + inject_Z n) + 1)).
  { rewrite !inject_Z_plus. lra. }
  rewrite <- Zlt_Qlt in H1, H2. lia.
Qed.

Lemma round_le (x y : Q) : x <= y -> (Js.round x <= Js.round y)%Z.
Proof. intros H. unfold Js.round. apply Qfloor_resp_le. lra. Qed.

Lemma round_comp (x y : Q) : x == y -> Js.round x = Js.round y.
Proof. intros H. unfold Js.round. apply Qfloor_comp. rewrite H. reflexivity. Qed.

Lemma roundTo_comp (x y : Q) : x == y -> roundTo x = roundTo y.
Proof.
  intros H. unfold roundTo. f_equal. apply round_comp. rewrite H. reflexivity.
Qed.

Lemma roundTo_le (x y : Q) : x <= y -> roundTo x <= roundTo y.
Proof.
  intros H. unfold roundTo, Qle. cbn [Qnum Qden].
  apply Z.mul_le_mono_nonneg_r; [lia|]. apply round_le. lra.
Qed.

Lemma roundTo_value (x : Q) : roundTo x == inject_Z (Js.round (x * 100)) / 100.
Proof. unfold roundTo. rewrite (Qmake_Qdiv _ 100). reflexivity. Qed.

(** Rounding commutes with adding a whole number of hundredths. *)
Lemma roundTo_shift (x : Q) (n : Z) : roundTo (x + (n # 100)) == roundTo x + (n # 100).
Proof.
  unfold roundTo.
  assert (H : Js.round ((x + (n # 100)) * 100) = (Js.round (x * 100) + n)%Z).
  { unfold Js.round. rewrite <- Qfloor_shift. apply Qfloor_comp.
    rewrite (Qmake_Qdiv n 100). unfold inject_Z at 2. field. }
  rewrite H. unfold Qeq, Qplus. cbn [Qnum Qden]. lia.
Qed.

Lemma roundTo_gap (s e : Q) (n : Z) :
  s + (n # 100) <= e -> roundTo s + (n # 100) <= roundTo e.
Proof.
  intros H. rewrite <- roundTo_shift. apply roundTo_le. exact H.
Qed.

(** A number of hundredths is its own rounding. *)
Lemma roundTo_hundredths (z : Z) : roundTo (z # 100) = z # 100.
Proof.
  unfold roundTo. f_equal. unfold Js.round.
  assert (H : (z # 100) * 100 + (1 # 2) == inject_Z z + (1 # 2)).
  { rewrite (Qmake_Qdiv z 100). field. }
  rewrite (Qfloor_comp _ _ H).
  rewrite Qplus_comm.
  replace (Qfloor ((1 # 2) + inject_Z z)) with (Qfloor (1 # 2) + z)%Z
    by (symmetry; apply Qfloor_shift).
  reflexivity.
Qed.

Lemma roundTo_idem (x : Q) : roundTo (roundTo x) = roundTo x.
Proof. unfold roundTo at 2 3. apply roundTo_hundredths. Qed.

End Rounding.

(** ** The sweep of [normalizeSegments] *)

Module SweepFacts.
Import Transcription.


Section Step.
Variables (duration : option Q) (cursor : Q) (segment : FSegment)
          (next : option FSegment).

Lemma sweep_bounds_ordered :
  fst (sweep_bounds duration cursor segment next)
  <= snd (sweep_bounds duration cursor segment next).
Proof.
  unfold sweep_bounds, MIN_SEGMENT_DURATION.
  destruct duration as [d|], next as [n|]; qsolve.
Qed.

Lemma sweep_bounds_within :
  within duration (snd (sweep_bounds duration cursor segment next)).
Proof.
  intros d ->. unfold sweep_bounds, MIN_SEGMENT_DURATION.
  destruct next as [n|]; qsolve.
Qed.

Lemma sweep_bounds_after_cursor :
  within duration cursor ->
  cursor <= fst (sweep_bounds duration cursor segment next).
Proof.
  intros Hw. unfold sweep_bounds, MIN_SEGMENT_DURATION.
  destruct duration as [d|].
  - specialize (Hw d eq_refl). destruct next as [n|]; qsolve.
  - destruct next as [n|]; qsolve.
Qed.


End Step.

Lemma sweep_cons (duration : option Q) (cursor : Q) (segment : FSegment)
  (rest : list FSegment) :
  sweep duration cursor (segment :: rest)
  = (let b := sweep_bounds duration cursor segment (hd_error rest) in
     {| fs_text := fs_text segment;
        fs_start := roundTo (fst b);
        fs_end := roundTo (snd b);
        fs_words := option_map (boundedWords (fst b) (snd b)) (fs_words segment) |}
     :: sweep duration (snd b) rest).
Proof.
  cbn [sweep]. destruct (sweep_bounds duration cursor segment (hd_error rest)).
  reflexivity.
Qed.

Lemma sweep_length (duration : option Q) (l : list FSegment) (cursor : Q) :
  List.length (sweep duration cursor l) = List.length l.
Proof.
  revert cursor. induction l as [|s l IH]; intros cursor; [reflexivity|].
  rewrite sweep_cons. cbn [List.length]. f_equal. apply IH.
Qed.

Lemma sweep_sorted_from (duration : option Q) (l : list FSegment) (cursor : Q) :
  within duration cursor ->
  Sorted before (sweep duration cursor l)
  /\ forall a, hd_error (sweep duration cursor l) = Some a ->
               roundTo cursor <= fs_start a /\ fs_start a <= fs_end a.
Proof.
  revert cursor. induction l as [|s l IH]; intros cursor Hw.
  - split; [constructor | discriminate].
  - rewrite sweep_cons. cbv zeta.
    set (b := sweep_bounds duration cursor s (hd_error l)).
    pose proof (sweep_bounds_ordered duration cursor s (hd_error l)) as Hord.
    pose proof (sweep_bounds_within duration cursor s (hd_error l)) as Hin.
    pose proof (sweep_bounds_after_cursor duration cursor s (hd_error l) Hw) as Hc.
    fold b in Hord, Hin, Hc.
    destruct (IH (snd b) Hin) as [Hs Hh].
    split.
    + constructor; [exact Hs|].
      destruct (sweep duration (snd b) l) as [|a tl]; constructor.
      destruct (Hh a eq_refl) as [Ha _]. unfold before. cbn [fs_start fs_end].
      split; [exact Ha|].
      apply Qle_trans with (roundTo (snd b)); [apply roundTo_le; exact Hord | exact Ha].
    + intros a [= <-]. cbn [fs_start fs_end].
      split; apply roundTo_le; assumption.
Qed.

Lemma sweep_sorted (duration : option Q) (l : list FSegment) (cursor : Q) :
  Sorted before (sweep duration cursor l).
Proof.
  destruct l as [|s l]; [constructor|].
  rewrite sweep_cons. cbv zeta.
  set (b := sweep_bounds duration cursor s (hd_error l)).
  pose proof (sweep_bounds_ordered duration cursor s (hd_error l)) as Hord.
  pose proof (sweep_bounds_within duration cursor s (hd_error l)) as Hin.
  fold b in Hord, Hin.
  destruct (sweep_sorted_from duration l (snd b) Hin) as [Hs Hh].
  constructor; [exact Hs|].
  destruct (sweep duration (snd b) l) as [|a tl]; constructor.
  destruct (Hh a eq_refl) as [Ha _]. unfold before. cbn [fs_start fs_end].
  split; [exact Ha|].
  apply Qle_trans with (roundTo (snd b)); [apply roundTo_le; exact Hord | exact Ha].
Qed.

Lemma Sorted_consecutive {A : Type} (R : A -> A -> Prop) (l : list A) :
  Sorted R l ->
  forall i a b, nth_error l i = Some a -> nth_error l (S i) = Some b -> R a b.
Proof.
  induction 1 as [|x l Hs IH Hh]; intros i a b Ha Hb.
  - destruct i; discriminate.
  - destruct i as [|i].
    + cbn in Ha, Hb. injection Ha as <-.
      destruct l as [|y l']; [discriminate|]. cbn in Hb. injection Hb as <-.
      inversion Hh; assumption.
    + cbn in Ha. exact (IH i a b Ha Hb).
Qed.

(** C5.  In the list [normalizeSegments] returns, with or without a total
    duration, each segment ends no later than the next one starts, and the
    starts do not decrease. *)
Theorem C5_normalizeSegments_ordered
  (segments : list Segment) (totalDuration : option Q) (i : nat) (a b : FSegment) :
  nth_error (normalizeSegments segments totalDuration) i = Some a ->
  nth_error (normalizeSegments segments totalDuration) (S i) = Some b ->
  fs_end a <= fs_start b /\ fs_start a <= fs_start b.
Proof.
  intros Ha Hb.
  exact (Sorted_consecutive before _ (sweep_sorted _ _ _) i a b Ha Hb).
Qed.

Lemma C5_normalizeSegments_ordered_witness :
  fs_end (mkFSegment "A" 0.00 0.50 None) <= fs_start (mkFSegment "B" 0.50 2.00 None)
  /\ fs_start (mkFSegment "A" 0.00 0.50 None) <= fs_start (mkFSegment "B" 0.50 2.00 None).
Proof.
  apply (C5_normalizeSegments_ordered Samples.overlapping_segments None 0);
    vm_compute; reflexivity.
Defined.

Lemma sweep_start_at_cursor (cursor : Q) (n : FSegment) (next : option FSegment) :
  cursor = fs_start n ->
  fst (sweep_bounds None cursor n next) = fs_start n.
Proof.
  intros ->. unfold sweep_bounds. destruct next as [m|]; qcases; reflexivity.
Qed.





(** C7.  The three words "hi", "there", "friend" give two groups,
    "hi there" over [[0, 0.6]] and "friend" over [[1.1, 1.4]].  The average
    gap is 0.26 s, so the threshold is the slow one, 0.2 s: the gap of
    0.02 s is not above it, the gap of 0.5 s is above twice it.
    [normalizeSegments] returns the two segments as they are. *)
Theorem C7_hi_there_friend :
  map (fun g => (g_text g, g_start g, g_end g))
      (groupWordsByTiming Samples.hi_there_friend)
  = [("hi there"%string, 0.00, 0.60); ("friend"%string, 1.10, 1.40)]
  /\ map (fun g => map fw_word (g_words g)) (groupWordsByTiming Samples.hi_there_friend)
     = [["hi"; "there"]; ["friend"]]%string
  /\ (avgGap Samples.hi_there_friend == 0.26
      /\ timingThreshold Samples.hi_there_friend = SLOW_SPEECH_THRESHOLD)
  /\ (let threshold := timingThreshold Samples.hi_there_friend in
      let hi := nth 0 Samples.hi_there_friend (mkWord "" None None) in
      let there := nth 1 Samples.hi_there_friend (mkWord "" None None) in
      let friend := nth 2 Samples.hi_there_friend (mkWord "" None None) in
      gap_gt (raw_gap hi there) threshold = false
      /\ gap_gt (raw_gap there friend) (threshold * 2) = true)
  /\ map (fun s => (fs_text s, fs_start s, fs_end s))
         (normalizeSegments
            (map segment_of_group (groupWordsByTiming Samples.hi_there_friend)) None)
     = [("hi there"%string, 0.00, 0.60); ("friend"%string, 1.10, 1.40)].
Proof.
  repeat split; vm_compute; reflexivity.
Qed.

End SweepFacts.

(** ** [getVisibleSubtitles] returns the best candidate *)

Module VisibilityFacts.
Import Visibility.

Lemma outranks_refl (a : Candidate) : outranks a a.
Proof. right. split; [reflexivity | lia]. Qed.

Lemma outranks_trans (a b c : Candidate) : outranks a b -> outranks b c -> outranks a c.
Proof.
  unfold outranks. intros [[H1 H2]|[H1 H2]] [[H3 H4]|[H3 H4]].
  - congruence.
  - left. split; congruence.
  - left. split; congruence.
  - right. split; [congruence | lia].
Qed.

Lemma compare_nonpos (a b : Candidate) :
  (compare_candidates a b <= 0)%Z -> outranks a b.
Proof.
  unfold compare_candidates, outranks.
  destruct (hasActiveWord a), (hasActiveWord b); cbn; intros H; try lia; auto.
  - destruct (Z.eqb_spec (score a) (score b)); cbn in H; right; split; auto; lia.
  - destruct (Z.eqb_spec (score a) (score b)); cbn in H; right; split; auto; lia.
Qed.

Lemma compare_pos (a b : Candidate) :
  (0 < compare_candidates a b)%Z -> outranks b a.
Proof.
  unfold compare_candidates, outranks.
  destruct (hasActiveWord a), (hasActiveWord b); cbn; intros H; try lia; auto.
  - destruct (Z.eqb_spec (score a) (score b)); cbn in H; right; split; auto; lia.
  - destruct (Z.eqb_spec (score a) (score b)); cbn in H; right; split; auto; lia.
Qed.

Section Sorting.
Context {A : Type} (cmp : A -> A -> Z).

Lemma insert_sorted_in (x a : A) (l : list A) :
  In a (insert_sorted cmp x l) <-> a = x \/ In a l.
Proof.
  induction l as [|y l IH]; cbn [insert_sorted].
  - cbn. intuition.
  - destruct (cmp x y <=? 0)%Z; cbn [In]; [intuition|].
    rewrite IH. intuition.
Qed.

Lemma stable_sort_in (a : A) (l : list A) : In a (stable_sort cmp l) <-> In a l.
Proof.
  induction l as [|x l IH]; [reflexivity|].
  unfold stable_sort in *. cbn [fold_right In].
  rewrite insert_sorted_in, IH. intuition.
Qed.

Lemma stable_sort_nil (l : list A) : stable_sort cmp l = [] -> l = [].
Proof.
  destruct l as [|x l]; [reflexivity|]. intros H. exfalso.
  assert (Hin : In x (stable_sort cmp (x :: l))) by (apply stable_sort_in; left; reflexivity).
  rewrite H in Hin. exact Hin.
Qed.

End Sorting.

Lemma sorted_head_outranks (l : list Candidate) (h : Candidate) :
  hd_error (stable_sort compare_candidates l) = Some h ->
  forall c, In c l -> outranks h c.
Proof.
  revert h. induction l as [|x l IH]; intros h Hh c Hc; [destruct Hc|].
  unfold stable_sort in *. cbn [fold_right] in Hh.
  destruct (fold_right (insert_sorted compare_candidates) [] l) as [|y sl] eqn:E.
  - apply (stable_sort_nil compare_candidates) in E. subst l.
    cbn in Hh. injection Hh as <-. destruct Hc as [<-|[]]. apply outranks_refl.
  - cbn [insert_sorted] in Hh. specialize (IH y eq_refl).
    destruct (Z.leb_spec (compare_candidates x y) 0) as [Hle|Hgt];
      cbn [hd_error] in Hh; injection Hh as <-.
    + destruct Hc as [<-|Hc]; [apply outranks_refl|].
      apply outranks_trans with y; [apply compare_nonpos; exact Hle | exact (IH c Hc)].
    + destruct Hc as [<-|Hc]; [apply compare_pos; exact Hgt | exact (IH c Hc)].
Qed.

(** *** The accumulator of the word loop *)

Lemma ext_min_starts_by_new (e : ext) (x : Q) : starts_by (ext_min e x) x.
Proof. destruct e; cbn; qunfold; try qcase; qprop; lra. Qed.

Lemma ext_min_starts_by_old (e : ext) (x y : Q) :
  starts_by e y -> starts_by (ext_min e x) y.
Proof. destruct e; cbn; qunfold; try qcase; qprop; intros; try lra; tauto. Qed.

Lemma ext_max_ends_from_new (e : ext) (x : Q) : ends_from (ext_max e x) x.
Proof. destruct e; cbn; qunfold; try qcase; qprop; lra. Qed.

Lemma ext_max_ends_from_old (e : ext) (x y : Q) :
  ends_from e y -> ends_from (ext_max e x) y.
Proof. destruct e; cbn; qunfold; try qcase; qprop; intros; try lra; tauto. Qed.

Section WordLoop.
Variable adjustedTime : Q.

Lemma word_step_active (acc : Acc) (w : CaptionExportWord) :
  a_active (word_step adjustedTime acc w) = a_active acc || isActive adjustedTime w.
Proof.
  unfold word_step. destruct (isActive adjustedTime w); cbn.
  - apply eq_sym, orb_true_r.
  - rewrite orb_false_r.
    repeat match goal with |- context [if ?b then _ else _] => destruct b end; reflexivity.
Qed.

Lemma word_step_score (acc : Acc) (w : CaptionExportWord) :
  (a_score acc <= a_score (word_step adjustedTime acc w))%Z
  /\ (isActive adjustedTime w = true ->
      (a_score acc + 10 <= a_score (word_step adjustedTime acc w))%Z).
Proof.
  unfold word_step. destruct (isActive adjustedTime w); cbn.
  - split; intros; lia.
  - split; [|discriminate].
    repeat match goal with |- context [if ?b then _ else _] => destruct b end; cbn; lia.
Qed.

Lemma word_step_earliest (acc : Acc) (w : CaptionExportWord) :
  a_earliest (word_step adjustedTime acc w) = ext_min (a_earliest acc) (cw_start w).
Proof.
  unfold word_step. cbn [a_earliest]. f_equal.
  repeat match goal with |- context [if ?b then _ else _] => destruct b end; reflexivity.
Qed.

Lemma word_step_latest (acc : Acc) (w : CaptionExportWord) :
  a_latest (word_step adjustedTime acc w) = ext_max (a_latest acc) (cw_end w).
Proof.
  unfold word_step. cbn [a_latest]. f_equal.
  repeat match goal with |- context [if ?b then _ else _] => destruct b end; reflexivity.
Qed.

Lemma loop_active (ws : list CaptionExportWord) (acc : Acc) :
  a_active (fold_left (word_step adjustedTime) ws acc)
  = a_active acc || existsb (isActive adjustedTime) ws.
Proof.
  revert acc. induction ws as [|w ws IH]; intros acc; cbn [fold_left existsb].
  - symmetry. apply orb_false_r.
  - rewrite IH, word_step_active. symmetry. apply orb_assoc.
Qed.

Lemma loop_score_mono (ws : list CaptionExportWord) (acc : Acc) :
  (a_score acc <= a_score (fold_left (word_step adjustedTime) ws acc))%Z.
Proof.
  revert acc. induction ws as [|w ws IH]; intros acc; cbn [fold_left]; [lia|].
  specialize (IH (word_step adjustedTime acc w)).
  pose proof (word_step_score acc w) as [H _]. lia.
Qed.

Lemma loop_bounds_kept (ws : list CaptionExportWord) (acc : Acc) (x y : Q) :
  starts_by (a_earliest acc) x -> ends_from (a_latest acc) y ->
  starts_by (a_earliest (fold_left (word_step adjustedTime) ws acc)) x
  /\ ends_from (a_latest (fold_left (word_step adjustedTime) ws acc)) y.
Proof.
  revert acc. induction ws as [|w ws IH]; intros acc Hx Hy; cbn [fold_left]; [tauto|].
  apply IH.
  - rewrite word_step_earliest. apply ext_min_starts_by_old. exact Hx.
  - rewrite word_step_latest. apply ext_max_ends_from_old. exact Hy.
Qed.

(** A loop over words one of which is active: at least 10 points, and the
    span of the words holds that word. *)
Lemma loop_with_active_word (ws : list CaptionExportWord) (acc : Acc) :
  existsb (isActive adjustedTime) ws = true ->
  exists w, In w ws /\ isActive adjustedTime w = true
    /\ (a_score acc + 10 <= a_score (fold_left (word_step adjustedTime) ws acc))%Z
    /\ starts_by (a_earliest (fold_left (word_step adjustedTime) ws acc)) (cw_start w)
    /\ ends_from (a_latest (fold_left (word_step adjustedTime) ws acc)) (cw_end w).
Proof.
  revert acc. induction ws as [|w ws IH]; intros acc H; [discriminate|].
  cbn [existsb fold_left] in *.
  destruct (isActive adjustedTime w) eqn:Ew.
  - exists w. split; [left; reflexivity|]. split; [exact Ew|].
    pose proof (word_step_score acc w) as [_ Hs]. specialize (Hs Ew).
    pose proof (loop_score_mono ws (word_step adjustedTime acc w)).
    split; [lia|].
    apply loop_bounds_kept.
    + rewrite word_step_earliest. apply ext_min_starts_by_new.
    + rewrite word_step_latest. apply ext_max_ends_from_new.
  - cbn [orb] in H. destruct (IH (word_step adjustedTime acc w) H)
      as (w' & Hin & Hact & Hsc & Hlo & Hhi).
    exists w'. split; [right; exact Hin|]. split; [exact Hact|].
    pose proof (word_step_score acc w) as [Hs _].
    split; [lia|]. split; assumption.
Qed.

Lemma within_range_of_active (w : CaptionExportWord) (earliest latest : ext) :
  isActive adjustedTime w = true ->
  starts_by earliest (cw_start w) -> ends_from latest (cw_end w) ->
  within_range adjustedTime earliest latest = true.
Proof.
  unfold isActive, within_range, TIMING_BUFFER. intros Ha Hlo Hhi.
  apply andb_true_iff in Ha. destruct Ha as [H1 H2]. qunfold. qprop.
  apply andb_true_iff. split.
  - destruct earliest; cbn in Hlo; [reflexivity | | contradiction].
    apply Qle_bool_true_intro. lra.
  - destruct latest; cbn in Hhi; [contradiction | | reflexivity].
    apply Qle_bool_true_intro. lra.
Qed.

(** A caption with an active word scores at least 110 and is flagged. *)
Lemma active_word_candidate (sub : CaptionExportSubtitle) :
  has_active_word adjustedTime sub = true ->
  hasActiveWord (score_subtitle adjustedTime sub) = true
  /\ (110 <= score (score_subtitle adjustedTime sub))%Z.
Proof.
  unfold has_active_word, score_subtitle.
  destruct (sub_words sub) as [[|w ws]|]; try discriminate. intros H.
  destruct (loop_with_active_word (w :: ws) acc0 H) as (w' & _ & Hact & Hsc & Hlo & Hhi).
  pose proof (loop_active (w :: ws) acc0) as Hflag. rewrite H in Hflag.
  cbn [a_active acc0 orb] in Hflag. cbn [a_score acc0] in Hsc.
  cbn [hasActiveWord score]. split; [exact Hflag|].
  rewrite (within_range_of_active w' _ _ Hact Hlo Hhi). cbn [negb].
  rewrite Hflag.
  destruct (recently_started adjustedTime _); lia.
Qed.

(** A flagged candidate above 50 points has an active word. *)
Lemma high_score_has_active_word (sub : CaptionExportSubtitle) :
  hasActiveWord (score_subtitle adjustedTime sub) = true ->
  (50 < score (score_subtitle adjustedTime sub))%Z ->
  has_active_word adjustedTime sub = true.
Proof.
  unfold has_active_word, score_subtitle.
  destruct (sub_words sub) as [[|w ws]|].
  - destruct (_ && _); [cbn; lia|]. destruct (_ && _); cbn; lia.
  - cbn [hasActiveWord score]. intros Hflag _.
    rewrite loop_active in Hflag. exact Hflag.
  - destruct (_ && _); [cbn; lia|]. destruct (_ && _); cbn; lia.
Qed.

End WordLoop.

Lemma subtitle_of_score (adjustedTime : Q) (sub : CaptionExportSubtitle) :
  subtitle (score_subtitle adjustedTime sub) = sub.
Proof.
  unfold score_subtitle.
  destruct (sub_words sub) as [[|w ws]|]; try reflexivity;
    destruct (_ && _); try reflexivity; destruct (_ && _); reflexivity.
Qed.

End VisibilityFacts.

(** ** Progress updates of the [/render] route *)

Module ProgressFacts.
Import Progress.

(** *** The route's own calls are in order *)

Lemma sorted_snoc (l : list Q) (x : Q) :
  Sorted Qle l -> Forall (fun y => y <= x) l -> Sorted Qle (l ++ [x]).
Proof.
  induction 1 as [|y l Hs IH Hh]; intros Hall; cbn [app].
  - repeat constructor.
  - inversion Hall as [|? ? Hy Hl]; subst.
    constructor; [exact (IH Hl)|].
    destruct l as [|z l']; cbn [app]; constructor; [exact Hy|].
    inversion Hh; assumption.
Qed.

Lemma mono_below_snoc (lo : Q) (l : list Update) (u : Update) :
  mono_below lo l -> lo <= progress (snd u) ->
  mono_below (progress (snd u)) (l ++ [u]).
Proof.
  intros [Hs Hall] Hlo. split.
  - rewrite map_app. cbn [map]. apply sorted_snoc; [exact Hs|].
    apply Forall_map. eapply Forall_impl; [|exact Hall].
    cbn. intros a Ha. lra.
  - apply Forall_app. split.
    + eapply Forall_impl; [|exact Hall]. cbn. intros a Ha. lra.
    + constructor; [lra | constructor].
Qed.

Lemma mono_below_weaken (lo hi : Q) (l : list Update) :
  mono_below lo l -> lo <= hi -> mono_below hi l.
Proof.
  intros [Hs Hall] Hle. split; [exact Hs|].
  eapply Forall_impl; [|exact Hall]. cbn. intros a Ha. lra.
Qed.

Lemma log_ok_weaken (id : string) (lo hi : Q) (w : World) :
  log_ok id lo w -> lo <= hi -> log_ok id hi w.
Proof.
  intros (Hm & Hid & Hp) Hle. split; [|split; assumption].
  exact (mono_below_weaken lo hi _ Hm Hle).
Qed.

Lemma log_ok_publish (id : string) (lo hi : Q) (w : World) (u : Update) :
  log_ok id lo w -> fst u = id -> lo <= progress (snd u) -> progress (snd u) <= hi ->
  log_ok id hi (setProgress u w).
Proof.
  intros (Hm & Hid & Hp) Hu Hlo Hhi. unfold log_ok, setProgress. cbn [published pending].
  split; [|split].
  - apply mono_below_weaken with (progress (snd u)); [|exact Hhi].
    apply mono_below_snoc with lo; assumption.
  - apply Forall_app. split; [exact Hid | constructor; [exact Hu | constructor]].
  - exact Hp.
Qed.

Lemma min_one_le (r : ratio) (p : Q) : min_one r = Some p -> p <= 1.
Proof.
  destruct r as [| |q]; cbn; intros [= <-]; [lra|]. qsolve.
Qed.

Lemma floor_lower (x : Q) : inject_Z (Qfloor x) <= x.
Proof. apply Qfloor_le. Qed.

Lemma floor_upper (x : Q) : x < inject_Z (Qfloor x) + 1.
Proof.
  pose proof (Qlt_floor x) as H. rewrite inject_Z_plus in H. exact H.
Qed.

Lemma Zle_Q (a b : Z) : (a <= b)%Z -> inject_Z a <= inject_Z b.
Proof. intros H. rewrite <- Zle_Qle. exact H. Qed.

Lemma scale_le (x y scale : Q) : 0 <= scale -> x <= y -> x * scale <= y * scale.
Proof. intros Hs Hxy. apply Qmult_le_compat_r; assumption. Qed.

Section Band.
Variables (id : string) (base scale : Q) (cb : Q -> Update).
Hypothesis scale_nonneg : 0 <= scale.
Hypothesis cb_id : forall p, fst (cb p) = id.
Hypothesis cb_value : forall p, progress (snd (cb p)) == base + p * scale.

Lemma publish_cb_ok (b p : Q) (w : World) :
  log_ok id b w -> b <= base + p * scale ->
  log_ok id (progress (snd (cb p))) (setProgress (cb p) w).
Proof.
  intros Hw Hb. apply log_ok_publish with b; [exact Hw | apply cb_id | | apply Qle_refl].
  rewrite cb_value. exact Hb.
Qed.

(** The reports of [extractVideoFrames] stay in order. *)
Lemma extract_reports_ok (total : nat) (frames : list nat) :
  forall (L : Z) (b : Q) (w : World),
    log_ok id b w ->
    b <= base + ((inject_Z L + 1) * 0.01) * scale -> b <= base + scale ->
    log_ok id (base + scale) (fst (extract_reports total frames L cb w))
    /\ snd (extract_reports total frames L cb w) = inl tt.
Proof.
  induction frames as [|currentFrame rest IH]; intros L b w Hw HL Hb;
    cbn [extract_reports].
  - split; [exact (log_ok_weaken id b _ w Hw Hb) | reflexivity].
  - destruct (min_one (frame_ratio currentFrame total)) as [p|] eqn:Ep;
      [|exact (IH L b w Hw HL Hb)].
    pose proof (min_one_le _ _ Ep) as Hp1.
    destruct ((L <? Qfloor (p * 100))%Z && (Qfloor (p * 100) mod 5 =? 0)%Z) eqn:Ec;
      [|exact (IH L b w Hw HL Hb)].
    apply andb_true_iff in Ec. destruct Ec as [Ec _]. apply Z.ltb_lt in Ec.
    unfold bind, publish. cbn [fst snd].
    pose proof (floor_lower (p * 100)) as Hlo.
    pose proof (floor_upper (p * 100)) as Hhi.
    assert (HLp : inject_Z L + 1 <= inject_Z (Qfloor (p * 100))).
    { pose proof (Zle_Q (L + 1) (Qfloor (p * 100)) ltac:(lia)) as H.
      rewrite inject_Z_plus in H. exact H. }
    assert (Hx : (inject_Z L + 1) * 0.01 <= p) by lra.
    pose proof (scale_le _ _ scale scale_nonneg Hx) as Hx'.
    assert (Hy : p <= (inject_Z (Qfloor (p * 100)) + 1) * 0.01) by lra.
    pose proof (scale_le _ _ scale scale_nonneg Hy) as Hy'.
    pose proof (scale_le _ _ scale scale_nonneg Hp1) as Hp1'.
    apply IH with (b := progress (snd (cb p))).
    + apply publish_cb_ok with b; [exact Hw | lra].
    + rewrite cb_value. lra.
    + rewrite cb_value. lra.
Qed.

(** The reports of [composeFinalVideo] stay in order. *)
Lemma compose_reports_ok (total : nat) (frames : list nat) :
  forall (L : option Z) (b : Q) (w : World),
    log_ok id b w ->
    (forall l, L = Some l -> b <= base + ((inject_Z l + 5) * 0.01) * scale) ->
    b <= base + scale ->
    log_ok id (base + scale) (fst (compose_reports total frames L cb w))
    /\ snd (compose_reports total frames L cb w) = inl tt.
Proof.
  induction frames as [|currentFrame rest IH]; intros L b w Hw HL Hb;
    cbn [compose_reports].
  - split; [exact (log_ok_weaken id b _ w Hw Hb) | reflexivity].
  - cbv zeta.
    destruct (frame_ratio currentFrame total) as [| |q] eqn:Er;
      cbn [floor_percent min_one].
    + exact (IH L b w Hw HL Hb).
    + cbn [five_more orb]. unfold bind, publish. cbn [fst snd].
      apply IH with (b := progress (snd (cb 1))).
      * apply publish_cb_ok with b; [exact Hw | lra].
      * discriminate.
      * rewrite cb_value. lra.
    + destruct (five_more (Some (Qfloor (q * 100))) L || Js.geb (Js.min q 1) 1) eqn:Ec;
        [|exact (IH L b w Hw HL Hb)].
      unfold bind, publish. cbn [fst snd].
      pose proof (floor_lower (q * 100)) as Hlo.
      pose proof (floor_upper (q * 100)) as Hhi.
      assert (Hv1 : Js.min q 1 <= 1) by qsolve.
      assert (Hvq : Js.min q 1 <= q) by qsolve.
      pose proof (scale_le _ _ scale scale_nonneg Hv1) as Hv1'.
      assert (Hy : Js.min q 1 <= (inject_Z (Qfloor (q * 100)) + 5) * 0.01) by lra.
      pose proof (scale_le _ _ scale scale_nonneg Hy) as Hy'.
      apply IH with (b := progress (snd (cb (Js.min q 1)))).
      * apply publish_cb_ok with b; [exact Hw|].
        apply orb_true_iff in Ec. destruct Ec as [Ec|Ec].
        -- destruct L as [l|]; cbn [five_more] in Ec; [|discriminate].
           apply Z.leb_le in Ec. specialize (HL l eq_refl).
           assert (Hl : inject_Z l + 5 <= inject_Z (Qfloor (q * 100))).
           { pose proof (Zle_Q (l + 5) (Qfloor (q * 100)) Ec) as H.
             rewrite inject_Z_plus in H. exact H. }
           assert (Hq : (inject_Z l + 5) * 0.01 <= q) by lra.
           assert (Hm : (inject_Z l + 5) * 0.01 <= Js.min q 1 \/ 1 <= Js.min q 1)
             by (qunfold; qcase; qprop; [left | right]; lra).
           destruct Hm as [Hm|Hm];
             pose proof (scale_le _ _ scale scale_nonneg Hm) as Hm'; lra.
        -- unfold Js.geb in Ec. apply Qle_bool_iff in Ec.
           pose proof (scale_le _ _ scale scale_nonneg Ec) as Hm'. lra.
      * intros l Hl. replace l with (Qfloor (q * 100)) by congruence.
        rewrite cb_value. lra.
      * rewrite cb_value. lra.
Qed.

End Band.

(** [c / total] for frame counts. *)
Lemma frame_fraction_mono (a b total : nat) :
  (0 < total)%nat -> (a <= b)%nat ->
  inject_Z (Z.of_nat a) / inject_Z (Z.of_nat total)
  <= inject_Z (Z.of_nat b) / inject_Z (Z.of_nat total).
Proof.
  intros Ht Hab. unfold Qdiv. apply Qmult_le_compat_r.
  - apply Zle_Q. lia.
  - apply Qinv_le_0_compat. change 0 with (inject_Z 0). apply Zle_Q. lia.
Qed.

Lemma frame_fraction_le_1 (c total : nat) :
  (0 < total)%nat -> (c <= total)%nat ->
  inject_Z (Z.of_nat c) / inject_Z (Z.of_nat total) <= 1.
Proof.
  intros Ht Hc.
  apply Qle_trans with (inject_Z (Z.of_nat total) / inject_Z (Z.of_nat total)).
  - apply frame_fraction_mono; assumption.
  - unfold Qdiv. rewrite Qmult_inv_r; [apply Qle_refl|].
    intros H. unfold Qeq, inject_Z in H. cbn [Qnum Qden] in H. lia.
Qed.

Section Counter.
Variables (id : string) (base scale : Q) (cb : Q -> Update).
Hypothesis scale_nonneg : 0 <= scale.
Hypothesis cb_id : forall p, fst (cb p) = id.
Hypothesis cb_value : forall p, progress (snd (cb p)) == base + p * scale.

(** The reports of the overlay workers: in order, each at least the value
    for the next counter and at most [base + scale]. *)
Lemma counter_reports_ok (total n : nat) :
  (0 < total)%nat ->
  forall from, (from + n <= total)%nat ->
    Forall (fun u =>
              fst u = id
              /\ base + (inject_Z (Z.of_nat (S from)) / inject_Z (Z.of_nat total)) * scale
                 <= progress (snd u)
              /\ progress (snd u) <= base + scale)
           (counter_reports total from n cb)
    /\ Sorted Qle (map (fun u => progress (snd u)) (counter_reports total from n cb)).
Proof.
  intros Ht. induction n as [|n IH]; intros from Hn; cbn [counter_reports].
  - split; constructor.
  - cbv zeta. destruct (IH (S from) ltac:(lia)) as [Hall Hs].
    assert (Hweak :
      Forall (fun u =>
                fst u = id
                /\ base + (inject_Z (Z.of_nat (S from)) / inject_Z (Z.of_nat total)) * scale
                   <= progress (snd u)
                /\ progress (snd u) <= base + scale)
             (counter_reports total (S from) n cb)).
    { eapply Forall_impl; [|exact Hall]. cbn beta. intros u (H1 & H2 & H3).
      split; [exact H1|]. split; [|exact H3].
      pose proof (frame_fraction_mono (S from) (S (S from)) total Ht ltac:(lia)) as Hm.
      pose proof (scale_le _ _ scale scale_nonneg Hm). lra. }
    destruct (S from mod 10 =? 0)%nat; [|split; assumption].
    pose proof (frame_fraction_le_1 (S from) total Ht ltac:(lia)) as H1.
    pose proof (scale_le _ _ scale scale_nonneg H1) as H1'.
    split.
    + constructor; [|exact Hweak].
      split; [apply cb_id|]. rewrite cb_value. split; lra.
    + cbn [map]. constructor; [exact Hs|].
      destruct (counter_reports total (S from) n cb) as [|u l]; cbn [map]; constructor.
      pose proof (Forall_inv Hweak) as (_ & Hu & _).
      rewrite cb_value. exact Hu.
Qed.

Lemma publish_all_ok (hi : Q) (us : list Update) :
  forall (b : Q) (w : World),
    log_ok id b w -> b <= hi ->
    Sorted Qle (map (fun u => progress (snd u)) us) ->
    Forall (fun u => fst u = id /\ b <= progress (snd u) /\ progress (snd u) <= hi) us ->
    log_ok id hi (fst (publish_all us w)) /\ snd (publish_all us w) = inl tt.
Proof.
  induction us as [|u rest IH]; intros b w Hw Hb Hs Hall; cbn [publish_all].
  - split; [exact (log_ok_weaken id b hi w Hw Hb) | reflexivity].
  - unfold bind, publish. cbn [fst snd].
    pose proof (Forall_inv Hall) as (Hu1 & Hu2 & Hu3).
    pose proof (Forall_inv_tail Hall) as Hrest.
    cbn [map] in Hs. apply Sorted_StronglySorted in Hs; [|exact Qle_trans].
    apply StronglySorted_inv in Hs. destruct Hs as [Hss Hge].
    apply IH with (b := progress (snd u)).
    + apply log_ok_publish with b; [exact Hw | exact Hu1 | exact Hu2 | apply Qle_refl].
    + exact Hu3.
    + apply StronglySorted_Sorted. exact Hss.
    + rewrite Forall_map in Hge. rewrite Forall_forall in *.
      intros x Hx. destruct (Hrest x Hx) as (H1 & _ & H3).
      split; [exact H1|]. split; [exact (Hge x Hx) | exact H3].
Qed.

End Counter.

(** *** Rules for [keeps] *)

Lemma keeps_ret {A : Type} (id : string) (lo : Q) (a : A) : keeps id lo lo (ret a).
Proof. intros w Hw. exact Hw. Qed.

Lemma keeps_await (id : string) (lo : Q) (ok : bool) (msg : string) :
  keeps id lo lo (await ok msg).
Proof. intros w Hw. unfold await. destruct ok; exact Hw. Qed.

Lemma keeps_publish (id : string) (lo : Q) (u : Update) :
  fst u = id -> lo <= progress (snd u) -> keeps id lo (progress (snd u)) (publish u).
Proof.
  intros Hu Hlo w Hw. unfold publish. cbn [fst].
  apply log_ok_publish with lo; [exact Hw | exact Hu | exact Hlo | apply Qle_refl].
Qed.

Lemma keeps_bind {A B : Type} (id : string) (lo mid hi : Q) (m : M A) (k : A -> M B) :
  keeps id lo mid m -> (forall a, keeps id mid hi (k a)) -> mid <= hi ->
  keeps id lo hi (bind m k).
Proof.
  intros Hm Hk Hle w Hw. specialize (Hm w Hw). unfold bind.
  destruct (m w) as [w' [a|e]]; cbn [fst] in *.
  - exact (Hk a w' Hm).
  - exact (log_ok_weaken id mid hi w' Hm Hle).
Qed.

Lemma keeps_extract (env : Env) (id : string) :
  keeps id 5 (10 + 0.2) (extractVideoFrames env (onFrameExtractionProgress id)).
Proof.
  unfold extractVideoFrames.
  eapply keeps_bind; [apply keeps_await | intros _ | lra].
  eapply keeps_bind with (mid := 10 + 0.2); [ | intros _ | lra].
  - intros w Hw.
    assert (Hsc : 0 <= 0.2) by lra.
    assert (Hid : forall p, fst (onFrameExtractionProgress id p) = id) by reflexivity.
    assert (Hval : forall p,
               progress (snd (onFrameExtractionProgress id p)) == 10 + p * 0.2)
      by (intros p; apply Qeq_refl).
    destruct (extract_reports_ok id 10 0.2 _ Hsc Hid Hval (totalFrames env)
                (extract_frames env) 0%Z 5 w Hw) as [H _];
      [vm_compute; discriminate | lra | exact H].
  - eapply keeps_bind; [apply keeps_await | intros _ | lra].
    eapply keeps_bind with (mid := 10 + 0.2); [ | intros _; apply keeps_ret | lra].
    intros w Hw. unfold publish. cbn [fst].
    apply log_ok_publish with (10 + 0.2); [exact Hw | reflexivity | cbn; lra | cbn; lra].
Qed.

Lemma keeps_compose (env : Env) (id : string) (total : nat) :
  keeps id 70 (70 + 0.25) (composeFinalVideo env total (onCompositionProgress id)).
Proof.
  unfold composeFinalVideo.
  eapply keeps_bind with (mid := 70 + 0.25); [ | intros _ | lra].
  - intros w Hw.
    assert (Hsc : 0 <= 0.25) by lra.
    assert (Hid : forall p, fst (onCompositionProgress id p) = id) by reflexivity.
    assert (Hval : forall p,
               progress (snd (onCompositionProgress id p)) == 70 + p * 0.25)
      by (intros p; apply Qeq_refl).
    destruct (compose_reports_ok id 70 0.25 _ Hsc Hid Hval total
                (compose_frames env) (Some 0%Z) 70 w Hw) as [H _];
      [intros l [= <-]; vm_compute; discriminate | lra | exact H].
  - eapply keeps_bind; [apply keeps_await | intros _ | lra].
    intros w Hw. unfold publish. cbn [fst].
    apply log_ok_publish with (70 + 0.25); [exact Hw | reflexivity | cbn; lra | cbn; lra].
Qed.

Lemma worker_frames (total : nat) :
  List.length
    (List.concat (map Planner.frames_of (Planner.planChunks total Planner.CONCURRENCY)))
  = total.
Proof.
  rewrite PlannerFacts.planChunks_cover by (unfold Planner.CONCURRENCY; lia).
  apply length_seq.
Qed.

Lemma keeps_counter (id : string) (total done : nat) :
  (done <= total)%nat ->
  forall w, log_ok id 30 w ->
    log_ok id (30 + 0.4)
      (fst (publish_all (counter_reports total 0 done (onOverlayProgress id)) w))
    /\ snd (publish_all (counter_reports total 0 done (onOverlayProgress id)) w) = inl tt.
Proof.
  intros Hd w Hw. destruct total as [|total'].
  - replace done with O by lia. cbn [counter_reports publish_all].
    split; [apply log_ok_weaken with 30; [exact Hw | lra] | reflexivity].
  - assert (Hsc : 0 <= 0.4) by lra.
    assert (Hid : forall p, fst (onOverlayProgress id p) = id) by reflexivity.
    assert (Hval : forall p, progress (snd (onOverlayProgress id p)) == 30 + p * 0.4)
      by (intros p; apply Qeq_refl).
    destruct (counter_reports_ok id 30 0.4 (onOverlayProgress id) Hsc Hid Hval
                (S total') done ltac:(lia) 0%nat ltac:(lia)) as [Hall Hs].
    apply (publish_all_ok id (30 + 0.4) _ 30 w Hw); [lra | exact Hs |].
    clear Hs.
    eapply Forall_impl; [|exact Hall]. cbn beta. intros u (H1 & H2 & H3).
    split; [exact H1|]. split; [|exact H3].
    assert (H0 : 0 <= inject_Z (Z.of_nat 1) / inject_Z (Z.of_nat (S total'))).
    { apply Qle_shift_div_l.
      - change 0 with (inject_Z 0). rewrite <- Zlt_Qlt. lia.
      - rewrite Qmult_0_l. discriminate. }
    pose proof (scale_le _ _ 0.4 ltac:(lra) H0). lra.
Qed.

Lemma keeps_overlay (env : Env) (id : string) (total : nat) :
  no_late_worker env ->
  keeps id 30 (30 + 0.4) (renderCaptionOverlays env total (onOverlayProgress id)).
Proof.
  intros Hlate. unfold renderCaptionOverlays.
  eapply keeps_bind; [apply keeps_await | intros _ | lra].
  cbv zeta. rewrite worker_frames. unfold no_late_worker in Hlate.
  destruct (worker_failure env) as [[done late]|].
  - subst late. cbn [Nat.min counter_reports].
    eapply keeps_bind with (mid := 30 + 0.4); [ | intros _ | lra].
    + intros w Hw. exact (proj1 (keeps_counter id total _ (Nat.le_min_r _ _) w Hw)).
    + eapply keeps_bind with (mid := 30 + 0.4); [ | intros _ | lra].
      * intros w (Hm & Hid & Hp). unfold leave_running, log_ok.
        cbn [fst published pending]. rewrite Hp.
        split; [exact Hm | split; [exact Hid | reflexivity]].
      * intros w Hw. exact Hw.
  - intros w Hw. exact (proj1 (keeps_counter id total total (Nat.le_refl _) w Hw)).
Qed.

Ltac keeps_publish_step :=
  eapply keeps_bind;
  [apply keeps_publish; [reflexivity | cbn; lra] | intros _ | cbn; lra].
Ltac keeps_await_step :=
  eapply keeps_bind; [apply keeps_await | intros _ | cbn; lra].

Lemma keeps_pipeline (env : Env) (id : string) :
  no_late_worker env -> keeps id 0 100 (pipeline env id).
Proof.
  intros Hlate. unfold pipeline.
  keeps_publish_step. keeps_await_step. keeps_publish_step.
  eapply keeps_bind; [apply keeps_extract | intros total | cbn; lra].
  keeps_publish_step. keeps_await_step. keeps_publish_step. keeps_await_step.
  eapply keeps_bind; [apply (keeps_overlay env id total Hlate) | intros _ | cbn; lra].
  keeps_publish_step. keeps_await_step. keeps_publish_step.
  eapply keeps_bind; [apply keeps_compose | intros _ | cbn; lra].
  keeps_publish_step.
  eapply keeps_bind;
    [apply keeps_publish; [reflexivity | cbn; lra] | intros _ | cbn; lra].
  apply keeps_ret.
Qed.

Lemma bind_ends {A : Type} (id : string) (m : M A) (k : A -> M Reply) (w : World) :
  (forall a w', ends_complete id (k a w')) -> ends_complete id (bind m k w).
Proof.
  intros Hk. unfold bind. destruct (m w) as [w' [a|e]].
  - apply Hk.
  - intros r Hr. discriminate.
Qed.

Lemma pipeline_ends_complete (env : Env) (id : string) (w : World) :
  ends_complete id (pipeline env id w).
Proof.
  unfold pipeline. do 14 (apply bind_ends; intros ? ?).
  intros r Hr. unfold bind, publish, ret in *. cbn [fst snd] in *.
  injection Hr as <-. split; [reflexivity|].
  eexists. unfold setProgress. cbn [published]. reflexivity.
Qed.

Lemma filter_same_id (id : string) (l : list Update) :
  Forall (fun u => fst u = id) l ->
  filter (fun u => String.eqb (fst u) id) l = l.
Proof.
  induction 1 as [|u l Hu _ IH]; [reflexivity|].
  cbn [filter]. rewrite Hu, String.eqb_refl, IH. reflexivity.
Qed.

Lemma updates_of_log (id : string) (hi : Q) (w : World) :
  log_ok id hi w -> updates_for id (drain w) = map snd (published w).
Proof.
  intros (_ & Hid & Hp). unfold updates_for, drain. rewrite Hp.
  cbn [fold_left published]. rewrite (filter_same_id id _ Hid). reflexivity.
Qed.

Lemma percents_sorted (hi : Q) (l : list Update) :
  mono_below hi l -> Sorted Qle (percents (map snd l)).
Proof. intros [Hs _]. unfold percents. rewrite map_map. exact Hs. Qed.

Lemma log_ok_empty (id : string) (lo : Q) : log_ok id lo empty_world.
Proof. repeat split; constructor. Qed.

(** A request served on a fresh store: what the route reports when it
    fails before the pipeline starts. *)
Lemma on_error_alone (id error : string) :
  log_ok id 100 (fst (on_error id error empty_world))
  /\ published (fst (on_error id error empty_world))
     = [(id, mkState 100 "error" error)]
  /\ snd (on_error id error empty_world) = inl (ServerError error).
Proof.
  unfold on_error, bind, publish, ret. cbn [fst snd]. split; [|split; reflexivity].
  apply log_ok_publish with 100;
    [apply log_ok_empty | reflexivity | apply Qle_refl | apply Qle_refl].
Qed.

(** From the [try] on: when no overlay worker reports late, the updates of a
    request never decrease; a request that is not turned away with a 400 ends with an
    update of 100, [complete] when the video is returned and [error]
    otherwise; a request turned away publishes nothing. *)
Theorem render_updates_in_order (env : Env) :
  no_late_worker env ->
  Sorted Qle (percents (render_updates env))
  /\ (accepted env = true ->
      exists l u, render_updates env = l ++ [u]
                  /\ progress u == 100
                  /\ stage u = (if succeeds env then "complete" else "error")%string)
  /\ (accepted env = false -> render_updates env = []).
Proof.
  intros Hlate. unfold render_updates, succeeds, serve, render, job_id, accepted.
  set (id0 := match field_id env with Some i => i | None => default_id env end).
  destruct (parts_ok env); cbn [negb orb].
  2:{ destruct (on_error_alone id0 "multipart error") as (Hok & Hpub & Hr).
      destruct (on_error id0 "multipart error" empty_world) as [w r].
      cbn [fst snd] in *. rewrite (updates_of_log id0 100 w Hok), Hpub, Hr.
      cbn [map]. split; [repeat constructor|]. split; [|discriminate].
      intros _. exists [], (mkState 100 "error" "multipart error").
      repeat split; reflexivity. }
  destruct (has_video env); cbn [negb andb].
  2:{ cbn. split; [constructor|]. split; [discriminate | reflexivity]. }
  destruct (payload env) as [[pid|]|].
  - pose proof (keeps_pipeline env pid Hlate empty_world (log_ok_empty pid 0)) as Hok.
    pose proof (pipeline_ends_complete env pid empty_world) as Hend.
    unfold try_catch.
    destruct (pipeline env pid empty_world) as [w1 [reply|e]]; cbn [fst snd] in *.
    + destruct (Hend reply eq_refl) as [-> [l Hl]]. cbn [fst] in Hl.
      rewrite (updates_of_log pid 100 w1 Hok).
      split; [exact (percents_sorted 100 _ (proj1 Hok))|]. split; [|discriminate].
      intros _. rewrite Hl, map_app. cbn [map snd].
      eexists. eexists. split; [reflexivity|]. split; reflexivity.
    + unfold on_error, bind, publish, ret. cbn [fst snd].
      assert (Hok' : log_ok pid 100
                       (setProgress (pid, mkState 100 "error" e) w1)).
      { apply log_ok_publish with 100;
          [exact Hok | reflexivity | apply Qle_refl | apply Qle_refl]. }
      rewrite (updates_of_log pid 100 _ Hok').
      split; [exact (percents_sorted 100 _ (proj1 Hok'))|]. split; [|discriminate].
      intros _. unfold setProgress. cbn [published]. rewrite map_app. cbn [map snd].
      eexists. eexists. split; [reflexivity|]. split; reflexivity.
  - destruct (on_error_alone id0 "Unexpected token in JSON") as (Hok & Hpub & Hr).
    destruct (on_error id0 "Unexpected token in JSON" empty_world) as [w r].
    cbn [fst snd] in *. rewrite (updates_of_log id0 100 w Hok), Hpub, Hr.
    cbn [map]. split; [repeat constructor|]. split; [|discriminate].
    intros _. exists [], (mkState 100 "error" "Unexpected token in JSON").
    repeat split; reflexivity.
  - cbn. split; [constructor|]. split; [discriminate | reflexivity].
Qed.

Lemma render_updates_in_order_witness :
  Sorted Qle (percents (render_updates Samples.good_env)).
Proof.
  apply (render_updates_in_order Samples.good_env). exact I.
Defined.

(** C9.  The route reports [100 / error] when an overlay worker rejects,
    but the other workers started by [Promise.all] are not stopped: in this
    run one of them completes the tenth frame afterwards and reports
    [30.1 / caption rendering].  The percent decreases and the last update
    is not 100. *)
Theorem C9_update_after_error :
  map (fun u => (Qred (progress u), stage u))
      (render_updates Samples.late_worker_env)
  = [(0, "initialization"); (5, "initialization");
     (51 # 5, "video processing"); (30, "video processing");
     (30, "caption rendering"); (100, "error");
     (301 # 10, "caption rendering")]%string
  /\ snd (serve Samples.late_worker_env) = inl (ServerError "overlay worker failed")
  /\ (exists a b,
         nth_error (percents (render_updates Samples.late_worker_env)) 5 = Some a
         /\ nth_error (percents (render_updates Samples.late_worker_env)) 6 = Some b
         /\ a == 100 /\ b < a)
  /\ option_map (fun u => (Qred (progress u), stage u))
       (getProgress "export-7" (fst (serve Samples.late_worker_env)))
     = Some (301 # 10, "caption rendering"%string).
Proof.
  split; [vm_compute; reflexivity|].
  split; [vm_compute; reflexivity|].
  split; [|vm_compute; reflexivity].
  eexists. eexists. split; [vm_compute; reflexivity|].
  split; [vm_compute; reflexivity|]. split; vm_compute; reflexivity.
Qed.

End ProgressFacts.

(** ** The [/render] route from its first line *)

Module RouteFacts.
Import Progress.

(** X22.  When the temporary directory cannot be made, the request fails
    before the [try]: nothing is reported under any id.  Otherwise, when no
    overlay worker reports late, the updates of a request never decrease; a
    request that is not turned away with a 400 ends with an update of 100,
    [complete] when the video is returned and [error] otherwise; a request
    turned away publishes nothing. *)
Theorem route_updates_in_order (temp_dir_ok : bool) (env : Env) :
  no_late_worker env ->
  Sorted Qle (percents (Route.updates temp_dir_ok env))
  /\ (Route.accepted temp_dir_ok env = true ->
      exists l u, Route.updates temp_dir_ok env = l ++ [u]
                  /\ progress u == 100
                  /\ stage u = (if Route.succeeds temp_dir_ok env
                                then "complete" else "error")%string)
  /\ (Route.accepted temp_dir_ok env = false -> Route.updates temp_dir_ok env = [])
  /\ (temp_dir_ok = false ->
      published (fst (Route.serve temp_dir_ok env)) = []
      /\ exists error, snd (Route.serve temp_dir_ok env) = inr error).
Proof.
  intros Hlate. destruct temp_dir_ok.
  - assert (Hs : Route.serve true env = serve env) by reflexivity.
    unfold Route.updates, Route.accepted, Route.succeeds. rewrite Hs. cbn [andb].
    destruct (ProgressFacts.render_updates_in_order env Hlate) as (H1 & H2 & H3).
    split; [exact H1|]. split; [exact H2|]. split; [exact H3|]. discriminate.
  - split; [constructor|]. split; [discriminate|]. split; [reflexivity|].
    intros _. split; [reflexivity|]. eexists. reflexivity.
Qed.

Lemma route_updates_in_order_witness :
  Sorted Qle (percents (Route.updates true Samples.good_env)).
Proof.
  apply (route_updates_in_order true Samples.good_env). exact I.
Defined.

End RouteFacts.

(** ** Rounding and grouping of words *)

Module GroupingFacts.
Import Transcription Grouping.

(** X1.  [roundTo] leaves a hundredth as it is and keeps the order of its
    arguments.  It picks the nearest hundredth in exact arithmetic only:
    the engine rounds the product [value * 100] to binary64 before
    [Math.round] sees it, so that [roundTo(1.005)] is [1] and
    [roundTo(0.285)] is [0.28].  On the hundredths up to 60 seconds the
    engine finds the hundredth that exact arithmetic finds. *)
Theorem roundTo_keeps_hundredths :
  (forall x, roundTo (roundTo x) = roundTo x)
  /\ (forall x y, x <= y -> roundTo x <= roundTo y)
  /\ (Double.hundredths 1.005 = 100%Z /\ Js.round (1.005 * 100) = 101%Z)
  /\ (Double.hundredths 0.285 = 28%Z /\ Js.round (0.285 * 100) = 29%Z)
  /\ (forall z, (0 <= z <= 6000)%Z ->
      Double.hundredths (z # 100) = z /\ roundTo (z # 100) = z # 100).
Proof.
  split; [exact roundTo_idem|]. split; [exact roundTo_le|].
  split; [split; vm_compute; reflexivity|].
  split; [split; vm_compute; reflexivity|].
  intros z Hz. split; [|apply roundTo_hundredths].
  assert (H : forallb (fun n => (Double.hundredths (Z.of_nat n # 100) =? Z.of_nat n)%Z)
                      (seq 0 (Z.to_nat 6001)) = true) by (vm_compute; reflexivity).
  rewrite forallb_forall in H. specialize (H (Z.to_nat z)).
  rewrite Z2Nat.id in H by lia. apply Z.eqb_eq. apply H.
  apply in_seq. lia.
Qed.

Lemma round_word_lasts (w : Word) :
  fw_start (round_word w) + MIN_WORD_DURATION <= fw_end (round_word w).
Proof.
  unfold round_word, MIN_WORD_DURATION. cbn [fw_start fw_end].
  destruct (w_start w), (w_end w); qsolve.
Qed.

(** One turn of the loop either closes the group or carries it on. *)
Lemma group_loop_step (threshold : Q) (word : Word) (rest : list Word)
  (currentGroup : list FWord) :
  let grown := currentGroup ++ [round_word word] in
  group_loop threshold (word :: rest) currentGroup
  = make_group grown :: group_loop threshold rest []
  \/ (group_loop threshold (word :: rest) currentGroup
      = group_loop threshold rest grown
      /\ rest <> []
      /\ hasPunctuation (w_word word) = false
      /\ (List.length grown < MAX_WORDS_PER_GROUP)%nat
      /\ fw_end (round_word word) - fw_start (hd dummy_word grown) < MAX_GROUP_DURATION).
Proof.
  cbv zeta. cbn [group_loop].
  set (grown := currentGroup ++ [round_word word]).
  assert (Hn : (0 <? List.length grown)%nat = true).
  { apply Nat.ltb_lt. unfold grown. rewrite length_app. cbn. lia. }
  replace (fw_word (round_word word)) with (w_word word) by reflexivity.
  destruct rest as [|nextWord rest'].
  - rewrite Hn. left. reflexivity.
  - destruct (gap_gt (raw_gap word nextWord) (threshold * 2)); [rewrite Hn; left; reflexivity|].
    destruct (gap_gt (raw_gap word nextWord) threshold && (MIN_WORDS_PER_GROUP <=? List.length grown)%nat).
    + rewrite Hn, orb_true_r. left. reflexivity.
    + rewrite Hn, andb_true_r.
      destruct (hasPunctuation (w_word word)) eqn:Hp; [left; reflexivity|].
      cbn [negb andb orb].
      destruct (Js.geb _ MAX_GROUP_DURATION) eqn:Hd; [rewrite orb_true_r; left; reflexivity|].
      destruct (MAX_WORDS_PER_GROUP <=? List.length grown)%nat eqn:Hm;
        [rewrite !orb_true_r; left; reflexivity|].
      rewrite !orb_false_r.
      destruct (hasComma (w_word word) && (2 <=? List.length grown)%nat);
        [left; reflexivity|].
      right. split; [reflexivity|]. split; [discriminate|]. split; [reflexivity|].
      split; [apply Nat.leb_gt; exact Hm|].
      unfold Js.geb in Hd. qprop. exact Hd.
Qed.

Lemma group_loop_words (threshold : Q) (words : list Word) (currentGroup : list FWord) :
  List.concat (map g_words (group_loop threshold words currentGroup))
  = currentGroup ++ map round_word words.
Proof.
  revert currentGroup. induction words as [|word rest IH]; intros currentGroup.
  - destruct currentGroup; cbn; rewrite ?app_nil_r; reflexivity.
  - destruct (group_loop_step threshold word rest currentGroup) as [E|[E _]];
      rewrite E; cbn [map List.concat g_words make_group].
    + rewrite IH. cbn [app]. rewrite <- app_assoc. reflexivity.
    + rewrite IH. rewrite <- app_assoc. reflexivity.
Qed.

(** X2.  Grouping loses no word: the words of the groups, read group after
    group, are the rounded input words in their order. *)
Theorem groups_partition_words (words : list Word) :
  List.concat (map g_words (groupWordsByTiming words)) = map round_word words.
Proof.
  unfold groupWordsByTiming. destruct words as [|w ws]; [reflexivity|].
  apply (group_loop_words _ (w :: ws) []).
Qed.

Lemma hd_grown (currentGroup : list FWord) (w : FWord) :
  currentGroup <> [] ->
  hd dummy_word (currentGroup ++ [w]) = hd dummy_word currentGroup.
Proof. destruct currentGroup; [congruence | reflexivity]. Qed.

Lemma open_group_closes (currentGroup : list FWord) (word : Word) :
  open_group currentGroup ->
  closed_group (make_group (currentGroup ++ [round_word word])).
Proof.
  intros (Hlen & Hdur & Hopen). unfold closed_group.
  cbn [make_group g_words g_start g_end].
  rewrite length_app, last_last, removelast_last. cbn [List.length].
  unfold MAX_WORDS_PER_GROUP in *.
  split; [lia|]. split; [reflexivity|].
  split; [unfold MIN_SEGMENT_DURATION; qsolve|].
  split; [unfold MIN_SEGMENT_DURATION; qsolve|].
  split.
  - apply Forall_app. split.
    + eapply Forall_impl; [|exact Hdur]. cbn beta. unfold MIN_WORD_DURATION. intros w Hw. lra.
    + pose proof (round_word_lasts word) as Hw. unfold MIN_WORD_DURATION in Hw.
      constructor; [lra | constructor].
  - destruct currentGroup as [|f l]; [constructor|].
    rewrite hd_grown by discriminate.
    eapply Forall_impl; [|exact Hopen]. cbn beta. intros w [Hp Hw]. split; [exact Hp | lra].
Qed.

Lemma open_group_grows (currentGroup : list FWord) (word : Word) :
  open_group currentGroup ->
  hasPunctuation (w_word word) = false ->
  (List.length (currentGroup ++ [round_word word]) < MAX_WORDS_PER_GROUP)%nat ->
  fw_end (round_word word)
  - fw_start (hd dummy_word (currentGroup ++ [round_word word])) < MAX_GROUP_DURATION ->
  open_group (currentGroup ++ [round_word word]).
Proof.
  intros (Hlen & Hdur & Hopen) Hp Hn Hd. unfold open_group.
  split; [exact Hn|]. split.
  - apply Forall_app. split; [exact Hdur|].
    constructor; [apply round_word_lasts | constructor].
  - apply Forall_app. split.
    + destruct currentGroup as [|f l]; [constructor|].
      rewrite hd_grown by discriminate. exact Hopen.
    + constructor; [|constructor]. split; [exact Hp | exact Hd].
Qed.

Lemma group_loop_closed (threshold : Q) (words : list Word) (currentGroup : list FWord) :
  open_group currentGroup ->
  (words = [] -> currentGroup = []) ->
  Forall closed_group (group_loop threshold words currentGroup).
Proof.
  revert currentGroup. induction words as [|word rest IH]; intros currentGroup Hopen Hnil.
  - rewrite (Hnil eq_refl). constructor.
  - assert (Hempty : open_group []).
    { unfold open_group, MAX_WORDS_PER_GROUP. cbn. repeat split; try constructor; lia. }
    destruct (group_loop_step threshold word rest currentGroup)
      as [E|(E & Hrest & Hp & Hn & Hd)]; rewrite E.
    + constructor; [apply open_group_closes; exact Hopen|].
      apply IH; [exact Hempty | reflexivity].
    + apply IH; [apply open_group_grows; assumption | congruence].
Qed.

(** X3.  Every group holds between one and [MAX_WORDS_PER_GROUP] words, starts
    with its first word, ends after its start and not before the end of
    its last word; each of its words ends after it starts; and a word
    that is not the last of its group holds no sentence punctuation and
    ends no more than [MAX_GROUP_DURATION] after the group's start. *)
Theorem groups_are_closed (words : list Word) :
  Forall closed_group (groupWordsByTiming words).
Proof.
  unfold groupWordsByTiming. destruct words as [|w ws]; [constructor|].
  apply group_loop_closed; [|discriminate].
  unfold open_group, MAX_WORDS_PER_GROUP. cbn. repeat split; try constructor; lia.
Qed.

End GroupingFacts.

(** ** A long pause splits the grouping *)

Module PauseFacts.
Import Transcription Grouping.

Lemma group_loop_turn (threshold : Q) (word : Word) (rest : list Word)
  (currentGroup : list FWord) :
  group_loop threshold (word :: rest) currentGroup
  = let grown := currentGroup ++ [round_word word] in
    if ends_group threshold word (hd_error rest) grown
    then make_group grown :: group_loop threshold rest []
    else group_loop threshold rest grown.
Proof.
  cbv zeta.
  change (group_loop threshold (word :: rest) currentGroup)
    with (let roundedWord := round_word word in
      let currentGroup := currentGroup ++ [roundedWord] in
      let n := List.length currentGroup in
      let punct := hasPunctuation (fw_word roundedWord) in
      let comma := hasComma (fw_word roundedWord) in
      let forceEndGroup := punct in
      let shouldEndGroup := negb punct && comma && (2 <=? n)%nat in
      let groupStart := fw_start (hd dummy_word currentGroup) in
      let groupEnd := fw_end roundedWord in
      let shouldEndGroup :=
        shouldEndGroup || Js.geb (groupEnd - groupStart) MAX_GROUP_DURATION in
      let shouldEndGroup := shouldEndGroup || (MAX_WORDS_PER_GROUP <=? n)%nat in
      let '(forceEndGroup, shouldEndGroup) :=
        match rest with
        | nextWord :: _ =>
            let gap := raw_gap word nextWord in
            if gap_gt gap (threshold * 2) then (true, shouldEndGroup)
            else if gap_gt gap threshold && (MIN_WORDS_PER_GROUP <=? n)%nat
            then (forceEndGroup, true)
            else (forceEndGroup, shouldEndGroup)
        | [] => (true, shouldEndGroup)
        end in
      if (forceEndGroup || shouldEndGroup) && (0 <? n)%nat
      then make_group currentGroup :: group_loop threshold rest []
      else group_loop threshold rest currentGroup).
  cbv zeta.
  set (grown := currentGroup ++ [round_word word]).
  assert (Hn : (0 <? List.length grown)%nat = true).
  { apply Nat.ltb_lt. unfold grown. rewrite length_app. cbn. lia. }
  replace (fw_word (round_word word)) with (w_word word) by reflexivity.
  unfold ends_group. cbv zeta.
  destruct rest as [|nextWord rest']; cbn [hd_error].
  - rewrite Hn. reflexivity.
  - destruct (gap_gt (raw_gap word nextWord) (threshold * 2)); [rewrite Hn; reflexivity|].
    destruct (gap_gt (raw_gap word nextWord) threshold
              && (MIN_WORDS_PER_GROUP <=? List.length grown)%nat).
    + rewrite Hn, orb_true_r. reflexivity.
    + rewrite Hn, andb_true_r. reflexivity.
Qed.

Lemma hd_error_app (prefix : list Word) (a : Word) (l l' : list Word) :
  hd_error (prefix ++ a :: l) = hd_error (prefix ++ a :: l').
Proof. destruct prefix; reflexivity. Qed.

Lemma group_loop_pause (threshold : Q) (a b : Word) (after : list Word)
  (before : list Word) : forall currentGroup,
  gap_gt (raw_gap a b) (threshold * 2) = true ->
  group_loop threshold (before ++ a :: b :: after) currentGroup
  = group_loop threshold (before ++ [a]) currentGroup
    ++ group_loop threshold (b :: after) [].
Proof.
  induction before as [|w before IH]; intros currentGroup Hgap.
  - cbn [app]. rewrite !group_loop_turn. cbv zeta. cbn [hd_error].
    unfold ends_group at 1 2. rewrite Hgap. reflexivity.
  - cbn [app]. rewrite (group_loop_turn _ w (before ++ a :: b :: after)).
    rewrite (group_loop_turn _ w (before ++ [a])). cbv zeta.
    rewrite (hd_error_app before a (b :: after) []).
    destruct (ends_group threshold w (hd_error (before ++ [a])) _).
    + cbn [app]. f_equal. apply IH. exact Hgap.
    + apply IH. exact Hgap.
Qed.

(** X4.  A pause of more than twice the threshold between two words splits
    the grouping: the words before the pause and the words after it are
    grouped as if each part stood alone (with the same threshold). *)
Theorem long_pause_splits_groups (before after : list Word) (a b : Word) :
  let words := before ++ a :: b :: after in
  let threshold := timingThreshold words in
  gap_gt (raw_gap a b) (threshold * 2) = true ->
  groupWordsByTiming words
  = group_loop threshold (before ++ [a]) [] ++ group_loop threshold (b :: after) [].
Proof.
  cbv zeta. intros Hgap. unfold groupWordsByTiming.
  destruct (before ++ a :: b :: after) as [|w ws] eqn:E.
  - destruct before; discriminate.
  - rewrite <- E. apply group_loop_pause. rewrite E. exact Hgap.
Qed.

Lemma long_pause_splits_groups_witness :
  groupWordsByTiming ([Inputs.word_hi] ++ Inputs.word_there :: Inputs.word_friend :: [])
  = group_loop
      (timingThreshold ([Inputs.word_hi] ++ Inputs.word_there :: Inputs.word_friend :: []))
      ([Inputs.word_hi] ++ [Inputs.word_there]) []
    ++ group_loop
         (timingThreshold ([Inputs.word_hi] ++ Inputs.word_there :: Inputs.word_friend :: []))
         (Inputs.word_friend :: []) [].
Proof.
  apply (long_pause_splits_groups [Inputs.word_hi] [] Inputs.word_there Inputs.word_friend).
  vm_compute. reflexivity.
Defined.

End PauseFacts.

(** ** More on [normalizeSegments] *)

Module NormalizeFacts.
Import Transcription.

Lemma insert_by_start_perm (x : FSegment) (l : list FSegment) :
  Permutation (insert_by_start x l) (x :: l).
Proof.
  induction l as [|y l IH]; cbn [insert_by_start]; [reflexivity|].
  destruct (Js.leb (fs_start x) (fs_start y)); [reflexivity|].
  rewrite IH. apply perm_swap.
Qed.

Lemma sort_by_start_perm (l : list FSegment) : Permutation (sort_by_start l) l.
Proof.
  induction l as [|x l IH]; [reflexivity|].
  unfold sort_by_start in *. cbn [fold_right].
  rewrite insert_by_start_perm. constructor. exact IH.
Qed.

Lemma sweep_texts (duration : option Q) (l : list FSegment) (cursor : Q) :
  map fs_text (sweep duration cursor l) = map fs_text l.
Proof.
  revert cursor. induction l as [|s l IH]; intros cursor; [reflexivity|].
  rewrite SweepFacts.sweep_cons. cbn [map fs_text]. f_equal. apply IH.
Qed.

Lemma insert_by_start_sorted (x : FSegment) (l : list FSegment) :
  StronglySorted (fun a b => fs_start a <= fs_start b) l ->
  StronglySorted (fun a b => fs_start a <= fs_start b) (insert_by_start x l).
Proof.
  induction 1 as [|y l Hs IH Hy]; cbn [insert_by_start].
  - constructor; constructor.
  - unfold Js.leb. destruct (Qle_bool (fs_start x) (fs_start y)) eqn:E; qprop.
    + constructor; [constructor; assumption|].
      constructor; [exact E|].
      eapply Forall_impl; [|exact Hy]. cbn beta. intros a Ha. lra.
    + constructor; [exact IH|].
      apply (Permutation_Forall (x := x :: l)).
      * symmetry. apply insert_by_start_perm.
      * constructor; [lra | exact Hy].
Qed.

Lemma sort_by_start_sorted (l : list FSegment) :
  StronglySorted (fun a b => fs_start a <= fs_start b) (sort_by_start l).
Proof.
  induction l as [|x l IH]; [constructor|].
  unfold sort_by_start in *. cbn [fold_right]. apply insert_by_start_sorted. exact IH.
Qed.

Lemma insert_by_start_stable (q : Q) (x : FSegment) (l : list FSegment) :
  starting_at q (insert_by_start x l) = starting_at q (x :: l).
Proof.
  induction l as [|y l IH]; cbn [insert_by_start]; [reflexivity|].
  unfold Js.leb. destruct (Qle_bool (fs_start x) (fs_start y)) eqn:E; [reflexivity|].
  qprop. unfold starting_at in *. cbn [filter] in *. rewrite IH.
  destruct (Qeq_bool (fs_start x) q) eqn:Ex; [|reflexivity].
  destruct (Qeq_bool (fs_start y) q) eqn:Ey; [|reflexivity].
  apply Qeq_bool_iff in Ex, Ey. exfalso. lra.
Qed.

Lemma sort_by_start_stable (q : Q) (l : list FSegment) :
  starting_at q (sort_by_start l) = starting_at q l.
Proof.
  induction l as [|x l IH]; [reflexivity|].
  unfold sort_by_start in *. cbn [fold_right]. rewrite insert_by_start_stable.
  unfold starting_at in *. cbn [filter]. rewrite IH. reflexivity.
Qed.

(** X5.  [normalizeSegments] drops and adds no segment: it returns as many
    segments as it was given, and their texts are the given texts the way
    [sort] arranges the segments: by start time (a start that is not a
    finite number counting as [0]), segments with the same start keeping
    the order in which they were given. *)
Theorem normalizeSegments_keeps_texts (segments : list Segment)
  (totalDuration : option Q) :
  List.length (normalizeSegments segments totalDuration) = List.length segments
  /\ (forall s, fs_text (sanitize s) = s_text s
                /\ fs_start (sanitize s) = Js.finite_or (s_start s) 0)
  /\ exists sorted : list FSegment,
       map fs_text (normalizeSegments segments totalDuration) = map fs_text sorted
       /\ Permutation sorted (map sanitize segments)
       /\ StronglySorted (fun a b => fs_start a <= fs_start b) sorted
       /\ (forall q, starting_at q sorted = starting_at q (map sanitize segments))
       /\ Permutation (map fs_text (normalizeSegments segments totalDuration))
                      (map s_text segments).
Proof.
  unfold normalizeSegments. split; [|split].
  - rewrite SweepFacts.sweep_length. unfold sanitized.
    rewrite (Permutation_length (sort_by_start_perm _)). apply length_map.
  - intros s. split; reflexivity.
  - exists (sanitized segments). split; [apply sweep_texts|].
    unfold sanitized. split; [apply sort_by_start_perm|].
    split; [apply sort_by_start_sorted|]. split; [intros q; apply sort_by_start_stable|].
    rewrite sweep_texts. unfold sanitized. rewrite sort_by_start_perm, map_map. reflexivity.
Qed.

(** The sweep never moves a start before the cursor it was given. *)
Lemma sweep_bounds_nonneg (duration : option Q) (cursor : Q) (segment : FSegment)
  (next : option FSegment) :
  (forall d, duration = Some d -> 0 <= d) ->
  0 <= cursor ->
  0 <= fst (sweep_bounds duration cursor segment next).
Proof.
  intros Hd Hc. unfold sweep_bounds, MIN_SEGMENT_DURATION.
  destruct duration as [d|].
  - specialize (Hd d eq_refl). destruct next as [n|]; qsolve.
  - destruct next as [n|]; qsolve.
Qed.

Lemma roundTo_zero : roundTo 0 == 0.
Proof. reflexivity. Qed.

Lemma sweep_in_bounds (duration : option Q) (l : list FSegment) (cursor : Q) :
  (forall d, duration = Some d -> 0 <= d) ->
  0 <= cursor ->
  Forall (fun s => 0 <= fs_start s
                   /\ fs_start s <= fs_end s
                   /\ forall d, duration = Some d -> fs_end s <= roundTo d)
         (sweep duration cursor l).
Proof.
  intros Hd. revert cursor. induction l as [|s l IH]; intros cursor Hc; [constructor|].
  rewrite SweepFacts.sweep_cons. cbv zeta.
  set (b := sweep_bounds duration cursor s (hd_error l)).
  pose proof (SweepFacts.sweep_bounds_ordered duration cursor s (hd_error l)) as Hord.
  pose proof (SweepFacts.sweep_bounds_within duration cursor s (hd_error l)) as Hin.
  pose proof (sweep_bounds_nonneg duration cursor s (hd_error l) Hd Hc) as H0.
  fold b in Hord, Hin, H0.
  constructor.
  - cbn [fs_start fs_end]. split; [|split].
    + rewrite <- roundTo_zero. apply roundTo_le. exact H0.
    + apply roundTo_le. exact Hord.
    + intros d E. apply roundTo_le. exact (Hin d E).
  - apply IH. lra.
Qed.

(** X6.  When the total duration is not negative, every returned segment
    starts at or after [0], does not end before it starts, and ends by the
    (rounded) total duration when one is known. *)
Theorem normalizeSegments_within_duration (segments : list Segment)
  (totalDuration : option Q) :
  (forall d, totalDuration = Some d -> 0 <= d) ->
  Forall (fun s => 0 <= fs_start s
                   /\ fs_start s <= fs_end s
                   /\ forall d, safeDuration totalDuration = Some d
                                -> fs_end s <= roundTo d)
         (normalizeSegments segments totalDuration).
Proof.
  intros Hd. unfold normalizeSegments. apply sweep_in_bounds; [|lra].
  intros d E. apply Hd. unfold safeDuration in E.
  destruct totalDuration as [t|]; [|discriminate].
  destruct (Qeq_bool t 0); [discriminate|]. exact E.
Qed.

Lemma normalizeSegments_within_duration_witness :
  Forall (fun s => 0 <= fs_start s
                   /\ fs_start s <= fs_end s
                   /\ forall d, safeDuration (Some 1) = Some d -> fs_end s <= roundTo d)
         (normalizeSegments Samples.overlapping_segments (Some 1)).
Proof.
  apply (normalizeSegments_within_duration Samples.overlapping_segments (Some 1)).
  intros d [= <-]. lra.
Defined.

(** *** Words stay inside their segment *)

Lemma bound_word_inside (start end_ : Q) (isLast : bool) (word : FWord) :
  start <= end_ ->
  roundTo start <= fw_start (bound_word start end_ isLast word)
  /\ fw_start (bound_word start end_ isLast word)
     <= fw_end (bound_word start end_ isLast word)
  /\ fw_end (bound_word start end_ isLast word) <= roundTo end_.
Proof.
  intros H. unfold bound_word, MIN_WORD_DURATION. cbn [fw_start fw_end].
  repeat split; apply roundTo_le; destruct isLast; qsolve.
Qed.

Lemma bound_all_inside (start end_ : Q) (words : list FWord) :
  start <= end_ ->
  Forall (fun w => roundTo start <= fw_start w /\ fw_start w <= fw_end w
                   /\ fw_end w <= roundTo end_)
         (bound_all start end_ words).
Proof.
  intros H. induction words as [|w ws IH]; [constructor|].
  destruct ws as [|w' ws'].
  - constructor; [apply bound_word_inside; exact H | constructor].
  - change (bound_all start end_ (w :: w' :: ws'))
      with (bound_word start end_ false w :: bound_all start end_ (w' :: ws')).
    constructor; [apply bound_word_inside; exact H | exact IH].
Qed.

Lemma bound_all_texts (start end_ : Q) (words : list FWord) :
  map fw_word (bound_all start end_ words) = map fw_word words.
Proof.
  induction words as [|w ws IH]; [reflexivity|].
  destruct ws as [|w' ws']; [reflexivity|].
  change (bound_all start end_ (w :: w' :: ws'))
    with (bound_word start end_ false w :: bound_all start end_ (w' :: ws')).
  cbn [map]. f_equal. exact IH.
Qed.

Lemma sweep_words_inside (duration : option Q) (l : list FSegment) (cursor : Q) :
  Forall (fun s => forall ws, fs_words s = Some ws ->
            Forall (fun w => fs_start s <= fw_start w /\ fw_start w <= fw_end w
                             /\ fw_end w <= fs_end s) ws)
         (sweep duration cursor l).
Proof.
  revert cursor. induction l as [|s l IH]; intros cursor; [constructor|].
  rewrite SweepFacts.sweep_cons. cbv zeta.
  set (b := sweep_bounds duration cursor s (hd_error l)).
  pose proof (SweepFacts.sweep_bounds_ordered duration cursor s (hd_error l)) as Hord.
  fold b in Hord.
  constructor; [|apply IH].
  cbn [fs_start fs_end fs_words]. intros ws E.
  destruct (fs_words s) as [ws0|]; [|discriminate]. cbn in E. injection E as <-.
  unfold boundedWords. apply Forall_forall. intros w Hw.
  apply filter_In in Hw. destruct Hw as [Hw _].
  pose proof (bound_all_inside (fst b) (snd b) ws0 Hord) as Hall.
  rewrite Forall_forall in Hall. exact (Hall w Hw).
Qed.

(** X7.  Every word of a returned segment lies inside the segment and does
    not end before it starts. *)
Theorem normalizeSegments_words_inside (segments : list Segment)
  (totalDuration : option Q) :
  Forall (fun s => forall ws, fs_words s = Some ws ->
            Forall (fun w => fs_start s <= fw_start w /\ fw_start w <= fw_end w
                             /\ fw_end w <= fs_end s) ws)
         (normalizeSegments segments totalDuration).
Proof. apply sweep_words_inside. Qed.

End NormalizeFacts.

(** ** [transcribeVideo] *)

Module TranscribeFacts.
Import Transcription Transcribe.

(** X8.  A video of more than 60 seconds is refused; otherwise the segments
    returned are in order, do not overlap, start at or after [0] and end
    by the (rounded) duration of the video. *)
Theorem transcript_is_ordered (duration : Q) (groqData : GroqData) :
  0 <= duration ->
  match transcribeVideo duration (inl groqData) with
  | inl segments =>
      duration <= 60
      /\ Sorted before segments
      /\ Forall (fun s => 0 <= fs_start s /\ fs_start s <= fs_end s
                          /\ (~ duration == 0 -> fs_end s <= roundTo duration))
                segments
  | inr e => 60 < duration /\ e = "Video must be less than 60 seconds"%string
  end.
Proof.
  intros H0. unfold transcribeVideo, Js.gtb.
  destruct (Qle_bool duration 60) eqn:E; cbn [negb]; qprop; [|split; [exact E | reflexivity]].
  split; [exact E|]. unfold normalizeSegments. split.
  - apply SweepFacts.sweep_sorted.
  - eapply Forall_impl; [|apply NormalizeFacts.sweep_in_bounds].
    + cbn beta. intros s (H1 & H2 & H3). split; [exact H1|]. split; [exact H2|].
      intros Hne. apply H3. unfold safeDuration.
      destruct (Qeq_bool duration 0) eqn:Ez; [|reflexivity].
      apply Qeq_bool_iff in Ez. contradiction.
    + intros d Hd. unfold safeDuration in Hd.
      destruct (Qeq_bool duration 0); [discriminate|]. injection Hd as <-. exact H0.
    + apply Qle_refl.
Qed.

Lemma transcript_is_ordered_witness :
  match transcribeVideo 2 (inl Inputs.mixed_answer) with
  | inl segments =>
      2 <= 60
      /\ Sorted before segments
      /\ Forall (fun s => 0 <= fs_start s /\ fs_start s <= fs_end s
                          /\ (~ 2 == 0 -> fs_end s <= roundTo 2))
                segments
  | inr e => 60 < 2 /\ e = "Video must be less than 60 seconds"%string
  end.
Proof.
  apply (transcript_is_ordered 2 Inputs.mixed_answer). vm_compute. discriminate.
Defined.

Lemma group_loop_texts (threshold : Q) (words : list Word) (currentGroup : list FWord) :
  (words = [] -> currentGroup = []) ->
  Forall (fun g => g_words g <> []
                   /\ g_text g = String.concat " " (map fw_word (g_words g)))
         (group_loop threshold words currentGroup).
Proof.
  revert currentGroup. induction words as [|word rest IH]; intros currentGroup Hnil.
  - rewrite (Hnil eq_refl). constructor.
  - destruct (GroupingFacts.group_loop_step threshold word rest currentGroup)
      as [E|(E & Hrest & _)]; rewrite E.
    + constructor; [|apply IH; reflexivity].
      split; [|reflexivity]. cbn [make_group g_words].
      destruct currentGroup; discriminate.
    + apply IH. intros Hr. contradiction.
Qed.

(** X9.  When a segment of the answer carries words, the segments are
    built from the words alone: they are the groups of the words of all
    segments, they hold exactly these words, rounded, in their order, and
    each has words and has the texts of its words, joined by spaces, as its
    text.  A segment of the answer without words is discarded, and its
    text with it. *)
Theorem worded_segments_win (duration : Q) (groqData : GroqData)
  (segs : list GroqSegment) :
  gd_segments groqData = Some segs ->
  List.concat (map segment_words segs) <> [] ->
  shape duration groqData
  = map segment_of_group (groupWordsByTiming (List.concat (map segment_words segs)))
  /\ List.concat (map words_of (shape duration groqData))
     = map (fun w => as_word (round_word w)) (List.concat (map segment_words segs))
  /\ Forall (fun s => exists ws, s_words s = Some ws /\ ws <> []
                                 /\ s_text s = String.concat " " (map w_word ws))
            (shape duration groqData).
Proof.
  intros Hs Hw. unfold shape. rewrite Hs. cbv zeta.
  destruct (List.concat (map segment_words segs)) as [|w ws] eqn:E; [congruence|].
  split; [reflexivity|]. split.
  - rewrite map_map.
    assert (Hg : forall gs, List.concat (map (fun g => words_of (segment_of_group g)) gs)
                            = map as_word (List.concat (map g_words gs))).
    { induction gs as [|g gs IH]; [reflexivity|].
      cbn [map List.concat]. rewrite map_app, IH. reflexivity. }
    rewrite Hg. unfold groupWordsByTiming.
    rewrite (GroupingFacts.group_loop_words _ (w :: ws) []). cbn [app].
    rewrite map_map. reflexivity.
  - apply Forall_map. unfold groupWordsByTiming.
    eapply Forall_impl; [|apply (group_loop_texts _ (w :: ws) []); discriminate].
    cbn beta. intros g [Hne Ht]. exists (map as_word (g_words g)).
    split; [reflexivity|]. split.
    + destruct (g_words g); [congruence | discriminate].
    + cbn [segment_of_group s_text]. rewrite Ht, map_map. reflexivity.
Qed.

Lemma worded_segments_win_witness :
  shape 2 Inputs.mixed_answer
  = map segment_of_group
        (groupWordsByTiming (List.concat (map segment_words Inputs.mixed_segments)))
  /\ List.concat (map words_of (shape 2 Inputs.mixed_answer))
     = map (fun w => as_word (round_word w))
           (List.concat (map segment_words Inputs.mixed_segments))
  /\ Forall (fun s => exists ws, s_words s = Some ws /\ ws <> []
                                 /\ s_text s = String.concat " " (map w_word ws))
            (shape 2 Inputs.mixed_answer).
Proof.
  apply (worded_segments_win 2 Inputs.mixed_answer Inputs.mixed_segments).
  - reflexivity.
  - vm_compute. discriminate.
Defined.

End TranscribeFacts.

(** ** Hundredths *)

(** ** Lists that [normalizeSegments] leaves as they are *)

Module GridFacts.
Import Transcription Settling.

Lemma roundTo_near (x : Q) : roundTo x - 0.005 <= x /\ x < roundTo x + 0.005.
Proof.
  split.
  - rewrite roundTo_value. unfold Js.round.
    pose proof (Qfloor_le (x * 100 + (1 # 2))) as H.
    set (r := inject_Z (Qfloor (x * 100 + (1 # 2)))) in *.
    assert (E : r / 100 == r * 0.01) by field. rewrite E. lra.
  - rewrite roundTo_value. unfold Js.round.
    pose proof (Qlt_floor (x * 100 + (1 # 2))) as H.
    rewrite inject_Z_plus in H.
    set (r := inject_Z (Qfloor (x * 100 + (1 # 2)))) in *.
    assert (E : r / 100 == r * 0.01) by field. rewrite E.
    change (inject_Z 1) with 1 in H. lra.
Qed.

Lemma hundredths_on_grid (q : Q) : hundredths q -> on_grid q.
Proof. unfold hundredths, on_grid. intros ->. reflexivity. Qed.

Lemma on_grid_roundTo (x : Q) : on_grid (roundTo x).
Proof. unfold on_grid. rewrite roundTo_idem. reflexivity. Qed.

Lemma on_grid_comp (x y : Q) : x == y -> on_grid x -> on_grid y.
Proof.
  unfold on_grid. intros E H. rewrite <- (roundTo_comp x y E). rewrite H. exact E.
Qed.

Lemma on_grid_shift (x : Q) (n : Z) : on_grid x -> on_grid (x + (n # 100)).
Proof. unfold on_grid. intros H. rewrite roundTo_shift, H. reflexivity. Qed.

Lemma on_grid_segment (x : Q) : on_grid x -> on_grid (x + MIN_SEGMENT_DURATION).
Proof.
  intros H. apply (on_grid_comp (x + (20 # 100))); [|apply on_grid_shift; exact H].
  unfold MIN_SEGMENT_DURATION. lra.
Qed.

Lemma on_grid_word (x : Q) : on_grid x -> on_grid (x + MIN_WORD_DURATION).
Proof. intros H. apply (on_grid_shift x 5). exact H. Qed.

Lemma on_grid_zero : on_grid 0.
Proof. reflexivity. Qed.

(** Two distinct hundredths lie a hundredth apart. *)
Lemma roundTo_apart (x y : Q) : roundTo x < roundTo y -> roundTo x + 0.01 <= roundTo y.
Proof.
  unfold roundTo, Qlt, Qle, Qplus. cbn [Qnum Qden]. lia.
Qed.

Lemma on_grid_apart (g h : Q) : on_grid g -> on_grid h -> g < h -> g + 0.01 <= h.
Proof.
  unfold on_grid. intros Hg Hh H.
  assert (roundTo g < roundTo h) by lra.
  pose proof (roundTo_apart g h). lra.
Qed.

(** A hundredth lies well below a duration, or is its rounding, or lies
    well above it. *)
Lemma on_grid_near (g d : Q) :
  on_grid g -> g + 0.005 <= d \/ g == roundTo d \/ d + 0.005 < g.
Proof.
  intros Hg. pose proof (roundTo_near d) as [H1 H2].
  pose proof (on_grid_roundTo d) as Hd.
  destruct (Qlt_le_dec g (roundTo d)) as [Hlt|Hge].
  - left. pose proof (on_grid_apart g (roundTo d) Hg Hd Hlt). lra.
  - destruct (Qlt_le_dec (roundTo d) g) as [Hgt|Hle].
    + right. right. pose proof (on_grid_apart (roundTo d) g Hd Hg Hgt). lra.
    + right. left. lra.
Qed.

(** Equal hundredths are the same fraction. *)
Lemma hundredths_eq (p q : Q) : hundredths p -> hundredths q -> p == q -> p = q.
Proof. unfold hundredths. intros Hp Hq E. rewrite <- Hp, <- Hq. apply roundTo_comp. exact E. Qed.

Lemma roundTo_on_grid (x q : Q) : x == q -> hundredths q -> roundTo x = q.
Proof. intros Hx Hq. rewrite (roundTo_comp x q Hx). exact Hq. Qed.

End GridFacts.

(** ** A second pass over a settled list *)

Module SettledFacts.
Import Transcription Settling GridFacts.

Lemma again_start (s : FSegment) : fs_start (again s) = fs_start s.
Proof. reflexivity. Qed.

Lemma again_text (s : FSegment) : fs_text (again s) = fs_text s.
Proof. reflexivity. Qed.

Lemma again_end (s : FSegment) :
  fs_end (again s)
  = if Js.ltb (fs_end s - fs_start s) MIN_SEGMENT_DURATION
    then fs_start s + MIN_SEGMENT_DURATION else fs_end s.
Proof. reflexivity. Qed.

Lemma again_words (s : FSegment) :
  fs_words (again s)
  = option_map (map (fun w => sanitize_word (fs_start s) (as_word w))) (fs_words s).
Proof.
  unfold again, sanitize, as_segment. cbn [fs_words s_words s_start Js.finite_or].
  destruct (fs_words s) as [ws|]; [|reflexivity]. cbn [option_map]. rewrite map_map.
  reflexivity.
Qed.

Lemma settled_starts (duration : option Q) (s : FSegment) (next : option FSegment) :
  segment_settled duration s next -> starts_by_duration duration s.
Proof.
  intros (Ha & _ & _ & _ & _ & _ & Hd). split; [exact Ha|].
  intros d ->. exact (proj1 Hd).
Qed.

Section Step.
Variables (duration : option Q) (cursor : Q) (s : FSegment) (next : option FSegment).
Hypothesis Hs : segment_settled duration s next.
Hypothesis Hc : meets duration cursor (fs_start s).
Hypothesis Hn : forall n, next = Some n -> starts_by_duration duration n.

Let b := sweep_bounds duration cursor (again s) (option_map again next).

Lemma step_unknown_duration :
  duration = None -> fst b == fs_start s /\ snd b == fs_end s.
Proof.
  intros E. subst b. rewrite E in *.
  destruct Hs as (_ & _ & H0 & Hae & Hnext & _ & Hshape).
  destruct Hc as [Hca|(d & Hd & _)]; [|discriminate].
  unfold sweep_bounds. rewrite again_start, again_end. unfold MIN_SEGMENT_DURATION in *.
  destruct next as [n|]; cbn [option_map].
  - rewrite again_start. specialize (Hnext n eq_refl).
    destruct Hshape as [Hlong|(Hlt & n' & [= <-] & Hcut)]; split; qsolve.
  - destruct Hshape as [Hlong|(Hlt & n' & [=] & _)]. split; qsolve.
Qed.

(** With a duration [d]: where the bounds of the step lie. *)
Lemma step_known_duration (d : Q) :
  duration = Some d ->
  (fst b == fs_start s \/ (fst b == d /\ fs_start s == roundTo d))
  /\ (snd b == fs_end s \/ (snd b == d /\ fs_end s == roundTo d))
  /\ (fs_start s < fs_end s -> fst b == fs_start s)
  /\ (forall n, next = Some n ->
       snd b <= fs_start n \/ (snd b == d /\ fs_start n == roundTo d)).
Proof.
  intros E. subst b. rewrite E in *.
  destruct Hs as (Ha & He & H0 & Hae & Hnext & _ & Hstart & Hshape).
  apply hundredths_on_grid in Ha, He.
  pose proof (roundTo_near d) as [Hr1 Hr2].
  pose proof (on_grid_near _ d (on_grid_segment _ Ha)) as Ta.
  assert (Hc' : cursor <= fs_start s \/ (cursor == d /\ fs_start s == roundTo d)).
  { destruct Hc as [H|(d' & [= <-] & H1 & H2)]; [left; exact H|].
    right. split; [exact H1 | rewrite H2; reflexivity]. }
  assert (Hstart' : fs_start s <= d \/ fs_start s == roundTo d).
  { destruct Hstart as [H|H]; [left; exact H | right; rewrite H; reflexivity]. }
  assert (Hshape' : (fs_start s + 0.2 <= fs_end s /\ fs_end s <= d)
                    \/ fs_end s == roundTo d).
  { destruct Hshape as [H|H]; [left; exact H | right; rewrite H; reflexivity]. }
  clear Hstart Hshape.
  unfold sweep_bounds. rewrite again_start, again_end. unfold MIN_SEGMENT_DURATION in *.
  unfold on_grid in *.
  destruct next as [n|]; cbn [option_map].
  - rewrite again_start. specialize (Hnext n eq_refl).
    destruct (Hn n eq_refl) as [Hna Hnd]. apply hundredths_on_grid in Hna.
    pose proof (on_grid_near (fs_start n) d Hna) as Tn. unfold on_grid in Hna.
    assert (Hnd' : fs_start n <= d \/ fs_start n == roundTo d).
    { destruct (Hnd d eq_refl) as [H|H]; [left; exact H | right; rewrite H; reflexivity]. }
    clear Hn Hnd.
    destruct Hc' as [Hc'|[Hc1 Hc2]], Hstart' as [Hs'|Hs'], Hshape' as [[Hl1 Hl2]|Hd'],
      Ta as [Ta|[Ta|Ta]], Tn as [Tn|[Tn|Tn]], Hnd' as [Hnd'|Hnd'];
      try (exfalso; lra);
      (split; [|split; [|split; [|intros n' [= <-]]]]);
      qcases; qprop;
      first [ exfalso; lra | intros; lra | left; lra | right; split; lra ].
  - destruct Hc' as [Hc'|[Hc1 Hc2]], Hstart' as [Hs'|Hs'], Hshape' as [[Hl1 Hl2]|Hd'],
      Ta as [Ta|[Ta|Ta]];
      try (exfalso; lra);
      (split; [|split; [|split; [|intros n' [=]]]]);
      qcases; qprop;
      first [ exfalso; lra | intros; lra | left; lra | right; split; lra ].
Qed.

End Step.

End SettledFacts.

Module SettledWords.
Import Transcription Settling GridFacts SettledFacts.

(** A value that is a hundredth, or a duration that rounds to it, rounds
    to that hundredth. *)
Lemma rounds_to (t q d : Q) :
  hundredths q -> t == q \/ (t == d /\ q == roundTo d) -> roundTo t = q.
Proof.
  intros Hq [H|[H1 H2]]; [apply roundTo_on_grid; assumption|].
  rewrite (roundTo_comp t d H1).
  apply hundredths_eq; [apply roundTo_idem | exact Hq | symmetry; exact H2].
Qed.

Section Words.
Variables (s : FSegment) (x y d : Q).
Hypothesis Hx : x == fs_start s.
Hypothesis Hy : y == fs_end s \/ (y == d /\ fs_end s == roundTo d).
Hypothesis He : hundredths (fs_end s).

Lemma bound_word_settled (isLast : bool) (w : FWord) :
  word_settled s w ->
  (isLast = true -> fw_end w == fs_end s) ->
  bound_word x y isLast (sanitize_word (fs_start s) (as_word w)) = w
  /\ Js.ltb (fw_start w) y = true.
Proof.
  intros (Ha & Hb & H1 & H2 & H3 & H4) Hl. destruct w as [t a b].
  cbn [fw_start fw_end fw_word] in *.
  pose proof (roundTo_near d) as [Hr1 Hr2].
  pose proof (on_grid_near a d (hundredths_on_grid a Ha)) as Ta.
  pose proof (on_grid_near b d (hundredths_on_grid b Hb)) as Tb.
  pose proof (on_grid_near _ d (on_grid_word a (hundredths_on_grid a Ha))) as Tc.
  assert (Hw : a < y).
  { destruct Hy as [Hy'|[Hy1 Hy2]], Ta as [Ta|[Ta|Ta]]; lra. }
  split.
  - unfold bound_word, sanitize_word, as_word.
    cbn [w_word w_start w_end Js.finite_or fw_word fw_start fw_end]. cbv zeta.
    unfold MIN_WORD_DURATION in *. f_equal.
    + apply roundTo_on_grid; [|exact Ha]. qsolve.
    + apply (rounds_to _ b d Hb).
      destruct isLast.
      * specialize (Hl eq_refl). destruct Hy as [Hy'|[Hy1 Hy2]]; [left; lra|].
        right. split; lra.
      * clear Hl Ta.
        destruct Hy as [Hy'|[Hy1 Hy2]], H4 as [H4|H4], Tb as [Tb|[Tb|Tb]],
          Tc as [Tc|[Tc|Tc]];
          try (exfalso; lra);
          qcases; qprop; first [ exfalso; lra | left; lra | right; split; lra ].
  - unfold Js.ltb. rewrite Qle_bool_false_intro by exact Hw. reflexivity.
Qed.

Lemma bound_all_settled (ws : list FWord) :
  words_settled s ws ->
  bound_all x y (map (fun w => sanitize_word (fs_start s) (as_word w)) ws) = ws.
Proof.
  induction ws as [|w ws IH]; intros H; [reflexivity|].
  destruct ws as [|w' ws].
  - destruct H as [H Hend]. cbn [map bound_all]. f_equal.
    apply bound_word_settled; auto.
  - destruct H as [H Hr]. cbn [map] in *.
    change (bound_all x y (?a :: ?b :: ?c)) with (bound_word x y false a :: bound_all x y (b :: c)).
    f_equal; [|exact (IH Hr)].
    apply bound_word_settled; [exact H | discriminate].
Qed.

Lemma words_settled_all (ws : list FWord) :
  words_settled s ws -> Forall (word_settled s) ws.
Proof.
  induction ws as [|w ws IH]; intros H; [constructor|].
  destruct ws as [|w' ws].
  - destruct H as [H _]. constructor; [exact H | constructor].
  - destruct H as [H Hr]. constructor; [exact H | exact (IH Hr)].
Qed.

Lemma boundedWords_settled (ws : list FWord) :
  words_settled s ws ->
  boundedWords x y (map (fun w => sanitize_word (fs_start s) (as_word w)) ws) = ws.
Proof.
  intros H. unfold boundedWords. rewrite (bound_all_settled ws H).
  apply words_settled_all in H.
  induction H as [|w ws' Hw _ IH]; [reflexivity|].
  cbn [filter].
  rewrite (proj2 (bound_word_settled false w Hw ltac:(discriminate))).
  f_equal. exact IH.
Qed.

End Words.

End SettledWords.

Module SettledSweep.
Import Transcription Settling GridFacts SettledFacts SettledWords.

Lemma sorted_insert_fixed (x : FSegment) (l : list FSegment) :
  (forall y, hd_error l = Some y -> fs_start x <= fs_start y) ->
  insert_by_start x l = x :: l.
Proof.
  destruct l as [|y l]; intros H; [reflexivity|].
  cbn [insert_by_start]. unfold Js.leb.
  rewrite Qle_bool_true_intro by (apply H; reflexivity). reflexivity.
Qed.

Lemma hd_error_map {A B : Type} (f : A -> B) (l : list A) :
  hd_error (map f l) = option_map f (hd_error l).
Proof. destruct l; reflexivity. Qed.

Lemma sort_settled (duration : option Q) (l : list FSegment) :
  settled duration l -> sort_by_start (map again l) = map again l.
Proof.
  unfold sort_by_start. induction l as [|s l IH]; intros H; [reflexivity|].
  destruct H as [Hs Hl]. cbn [map fold_right]. rewrite (IH Hl).
  apply sorted_insert_fixed. intros y Hy. rewrite hd_error_map in Hy.
  destruct (hd_error l) as [n|] eqn:E; [|discriminate]. injection Hy as <-.
  rewrite !again_start.
  destruct Hs as (_ & _ & _ & Hae & Hnext & _). specialize (Hnext n eq_refl). lra.
Qed.

Lemma settled_next_starts (duration : option Q) (l : list FSegment) (n : FSegment) :
  settled duration l -> hd_error l = Some n -> starts_by_duration duration n.
Proof.
  destruct l as [|s l]; [discriminate|]. intros [Hs _] [= <-].
  exact (settled_starts duration s _ Hs).
Qed.

Lemma no_word_in_empty_segment (s : FSegment) (ws : list FWord) :
  fs_end s <= fs_start s -> words_settled s ws -> ws = [].
Proof.
  intros Hz H. destruct ws as [|w ws]; [reflexivity|]. exfalso.
  apply words_settled_all in H. apply Forall_inv in H.
  destruct H as (_ & _ & H1 & H2 & _). lra.
Qed.

Lemma sweep_settled (duration : option Q) (l : list FSegment) :
  forall cursor,
    settled duration l ->
    (forall a, hd_error l = Some a -> meets duration cursor (fs_start a)) ->
    sweep duration cursor (map again l) = l.
Proof.
  induction l as [|s l IH]; intros cursor Hl Hc; [reflexivity|].
  destruct Hl as [Hs Hl]. cbn [map]. rewrite SweepFacts.sweep_cons. cbv zeta.
  rewrite hd_error_map.
  specialize (Hc s eq_refl).
  assert (Hn : forall n, hd_error l = Some n -> starts_by_duration duration n)
    by (intros n; apply settled_next_starts; exact Hl).
  set (b := sweep_bounds duration cursor (again s) (option_map again (hd_error l))).
  assert (Hb : roundTo (fst b) = fs_start s /\ roundTo (snd b) = fs_end s
               /\ (forall n, hd_error l = Some n -> meets duration (snd b) (fs_start n))
               /\ (fs_start s < fs_end s ->
                   fst b == fs_start s
                   /\ (snd b == fs_end s
                       \/ exists d, snd b == d /\ fs_end s == roundTo d))).
  { pose proof Hs as (Ha & He & _ & _ & Hnext & _).
    destruct duration as [d|] eqn:Ed.
    - destruct (step_known_duration (Some d) cursor s (hd_error l) Hs Hc Hn d eq_refl)
        as (H1 & H2 & H3 & H4). fold b in H1, H2, H3, H4.
      split; [exact (rounds_to _ _ d Ha H1)|].
      split; [exact (rounds_to _ _ d He H2)|]. split.
      + intros n En. destruct (H4 n En) as [H|[H5 H6]]; [left; exact H|].
        right. exists d. split; [reflexivity|]. split; [exact H5|].
        apply hundredths_eq; [exact (proj1 (Hn n En)) | apply roundTo_idem | exact H6].
      + intros Hlt. split; [exact (H3 Hlt)|].
        destruct H2 as [H2|H2]; [left; exact H2 | right; exists d; exact H2].
    - destruct (step_unknown_duration None cursor s (hd_error l) Hs Hc Hn eq_refl)
        as [H1 H2]. fold b in H1, H2.
      split; [exact (roundTo_on_grid _ _ H1 Ha)|].
      split; [exact (roundTo_on_grid _ _ H2 He)|]. split.
      + intros n En. left. specialize (Hnext n En). lra.
      + intros _. split; [exact H1 | left; exact H2]. }
  destruct Hb as (Hx & Hy & Hm & Hw).
  f_equal.
  - destruct s as [t a e ws]. rewrite again_words. cbn [fs_text fs_start fs_end fs_words] in *.
    rewrite again_text. cbn [fs_text]. f_equal; [exact Hx | exact Hy |].
    destruct ws as [ws|]; [|reflexivity]. cbn [option_map]. f_equal.
    destruct Hs as (_ & He & _ & Hae & _ & Hws & _).
    cbn [fs_start fs_end fs_words] in *.
    destruct (Qlt_le_dec a e) as [Hlt|Hge].
    + destruct (Hw Hlt) as [Hfx Hfy].
      destruct Hfy as [Hfy|(d & Hfy)].
      * apply (boundedWords_settled (mkFSegment t a e (Some ws)) _ _ 0);
          first [exact Hfx | left; exact Hfy | exact He | exact Hws].
      * apply (boundedWords_settled (mkFSegment t a e (Some ws)) _ _ d);
          first [exact Hfx | right; exact Hfy | exact He | exact Hws].
    + rewrite (no_word_in_empty_segment (mkFSegment t a e (Some ws)) ws Hge Hws).
      reflexivity.
  - apply IH; [exact Hl | exact Hm].
Qed.

(** A settled list is returned as it is. *)
Lemma settled_is_fixed (l : list FSegment) (totalDuration : option Q) :
  Settled totalDuration l -> normalizeSegments (map as_segment l) totalDuration = l.
Proof.
  intros H. unfold normalizeSegments, sanitized. rewrite map_map.
  change (map (fun x => sanitize (as_segment x)) l) with (map again l).
  rewrite (sort_settled _ l H). apply sweep_settled; [exact H|].
  intros a Ha. left. destruct l as [|s l]; [discriminate|]. injection Ha as <-.
  destruct H as [(_ & _ & H0 & _) _]. exact H0.
Qed.

End SettledSweep.

(** ** The first pass over times in hundredths *)

Module GridSweep.
Import Transcription Settling GridFacts.

Lemma sanitize_grid (s : Segment) : times_on_grid s -> grid_segment (sanitize s).
Proof.
  intros (Ha & Hb & _). unfold grid_segment, sanitize.
  cbn [fs_words fs_start fs_end].
  assert (H1 : on_grid (Js.finite_or (s_start s) 0)).
  { destruct (s_start s) as [q|]; [exact (Ha q eq_refl) | exact on_grid_zero]. }
  split; [exact H1|].
  assert (H2 : on_grid (Js.finite_or (s_end s) (Js.finite_or (s_start s) 0))).
  { destruct (s_end s) as [q|]; [exact (Hb q eq_refl) | exact H1]. }
  destruct (Js.ltb _ _); [apply on_grid_segment; exact H1 | exact H2].
Qed.

Lemma sanitized_grid (segments : list Segment) :
  Forall times_on_grid segments -> Forall grid_segment (sanitized segments).
Proof.
  intros H. unfold sanitized.
  apply (Permutation_Forall (x := map sanitize segments)).
  - symmetry. apply NormalizeFacts.sort_by_start_perm.
  - apply Forall_map. eapply Forall_impl; [|exact H]. exact sanitize_grid.
Qed.

Lemma sanitized_plain (segments : list Segment) :
  Forall (fun s => s_words s = None) segments ->
  Forall (fun s => fs_words s = None) (sanitized segments).
Proof.
  intros H. unfold sanitized.
  apply (Permutation_Forall (x := map sanitize segments)).
  - symmetry. apply NormalizeFacts.sort_by_start_perm.
  - apply Forall_map. eapply Forall_impl; [|exact H].
    intros s E. unfold sanitize. cbn [fs_words]. rewrite E. reflexivity.
Qed.

Lemma sweep_plain (duration : option Q) (l : list FSegment) (cursor : Q) :
  Forall (fun s => fs_words s = None) l ->
  Forall words_fit (sweep duration cursor l).
Proof.
  revert cursor. induction l as [|s l IH]; intros cursor H; [constructor|].
  rewrite SweepFacts.sweep_cons. cbv zeta. constructor.
  - unfold words_fit. cbn [fs_words]. rewrite (Forall_inv H). exact I.
  - apply IH. exact (Forall_inv_tail H).
Qed.

Section Step.
Variables (cursor : Q) (s : FSegment) (next : option FSegment).
Hypothesis Ha : on_grid (fs_start s).
Hypothesis He : on_grid (fs_end s).
Hypothesis Hn : forall n, next = Some n -> on_grid (fs_start n).

Ltac grid :=
  first [ assumption | apply on_grid_zero | apply on_grid_segment; grid ].

(** With no duration: the bounds are hundredths, and the segment lasts
    [MIN_SEGMENT_DURATION] or was cut at the start of the next one. *)
Lemma bounds_unknown_duration :
  on_grid cursor ->
  let b := sweep_bounds None cursor s next in
  on_grid (fst b) /\ on_grid (snd b)
  /\ (fst b + MIN_SEGMENT_DURATION <= snd b
      \/ (fst b < snd b /\ exists n, next = Some n /\ snd b = fs_start n)).
Proof.
  intros Hc. unfold sweep_bounds.
  destruct next as [n|].
  - specialize (Hn n eq_refl). split; [|split].
    + qcases; grid.
    + qcases; grid.
    + unfold MIN_SEGMENT_DURATION. qcases; qprop;
        first [ left; lra
              | right; split; [lra | exists n; split; reflexivity] ].
  - split; [|split].
    + qcases; grid.
    + qcases; grid.
    + left. unfold MIN_SEGMENT_DURATION. qsolve.
Qed.

(** With a duration [d]: the start is a hundredth or [d]; the end is [d],
    or it is a hundredth before [d] and the segment starts at a hundredth
    and lasts [MIN_SEGMENT_DURATION]. *)
Lemma bounds_known_duration (d : Q) :
  on_grid cursor \/ cursor == d ->
  let b := sweep_bounds (Some d) cursor s next in
  (on_grid (fst b) \/ fst b == d)
  /\ (snd b == d
      \/ (on_grid (fst b) /\ on_grid (snd b)
          /\ fst b + MIN_SEGMENT_DURATION <= snd b /\ snd b <= d)).
Proof.
  intros Hc. unfold sweep_bounds, MIN_SEGMENT_DURATION.
  destruct next as [n|].
  - specialize (Hn n eq_refl). split.
    + destruct Hc as [Hc|Hc]; qcases; qprop;
        first [ left; grid | right; lra ].
    + destruct Hc as [Hc|Hc]; qcases; qprop;
        first [ left; lra
              | right; split; [grid | split; [grid | split; lra]] ].
  - split.
    + destruct Hc as [Hc|Hc]; qcases; qprop;
        first [ left; grid | right; lra ].
    + destruct Hc as [Hc|Hc]; qcases; qprop;
        first [ left; lra
              | right; split; [grid | split; [grid | split; lra]] ].
Qed.

End Step.

End GridSweep.

Module GridSettled.
Import Transcription Settling GridFacts GridSweep.

Lemma roundTo_nonneg (x : Q) : 0 <= x -> 0 <= roundTo x.
Proof. intros H. rewrite <- NormalizeFacts.roundTo_zero. apply roundTo_le. exact H. Qed.

(** A mapped word has times in hundredths, lies in the rounded bounds and
    lasts [MIN_WORD_DURATION] unless it ends with the segment. *)
Lemma bound_word_fits (x y : Q) (isLast : bool) (w : FWord) :
  x <= y ->
  let w' := bound_word x y isLast w in
  hundredths (fw_start w') /\ hundredths (fw_end w')
  /\ roundTo x <= fw_start w' /\ fw_end w' <= roundTo y
  /\ (fw_start w' + MIN_WORD_DURATION <= fw_end w' \/ fw_end w' == roundTo y).
Proof.
  intros Hxy. unfold bound_word. cbv zeta. cbn [fw_start fw_end].
  unfold MIN_WORD_DURATION.
  split; [apply roundTo_idem|]. split; [apply roundTo_idem|].
  split; [apply roundTo_le; qsolve|]. split; [apply roundTo_le; destruct isLast; qsolve|].
  set (a := clamp (fw_start w) x y).
  assert (H : forall e, a + (5 # 100) <= e \/ e == y ->
                        roundTo a + 0.05 <= roundTo e \/ roundTo e == roundTo y).
  { intros e [H|H]; [left; exact (roundTo_gap a e 5 H)|].
    right. rewrite (roundTo_comp e y H). reflexivity. }
  apply H. destruct isLast; [right; reflexivity|].
  generalize a. intros a'. qcases; qprop; first [ left; lra | right; lra ].
Qed.

Lemma bound_all_in (x y : Q) (ws : list FWord) (w' : FWord) :
  In w' (bound_all x y ws) -> exists isLast w, w' = bound_word x y isLast w.
Proof.
  induction ws as [|w ws IH]; [intros []|].
  destruct ws as [|w2 ws].
  - intros [<-|[]]. exists true, w. reflexivity.
  - change (bound_all x y (w :: w2 :: ws))
      with (bound_word x y false w :: bound_all x y (w2 :: ws)).
    intros [<-|H]; [exists false, w; reflexivity | exact (IH H)].
Qed.

Lemma last_of_cons {A : Type} (l : list A) (a d d' : A) :
  last (a :: l) d = last (a :: l) d'.
Proof.
  revert a. induction l as [|b l IH]; intros a; [reflexivity|].
  change (last (b :: l) d = last (b :: l) d'). apply IH.
Qed.

Lemma words_settled_intro (s : FSegment) (ws : list FWord) :
  Forall (word_settled s) ws ->
  match ws with [] => True | w :: _ => fw_end (last ws w) == fs_end s end ->
  words_settled s ws.
Proof.
  induction ws as [|w ws IH]; intros Hall Hlast; [exact I|].
  destruct ws as [|w2 ws].
  - split; [exact (Forall_inv Hall) | exact Hlast].
  - split; [exact (Forall_inv Hall)|].
    apply IH; [exact (Forall_inv_tail Hall)|].
    change (last (w :: w2 :: ws) w) with (last (w2 :: ws) w) in Hlast.
    rewrite (last_of_cons ws w2 w w2) in Hlast.
    exact Hlast.
Qed.

(** The words kept for a returned segment are settled as soon as they fit. *)
Lemma kept_words_settled (text : string) (x y : Q) (ws : list FWord) :
  x <= y ->
  let o := {| fs_text := text; fs_start := roundTo x; fs_end := roundTo y;
              fs_words := Some (boundedWords x y ws) |} in
  words_fit o -> words_settled o (boundedWords x y ws).
Proof.
  intros Hxy o [Hstart Hlast]. apply words_settled_intro; [|exact Hlast].
  apply Forall_forall. intros w' Hin.
  pose proof (proj1 (Forall_forall _ _) Hstart w' Hin) as Hs.
  unfold boundedWords in Hin. apply filter_In in Hin. destruct Hin as [Hin _].
  destruct (bound_all_in x y ws w' Hin) as (isLast & w & ->).
  destruct (bound_word_fits x y isLast w Hxy) as (H1 & H2 & H3 & H4 & H5).
  unfold word_settled. cbn [fs_start fs_end] in *.
  repeat split; assumption.
Qed.

Lemma sweep_grid_settled (duration : option Q) (l : list FSegment) :
  (forall d, duration = Some d -> 0 <= d) ->
  forall cursor,
    Forall grid_segment l ->
    0 <= cursor -> grid_or duration cursor -> within duration cursor ->
    Forall words_fit (sweep duration cursor l) ->
    settled duration (sweep duration cursor l).
Proof.
  intros Hd. induction l as [|s l IH]; intros cursor Hl Hc0 Hcg Hcw Hfit; [exact I|].
  pose proof (Forall_inv Hl) as (Ha & He). pose proof (Forall_inv_tail Hl) as Hl'.
  rewrite SweepFacts.sweep_cons in *. cbv zeta in *.
  set (b := sweep_bounds duration cursor s (hd_error l)) in *.
  pose proof (SweepFacts.sweep_bounds_ordered duration cursor s (hd_error l)) as Hord.
  pose proof (SweepFacts.sweep_bounds_within duration cursor s (hd_error l)) as Hin.
  pose proof (NormalizeFacts.sweep_bounds_nonneg duration cursor s (hd_error l) Hd Hc0)
    as H0.
  fold b in Hord, Hin, H0.
  assert (Hn : forall n, hd_error l = Some n -> on_grid (fs_start n)).
  { intros n En. destruct l as [|n' l']; [discriminate|]. injection En as ->.
    exact (proj1 (Forall_inv Hl')). }
  assert (Hy0 : 0 <= snd b) by lra.
  assert (Hshape :
            grid_or duration (snd b)
            /\ match duration with
               | None =>
                   roundTo (fst b) + MIN_SEGMENT_DURATION <= roundTo (snd b)
                   \/ (roundTo (fst b) < roundTo (snd b)
                       /\ exists n, hd_error (sweep duration (snd b) l) = Some n
                                    /\ roundTo (snd b) == fs_start n)
               | Some d =>
                   (roundTo (fst b) <= d \/ roundTo (fst b) = roundTo d)
                   /\ ((roundTo (fst b) + MIN_SEGMENT_DURATION <= roundTo (snd b)
                        /\ roundTo (snd b) <= d)
                       \/ roundTo (snd b) = roundTo d)
               end).
  { clear Hfit IH. destruct duration as [d|] eqn:Ed.
    - assert (Hc : on_grid cursor \/ cursor == d).
      { destruct Hcg as [H|(d' & [= <-] & H)]; [left | right]; exact H. }
      destruct (bounds_known_duration cursor s (hd_error l) Ha He Hn d Hc) as [Hx Hy].
      fold b in Hx, Hy. specialize (Hin d eq_refl). unfold MIN_SEGMENT_DURATION in *.
      split; [|split].
      + destruct Hy as [Hy|(_ & Hy & _)]; [right; exists d; split; [reflexivity|exact Hy]|].
        left. exact Hy.
      + destruct Hx as [Hx|Hx]; [left; unfold on_grid in Hx; lra|].
        right. apply roundTo_comp. exact Hx.
      + destruct Hy as [Hy|(Hgx & Hgy & Hlen & Hle)].
        * right. apply roundTo_comp. exact Hy.
        * left. unfold on_grid in Hgx, Hgy. split; lra.
    - assert (Hc : on_grid cursor).
      { destruct Hcg as [H|(d' & [=] & _)]. exact H. }
      destruct (bounds_unknown_duration cursor s (hd_error l) Ha He Hn Hc)
        as (Hgx & Hgy & Hlen). fold b in Hgx, Hgy, Hlen.
      split; [left; exact Hgy|]. unfold MIN_SEGMENT_DURATION in *.
      unfold on_grid in Hgx, Hgy.
      destruct Hlen as [Hlen|(Hlt & n & En & Ecut)]; [left; lra|].
      right. split; [lra|].
      destruct l as [|n' l']; [discriminate|]. cbn [hd_error] in En. injection En as ->.
      rewrite SweepFacts.sweep_cons. cbv zeta. cbn [hd_error].
      eexists. split; [reflexivity|]. cbn [fs_start].
      rewrite (SweepFacts.sweep_start_at_cursor (snd b) n (hd_error l') Ecut).
      rewrite Ecut. reflexivity. }
  destruct Hshape as [Hgy Hshape].
  split.
  - unfold segment_settled. cbn [fs_start fs_end fs_words].
    split; [apply roundTo_idem|]. split; [apply roundTo_idem|].
    split; [apply roundTo_nonneg; exact H0|].
    split; [apply roundTo_le; exact Hord|]. split.
    + intros n En.
      destruct (SweepFacts.sweep_sorted_from duration l (snd b) Hin) as [_ Hh].
      exact (proj1 (Hh n En)).
    + split; [|destruct duration as [d|]; exact Hshape].
      pose proof (Forall_inv Hfit) as Hw. clear Hfit.
      destruct (fs_words s) as [ws|]; [|exact I]. cbn [option_map] in *.
      exact (kept_words_settled (fs_text s) (fst b) (snd b) ws Hord Hw).
  - apply IH; try assumption. exact (Forall_inv_tail Hfit).
Qed.

Lemma safeDuration_nonneg (totalDuration : option Q) :
  (forall d, totalDuration = Some d -> 0 <= d) ->
  forall d, safeDuration totalDuration = Some d -> 0 <= d.
Proof.
  intros Hd d E. unfold safeDuration in E. destruct totalDuration as [d'|]; [|discriminate].
  destruct (Qeq_bool d' 0); [discriminate|]. injection E as <-. exact (Hd d' eq_refl).
Qed.

(** What [normalizeSegments] returns for segments whose times are
    hundredths is settled as soon as the returned words fit. *)
Lemma grid_output_is_settled (segments : list Segment) (totalDuration : option Q) :
  Forall times_on_grid segments ->
  (forall d, totalDuration = Some d -> 0 <= d) ->
  Forall words_fit (normalizeSegments segments totalDuration) ->
  Settled totalDuration (normalizeSegments segments totalDuration).
Proof.
  intros Hp Hd Hfit. unfold Settled, normalizeSegments.
  apply sweep_grid_settled.
  - exact (safeDuration_nonneg totalDuration Hd).
  - apply sanitized_grid. exact Hp.
  - apply Qle_refl.
  - left. exact on_grid_zero.
  - exact (safeDuration_nonneg totalDuration Hd).
  - exact Hfit.
Qed.

(** Without word timing the returned words fit, there being none. *)
Lemma plain_output_fits (segments : list Segment) (totalDuration : option Q) :
  Forall plain_on_grid segments ->
  Forall words_fit (normalizeSegments segments totalDuration).
Proof.
  intros H. unfold normalizeSegments. apply sweep_plain. apply sanitized_plain.
  eapply Forall_impl; [|exact H]. intros s [E _]. exact E.
Qed.

End GridSettled.

(** ** What [transcribeVideo] passes to [normalizeSegments] *)

Module ShapeGrid.
Import Transcription Settling GridFacts Transcribe.

Lemma round_word_on_grid (w : Word) : fword_on_grid (round_word w).
Proof.
  unfold fword_on_grid, round_word. cbn [fw_start fw_end].
  assert (Hs : on_grid match w_start w with Some s => roundTo s | None => 0 end).
  { destruct (w_start w); [apply on_grid_roundTo | exact on_grid_zero]. }
  split; [exact Hs|].
  set (a := match w_start w with Some s => roundTo s | None => 0 end) in *.
  destruct (w_end w) as [e|].
  - destruct (Js.ltb _ _); [apply on_grid_word; exact Hs | apply on_grid_roundTo].
  - destruct (Js.ltb _ _); apply on_grid_word; exact Hs.
Qed.

Lemma as_word_on_grid (w : FWord) : fword_on_grid w -> word_on_grid (as_word w).
Proof.
  intros [Ha Hb]. split; cbn; intros q [= <-]; assumption.
Qed.

Lemma make_group_on_grid (currentGroup : list FWord) :
  Forall fword_on_grid currentGroup ->
  times_on_grid (segment_of_group (make_group currentGroup)).
Proof.
  intros H.
  assert (Hd : fword_on_grid dummy_word) by (split; exact on_grid_zero).
  assert (Hf : fword_on_grid (hd dummy_word currentGroup)).
  { destruct currentGroup; [exact Hd | exact (Forall_inv H)]. }
  assert (Hl : fword_on_grid (last currentGroup dummy_word)).
  { destruct currentGroup as [|c l] eqn:E0; [exact Hd|]. rewrite <- E0 in *.
    destruct (exists_last (l := currentGroup)) as (l' & a & E);
      [rewrite E0; discriminate|].
    rewrite E in *. rewrite last_last.
    apply Forall_app in H. exact (Forall_inv (proj2 H)). }
  unfold times_on_grid, segment_of_group, make_group.
  cbn [s_start s_end s_words g_start g_end g_words].
  split; [intros q [= <-]; exact (proj1 Hf)|]. split.
  - intros q [= <-]. unfold Js.max.
    destruct (Qle_bool _ _); [|exact (proj2 Hl)].
    first [ exact (proj2 Hl) | apply on_grid_segment; exact (proj1 Hf) ].
  - intros ws [= <-]. apply Forall_map.
    eapply Forall_impl; [|exact H]. exact as_word_on_grid.
Qed.

Lemma group_loop_on_grid (threshold : Q) (words : list Word) (currentGroup : list FWord) :
  Forall fword_on_grid currentGroup ->
  Forall times_on_grid (map segment_of_group (group_loop threshold words currentGroup)).
Proof.
  revert currentGroup. induction words as [|word rest IH]; intros currentGroup H.
  - destruct currentGroup as [|w l]; [constructor|].
    cbn [group_loop map]. constructor; [apply make_group_on_grid; exact H | constructor].
  - assert (Hg : Forall fword_on_grid (currentGroup ++ [round_word word])).
    { apply Forall_app. split; [exact H|].
      constructor; [apply round_word_on_grid | constructor]. }
    destruct (GroupingFacts.group_loop_step threshold word rest currentGroup)
      as [E|(E & _)]; rewrite E.
    + cbn [map]. constructor; [apply make_group_on_grid; exact Hg|].
      apply IH. constructor.
    + apply IH. exact Hg.
Qed.

Lemma groups_on_grid (words : list Word) :
  Forall times_on_grid (map segment_of_group (groupWordsByTiming words)).
Proof.
  unfold groupWordsByTiming. destruct words as [|w ws]; [constructor|].
  apply group_loop_on_grid. constructor.
Qed.

(** The segments that [transcribeVideo] hands to [normalizeSegments] have
    their times in hundredths. *)
Lemma shape_on_grid (duration : Q) (groqData : GroqData) :
  Forall times_on_grid (shape duration groqData).
Proof.
  unfold shape. destruct (gd_segments groqData) as [segs|].
  - destruct (List.concat (map segment_words segs)) as [|w ws] eqn:E.
    + clear E. induction segs as [|seg segs IH]; [constructor|].
      cbn [map List.concat]. apply Forall_app. split; [|exact IH].
      unfold segment_alone.
      assert (Hp : times_on_grid
                     (mkSegment (or_string (gs_text seg) EmptyString)
                        (Some (roundTo (or_number (gs_start seg) 0)))
                        (Some (roundTo (or_number (gs_end seg) 0))) None)).
      { split; [|split]; cbn; intros q; try discriminate;
          intros [= <-]; apply on_grid_roundTo. }
      destruct (gs_words seg) as [[|x xs]|];
        first [ constructor; [exact Hp | constructor] | constructor ].
    + apply groups_on_grid.
  - destruct (gd_words groqData) as [words|]; [apply groups_on_grid|].
    destruct (gd_text groqData) as [[|c s]|]; try constructor; [|constructor].
    split; [|split]; cbn; intros q; try discriminate; intros [= <-];
      [exact on_grid_zero | apply on_grid_roundTo].
Qed.

End ShapeGrid.

(** ** Lists that [normalizeSegments] leaves as they are *)

Module FixedPoint.
Import Transcription Settling Transcribe.

(** C4, amended.  [normalizeSegments] returns unchanged every settled
    list: times in hundredths from [0] on, each end by the next start,
    each segment lasting [MIN_SEGMENT_DURATION] unless it was cut (with no
    duration, at the start of the next segment; with a duration, at the
    duration), words inside their segment that last [MIN_WORD_DURATION] or
    end with it, the last word ending with it.  Given a known duration
    and times in hundredths, words included, as [transcribeVideo] passes
    them, the list it returns is settled, hence returned unchanged by a
    second pass, as soon as in every returned segment the words start
    before its end and the last of them ends with it; this is so whenever
    no segment has word timing.  The duration is one whose hundredths the
    engine finds as exact arithmetic does. *)
Theorem C4_settled_list_is_fixed :
  (forall l totalDuration,
      steady totalDuration ->
      Settled totalDuration l ->
      normalizeSegments (map as_segment l) totalDuration = l)
  /\ (forall segments d,
         0 < d -> steady (Some d) ->
         Forall times_on_grid segments ->
         let out := normalizeSegments segments (Some d) in
         Forall words_fit out ->
         Settled (Some d) out
         /\ normalizeSegments (map as_segment out) (Some d) = out)
  /\ (forall segments d,
         0 < d -> steady (Some d) ->
         Forall plain_on_grid segments ->
         let out := normalizeSegments segments (Some d) in
         Settled (Some d) out
         /\ normalizeSegments (map as_segment out) (Some d) = out)
  /\ (forall duration groqData out,
         0 < duration -> steady (Some duration) ->
         transcribeVideo duration (inl groqData) = inl out ->
         Forall words_fit out ->
         Settled (Some duration) out
         /\ normalizeSegments (map as_segment out) (Some duration) = out).
Proof.
  assert (Hgrid : forall segments d,
             0 < d -> Forall times_on_grid segments ->
             Forall words_fit (normalizeSegments segments (Some d)) ->
             Settled (Some d) (normalizeSegments segments (Some d))
             /\ normalizeSegments
                  (map as_segment (normalizeSegments segments (Some d))) (Some d)
                = normalizeSegments segments (Some d)).
  { intros segments d Hd Hg Hfit.
    assert (Hs : Settled (Some d) (normalizeSegments segments (Some d))).
    { apply GridSettled.grid_output_is_settled; [exact Hg | | exact Hfit].
      intros x [= <-]. apply Qlt_le_weak. exact Hd. }
    split; [exact Hs | apply SettledSweep.settled_is_fixed; exact Hs]. }
  split; [|split; [|split]].
  - intros l totalDuration _ H. apply SettledSweep.settled_is_fixed. exact H.
  - intros segments d Hd _ Hg out Hfit. exact (Hgrid segments d Hd Hg Hfit).
  - intros segments d Hd _ Hp out. apply (Hgrid segments d Hd).
    + eapply Forall_impl; [|exact Hp]. intros s [_ H]. exact H.
    + apply GridSettled.plain_output_fits. exact Hp.
  - intros duration groqData out Hd _ E Hfit. unfold transcribeVideo in E.
    destruct (Js.gtb duration 60); [discriminate|]. injection E as <-.
    apply (Hgrid _ duration Hd); [apply ShapeGrid.shape_on_grid | exact Hfit].
Qed.

(** C4, as stated, fails.  For the words "Thank" over [[0.28, 0.8]],
    "you." over [[0.83, 0.83]] and "Now" over [[0.83, 1]] in a video of 2
    seconds, [transcribeVideo] returns "Thank you." over [[0.28, 0.83]],
    cut at the start of "Now"; the word "you." starts at that end and is
    dropped, so that the only word left, "Thank", ends at [0.8].  A second
    pass of [normalizeSegments] makes that word, now the last one, end
    with the segment, at [0.83]. *)
Lemma C4_counterexample :
  exists out,
    transcribeVideo 2 (inl Samples.thank_you_answer) = inl out
    /\ map fs_text out = ["Thank you."; "Now"]%string
    /\ map (fun s => option_map (map fw_word) (fs_words s)) out
       = [Some ["Thank"]; Some ["Now"]]%string
    /\ (exists s w, hd_error out = Some s /\ fs_words s = Some [w]
                    /\ fs_end s == 0.83 /\ fw_end w == 0.8)
    /\ (exists s w,
           hd_error (normalizeSegments (map as_segment out) (Some 2)) = Some s
           /\ fs_words s = Some [w] /\ fs_end s == 0.83 /\ fw_end w == 0.83)
    /\ normalizeSegments (map as_segment out) (Some 2) <> out.
Proof.
  eexists. split; [vm_compute; reflexivity|].
  split; [reflexivity|]. split; [reflexivity|].
  split; [eexists; eexists; repeat split; reflexivity|].
  split; [eexists; eexists; split; [vm_compute; reflexivity|repeat split; reflexivity]|].
  vm_compute. discriminate.
Qed.

(** Settles the clauses of [Settled] on a given list. *)
Ltac settle :=
  repeat match goal with
    | |- _ /\ _ => split
    | |- True => exact I
    | |- hundredths _ => reflexivity
    | |- forall _, _ = _ -> _ => let E := fresh in intros ? E; vm_compute in E;
                                  first [discriminate E | injection E as <-]
    | |- Forall _ _ => constructor
    | |- _ \/ _ => first [ left; solve [settle] | right; solve [settle] ]
    | |- exists _, _ => eexists
    | |- _ <= _ => vm_compute; discriminate
    | |- _ < _ => vm_compute; reflexivity
    | |- _ == _ => vm_compute; reflexivity
    | |- _ = _ => vm_compute; reflexivity
    | |- words_fit _ => unfold words_fit
    | |- _ => progress cbn [fs_words fs_start fs_end fw_start fw_end last hd_error]
    end.

(** Two lists that a second pass returns unchanged: the two segments
    that were cut to [[0, 0.1]] and [[0.1, 1]], and what [transcribeVideo]
    returns for the words "hi", "there", "friend". *)
Lemma C4_settled_list_is_fixed_witness :
  (map (fun s => (fs_start s, fs_end s)) (normalizeSegments Samples.crowded_segments None)
   = [(0 # 100, 10 # 100); (10 # 100, 100 # 100)]
   /\ normalizeSegments
        (map as_segment (normalizeSegments Samples.crowded_segments None)) None
      = normalizeSegments Samples.crowded_segments None)
  /\ (exists out,
         transcribeVideo 2 (inl Samples.hi_there_answer) = inl out
         /\ normalizeSegments (map as_segment out) (Some 2) = out).
Proof.
  destruct C4_settled_list_is_fixed as (Hfixed & _ & _ & Hvideo).
  split.
  - split; [vm_compute; reflexivity|]. apply Hfixed.
    + intros d E. discriminate E.
    + vm_compute normalizeSegments. unfold Settled, safeDuration. cbn [settled].
      unfold segment_settled, words_settled, word_settled.
      cbn [fs_start fs_end fs_words hd_error].
      settle.
  - eexists. split; [vm_compute; reflexivity|].
    refine (proj2 (Hvideo 2 Samples.hi_there_answer _ _ _ _ _)).
    + reflexivity.
    + intros d [= <-]. vm_compute. reflexivity.
    + vm_compute. reflexivity.
    + settle.
Defined.

End FixedPoint.

(** ** The caption [getVisibleSubtitles] returns *)

Module WindowFacts.
Import Visibility Window VisibilityFacts.

Section Loop.
Variable adjustedTime : Q.

Lemma loop_earliest_is_word (ws : list CaptionExportWord) (acc : Acc) :
  a_earliest (fold_left (word_step adjustedTime) ws acc) = a_earliest acc
  \/ exists w, In w ws
       /\ a_earliest (fold_left (word_step adjustedTime) ws acc) = Fin (cw_start w).
Proof.
  revert acc. induction ws as [|w ws IH]; intros acc; cbn [fold_left]; [left; reflexivity|].
  destruct (IH (word_step adjustedTime acc w)) as [E|(w' & Hin & E)].
  - rewrite E, word_step_earliest.
    destruct (a_earliest acc) as [|q|]; cbn [ext_min].
    + left. reflexivity.
    + unfold Js.min. destruct (Qle_bool q (cw_start w)); [left; reflexivity|].
      right. exists w. split; [left; reflexivity | reflexivity].
    + right. exists w. split; [left; reflexivity | reflexivity].
  - right. exists w'. split; [right; exact Hin | exact E].
Qed.

Lemma loop_latest_is_word (ws : list CaptionExportWord) (acc : Acc) :
  a_latest (fold_left (word_step adjustedTime) ws acc) = a_latest acc
  \/ exists w, In w ws
       /\ a_latest (fold_left (word_step adjustedTime) ws acc) = Fin (cw_end w).
Proof.
  revert acc. induction ws as [|w ws IH]; intros acc; cbn [fold_left]; [left; reflexivity|].
  destruct (IH (word_step adjustedTime acc w)) as [E|(w' & Hin & E)].
  - rewrite E, word_step_latest.
    destruct (a_latest acc) as [|q|]; cbn [ext_max].
    + right. exists w. split; [left; reflexivity | reflexivity].
    + unfold Js.max. destruct (Qle_bool q (cw_end w)); [|left; reflexivity].
      right. exists w. split; [left; reflexivity | reflexivity].
    + left. reflexivity.
  - right. exists w'. split; [right; exact Hin | exact E].
Qed.

Lemma plain_scored_in_window (sub : CaptionExportSubtitle) (c : Candidate) :
  c = (let isInRange :=
         Js.geb adjustedTime (sub_start sub) && Js.leb adjustedTime (sub_end sub) in
       if isInRange
       then mkCandidate sub 50 true 0 (Fin (sub_start sub)) (Fin (sub_end sub))
       else
         let isAboutToStart :=
           Js.geb adjustedTime (sub_start sub - TIMING_BUFFER)
           && Js.ltb adjustedTime (sub_start sub) in
         if isAboutToStart
         then mkCandidate sub 10 false 0 (Fin (sub_start sub)) (Fin (sub_end sub))
         else mkCandidate sub 0 false 0 PosInf NegInf) ->
  (0 < score c)%Z ->
  sub_start sub - TIMING_BUFFER <= adjustedTime
  /\ (adjustedTime <= sub_end sub \/ adjustedTime < sub_start sub).
Proof.
  cbv zeta. unfold TIMING_BUFFER. intros -> H.
  destruct (Js.geb adjustedTime (sub_start sub) && Js.leb adjustedTime (sub_end sub)) eqn:E1.
  - apply andb_true_iff in E1. destruct E1. qunfold. qprop. split; [lra | left; assumption].
  - destruct (Js.geb adjustedTime (sub_start sub - 0.05)
              && Js.ltb adjustedTime (sub_start sub)) eqn:E2; cbn [score] in H; [|lia].
    apply andb_true_iff in E2. destruct E2 as [H1 H2]. qunfold.
    apply negb_true_iff in H2. qprop. split; [lra | right; assumption].
Qed.

Lemma scored_in_window (sub : CaptionExportSubtitle) :
  (0 < score (score_subtitle adjustedTime sub))%Z -> in_window adjustedTime sub.
Proof.
  unfold score_subtitle, in_window.
  destruct (sub_words sub) as [[|w ws]|].
  - apply plain_scored_in_window. reflexivity.
  - cbv zeta. cbn [score].
    set (acc := fold_left (word_step adjustedTime) (w :: ws) acc0).
    destruct (within_range adjustedTime (a_earliest acc) (a_latest acc)) eqn:E;
      cbn [negb]; [intros _|lia].
    unfold within_range in E. apply andb_true_iff in E. destruct E as [E1 E2].
    split.
    + destruct (loop_earliest_is_word (w :: ws) acc0) as [H|(w1 & Hin & H)];
        fold acc in H; rewrite H in E1.
      * discriminate.
      * exists w1. split; [exact Hin|]. qunfold. qprop. exact E1.
    + destruct (loop_latest_is_word (w :: ws) acc0) as [H|(w2 & Hin & H)];
        fold acc in H; rewrite H in E2.
      * discriminate.
      * exists w2. split; [exact Hin|]. qunfold. qprop. exact E2.
  - apply plain_scored_in_window. reflexivity.
Qed.

End Loop.

Lemma visible_is_scored (subtitles : list CaptionExportSubtitle) (t : Q)
  (r : CaptionExportSubtitle) :
  In r (getVisibleSubtitles subtitles t) ->
  In r subtitles
  /\ (0 < score (score_subtitle (t + TIMING_BUFFER) r))%Z
  /\ forall s, In s subtitles ->
       (0 < score (score_subtitle (t + TIMING_BUFFER) s))%Z ->
       outranks (score_subtitle (t + TIMING_BUFFER) r)
                (score_subtitle (t + TIMING_BUFFER) s).
Proof.
  unfold getVisibleSubtitles, candidates. cbv zeta.
  set (a := t + TIMING_BUFFER).
  set (scored := filter (fun c => (0 <? score c)%Z) (map (score_subtitle a) subtitles)).
  destruct (stable_sort compare_candidates scored) as [|h tl] eqn:E; [intros []|].
  intros [<-|[]].
  assert (Hh : In h scored).
  { apply (stable_sort_in compare_candidates). rewrite E. left. reflexivity. }
  pose proof (sorted_head_outranks scored h ltac:(rewrite E; reflexivity)) as Hout.
  apply filter_In in Hh. destruct Hh as [Hh Hpos].
  apply in_map_iff in Hh. destruct Hh as (r & <- & Hr).
  rewrite subtitle_of_score. split; [exact Hr|]. split; [apply Z.ltb_lt; exact Hpos|].
  intros s Hs Hsc. apply Hout. apply filter_In.
  split; [apply in_map; exact Hs | apply Z.ltb_lt; exact Hsc].
Qed.

(** X10.  A caption that [getVisibleSubtitles] returns is one of the given
    captions and the buffered time lies in its window. *)
Theorem visible_caption_in_window (subtitles : list CaptionExportSubtitle) (t : Q)
  (r : CaptionExportSubtitle) :
  In r (getVisibleSubtitles subtitles t) ->
  In r subtitles /\ in_window (t + TIMING_BUFFER) r.
Proof.
  intros H. destruct (visible_is_scored subtitles t r H) as (Hin & Hpos & _).
  split; [exact Hin | apply scored_in_window; exact Hpos].
Qed.

Lemma visible_caption_in_window_witness :
  In Samples.caption_A [Samples.caption_B; Samples.caption_A]
  /\ in_window (2 + TIMING_BUFFER) Samples.caption_A.
Proof.
  apply (visible_caption_in_window [Samples.caption_B; Samples.caption_A] 2).
  vm_compute. left. reflexivity.
Defined.

End WindowFacts.

(** ** [getVisibleSubtitles] over an arithmetic *)

Module RankingFacts.
Import Machine Visibility VisibilityFacts.

Section WordLoop.
Variables (A : Arith) (adjustedTime : Q).

Lemma word_step_on_active (acc : Acc) (w : CaptionExportWord) :
  a_active (VisibilityOn.word_step A adjustedTime acc w)
  = a_active acc || VisibilityOn.isActive A adjustedTime w.
Proof.
  unfold VisibilityOn.word_step. destruct (VisibilityOn.isActive A adjustedTime w); cbn.
  - apply eq_sym, orb_true_r.
  - rewrite orb_false_r.
    repeat match goal with |- context [if ?b then _ else _] => destruct b end; reflexivity.
Qed.

Lemma word_step_on_score (acc : Acc) (w : CaptionExportWord) :
  (a_score acc <= a_score (VisibilityOn.word_step A adjustedTime acc w))%Z
  /\ (VisibilityOn.isActive A adjustedTime w = true ->
      (a_score acc + 10 <= a_score (VisibilityOn.word_step A adjustedTime acc w))%Z).
Proof.
  unfold VisibilityOn.word_step. destruct (VisibilityOn.isActive A adjustedTime w); cbn.
  - split; intros; lia.
  - split; [|discriminate].
    repeat match goal with |- context [if ?b then _ else _] => destruct b end; cbn; lia.
Qed.

Lemma loop_on_active (ws : list CaptionExportWord) (acc : Acc) :
  a_active (fold_left (VisibilityOn.word_step A adjustedTime) ws acc)
  = a_active acc || existsb (VisibilityOn.isActive A adjustedTime) ws.
Proof.
  revert acc. induction ws as [|w ws IH]; intros acc; cbn [fold_left existsb].
  - symmetry. apply orb_false_r.
  - rewrite IH, word_step_on_active. symmetry. apply orb_assoc.
Qed.

Lemma loop_on_score_mono (ws : list CaptionExportWord) (acc : Acc) :
  (a_score acc <= a_score (fold_left (VisibilityOn.word_step A adjustedTime) ws acc))%Z.
Proof.
  revert acc. induction ws as [|w ws IH]; intros acc; cbn [fold_left]; [lia|].
  specialize (IH (VisibilityOn.word_step A adjustedTime acc w)).
  pose proof (word_step_on_score acc w) as [H _]. lia.
Qed.

Lemma loop_on_score_active (ws : list CaptionExportWord) (acc : Acc) :
  existsb (VisibilityOn.isActive A adjustedTime) ws = true ->
  (a_score acc + 10
   <= a_score (fold_left (VisibilityOn.word_step A adjustedTime) ws acc))%Z.
Proof.
  revert acc. induction ws as [|w ws IH]; intros acc H; [discriminate|].
  cbn [existsb fold_left] in *.
  destruct (VisibilityOn.isActive A adjustedTime w) eqn:Ew.
  - pose proof (word_step_on_score acc w) as [_ Hs]. specialize (Hs Ew).
    pose proof (loop_on_score_mono ws (VisibilityOn.word_step A adjustedTime acc w)). lia.
  - cbn [orb] in H. specialize (IH (VisibilityOn.word_step A adjustedTime acc w) H).
    pose proof (word_step_on_score acc w) as [Hs _]. lia.
Qed.

(** A scoring caption with an active word is flagged and scores at least 110. *)
Lemma active_word_candidate_on (sub : CaptionExportSubtitle) :
  VisibilityOn.has_active_word A adjustedTime sub = true ->
  (0 < score (VisibilityOn.score_subtitle A adjustedTime sub))%Z ->
  hasActiveWord (VisibilityOn.score_subtitle A adjustedTime sub) = true
  /\ (110 <= score (VisibilityOn.score_subtitle A adjustedTime sub))%Z.
Proof.
  unfold VisibilityOn.has_active_word, VisibilityOn.score_subtitle.
  destruct (sub_words sub) as [[|w ws]|]; try discriminate. intros H.
  pose proof (loop_on_score_active (w :: ws) acc0 H) as Hsc.
  pose proof (loop_on_active (w :: ws) acc0) as Hflag. rewrite H in Hflag.
  cbn [a_active acc0 orb] in Hflag. cbn [a_score acc0] in Hsc.
  cbn [hasActiveWord score]. rewrite Hflag.
  destruct (VisibilityOn.within_range A adjustedTime _ _); cbn [negb]; [|lia].
  intros _. split; [reflexivity|].
  destruct (VisibilityOn.recently_started A adjustedTime _); lia.
Qed.

(** A flagged candidate above 50 points has an active word. *)
Lemma high_score_has_active_word_on (sub : CaptionExportSubtitle) :
  hasActiveWord (VisibilityOn.score_subtitle A adjustedTime sub) = true ->
  (50 < score (VisibilityOn.score_subtitle A adjustedTime sub))%Z ->
  VisibilityOn.has_active_word A adjustedTime sub = true.
Proof.
  unfold VisibilityOn.has_active_word, VisibilityOn.score_subtitle.
  destruct (sub_words sub) as [[|w ws]|].
  - cbv zeta. destruct (_ && _); [cbn; lia|]. destruct (_ && _); cbn; lia.
  - cbn [hasActiveWord score]. intros Hflag _.
    rewrite loop_on_active in Hflag. exact Hflag.
  - cbv zeta. destruct (_ && _); [cbn; lia|]. destruct (_ && _); cbn; lia.
Qed.

Lemma subtitle_of_score_on (sub : CaptionExportSubtitle) :
  subtitle (VisibilityOn.score_subtitle A adjustedTime sub) = sub.
Proof.
  unfold VisibilityOn.score_subtitle.
  destruct (sub_words sub) as [[|w ws]|]; try reflexivity; cbv zeta;
    destruct (_ && _); try reflexivity; destruct (_ && _); reflexivity.
Qed.

End WordLoop.

(** The caption returned is a scoring caption of the list that outranks
    every scoring caption of the list. *)
Lemma visible_is_best (A : Arith) (subtitles : list CaptionExportSubtitle) (t : Q)
  (r : CaptionExportSubtitle) :
  let a := VisibilityOn.adjustedTime A t in
  In r (VisibilityOn.getVisibleSubtitles A subtitles t) ->
  In r subtitles
  /\ (0 < score (VisibilityOn.score_subtitle A a r))%Z
  /\ forall s, In s subtitles ->
       (0 < score (VisibilityOn.score_subtitle A a s))%Z ->
       outranks (VisibilityOn.score_subtitle A a r) (VisibilityOn.score_subtitle A a s).
Proof.
  intros a. unfold VisibilityOn.getVisibleSubtitles, VisibilityOn.candidates. cbv zeta.
  fold a.
  set (scored := filter (fun c => (0 <? score c)%Z)
                        (map (VisibilityOn.score_subtitle A a) subtitles)).
  destruct (stable_sort compare_candidates scored) as [|h tl] eqn:E; [intros []|].
  intros [<-|[]].
  assert (Hh : In h scored).
  { apply (stable_sort_in compare_candidates). rewrite E. left. reflexivity. }
  pose proof (sorted_head_outranks scored h ltac:(rewrite E; reflexivity)) as Hout.
  apply filter_In in Hh. destruct Hh as [Hh Hpos].
  apply in_map_iff in Hh. destruct Hh as (r & <- & Hr).
  rewrite subtitle_of_score_on. split; [exact Hr|]. split; [apply Z.ltb_lt; exact Hpos|].
  intros s Hs Hsc. apply Hout. apply filter_In.
  split; [apply in_map; exact Hs | apply Z.ltb_lt; exact Hsc].
Qed.

Lemma visible_some (A : Arith) (subtitles : list CaptionExportSubtitle) (t : Q)
  (s : CaptionExportSubtitle) :
  In s subtitles ->
  (0 < score (VisibilityOn.score_subtitle A (VisibilityOn.adjustedTime A t) s))%Z ->
  exists r, VisibilityOn.getVisibleSubtitles A subtitles t = [r].
Proof.
  intros Hs Hpos. unfold VisibilityOn.getVisibleSubtitles, VisibilityOn.candidates.
  cbv zeta.
  set (a := VisibilityOn.adjustedTime A t) in *.
  set (scored := filter (fun c => (0 <? score c)%Z)
                        (map (VisibilityOn.score_subtitle A a) subtitles)).
  assert (Hin : In (VisibilityOn.score_subtitle A a s) scored).
  { apply filter_In. split; [apply in_map; exact Hs | apply Z.ltb_lt; exact Hpos]. }
  destruct (stable_sort compare_candidates scored) as [|h tl] eqn:E.
  - apply stable_sort_nil in E. rewrite E in Hin. destruct Hin.
  - exists (subtitle h). reflexivity.
Qed.

(** C6, as stated, fails.  At frame 3 of an export at 30 frames a second
    ([currentTime = 0.1]) caption X has a word over [[0.05, 0.15]], which
    holds [0.1 + 0.05], and scores; the caption returned is Y, whose only
    word starts at [0.18]. *)
Lemma C6_counterexample :
  ~ (forall (subtitles : list CaptionExportSubtitle) (t : Q),
        (exists s, In s subtitles
           /\ (0 < score (VisibilityOn.score_subtitle binary64
                            (VisibilityOn.adjustedTime binary64 t) s))%Z
           /\ has_active_word (t + 0.05) s = true) ->
        exists r, VisibilityOn.getVisibleSubtitles binary64 subtitles t = [r]
                  /\ has_active_word (t + 0.05) r = true).
Proof.
  intros H. specialize (H [Samples.caption_X; Samples.caption_Y] 0.1).
  destruct H as (r & Hr & Hact).
  - exists Samples.caption_X. split; [left; reflexivity|]. vm_compute. split; reflexivity.
  - vm_compute in Hr. injection Hr as <-. vm_compute in Hact. discriminate.
Qed.

(** C6, amended.  Whatever the arithmetic, [getVisibleSubtitles] returns at
    most one caption, and when some scoring caption of the list has a word
    that is active at the buffered time [a] as the code computes it
    ([start <= a <= end] for that [a]), the caption returned has a word
    that is active at [a]. *)
Theorem C6_one_caption_active_first
  (A : Arith) (subtitles : list CaptionExportSubtitle) (t : Q) :
  let a := VisibilityOn.adjustedTime A t in
  (List.length (VisibilityOn.getVisibleSubtitles A subtitles t) <= 1)%nat
  /\ ((exists s, In s subtitles
         /\ (0 < score (VisibilityOn.score_subtitle A a s))%Z
         /\ VisibilityOn.has_active_word A a s = true) ->
      exists r, VisibilityOn.getVisibleSubtitles A subtitles t = [r]
                /\ In r subtitles
                /\ VisibilityOn.has_active_word A a r = true).
Proof.
  intros a. split.
  - unfold VisibilityOn.getVisibleSubtitles.
    destruct (VisibilityOn.candidates A subtitles t); cbn; lia.
  - intros (s & Hs & Hpos & Hact).
    destruct (visible_some A subtitles t s Hs Hpos) as [r Hr].
    exists r. split; [exact Hr|].
    destruct (visible_is_best A subtitles t r) as (Hin & _ & Hout).
    { rewrite Hr. left. reflexivity. }
    split; [exact Hin|].
    destruct (active_word_candidate_on A a s Hact Hpos) as [Hflag Hscore].
    specialize (Hout s Hs Hpos). fold a in Hout.
    apply high_score_has_active_word_on.
    + destruct Hout as [[H1 _]|[H1 _]]; congruence.
    + destruct Hout as [[_ H2]|[_ H2]]; [congruence | lia].
Qed.

Lemma C6_one_caption_active_first_witness :
  exists r, VisibilityOn.getVisibleSubtitles binary64
              [Samples.caption_B; Samples.caption_A] 2 = [r]
            /\ In r [Samples.caption_B; Samples.caption_A]
            /\ VisibilityOn.has_active_word binary64
                 (VisibilityOn.adjustedTime binary64 2) r = true.
Proof.
  apply (proj2 (C6_one_caption_active_first binary64
                  [Samples.caption_B; Samples.caption_A] 2)).
  exists Samples.caption_A. split; [right; left; reflexivity|].
  split; vm_compute; reflexivity.
Defined.

(** X11.  Whatever the arithmetic, the caption returned ranks first among
    the captions as the code scores them: no scoring caption is flagged as
    having an active word when it is not, and among captions that agree on
    the flag none scores higher. *)
Theorem visible_caption_ranks_first (A : Arith) (subtitles : list CaptionExportSubtitle)
  (t : Q) (r s : CaptionExportSubtitle) :
  let a := VisibilityOn.adjustedTime A t in
  In r (VisibilityOn.getVisibleSubtitles A subtitles t) ->
  In s subtitles ->
  (0 < score (VisibilityOn.score_subtitle A a s))%Z ->
  outranks (VisibilityOn.score_subtitle A a r) (VisibilityOn.score_subtitle A a s).
Proof.
  intros a H. destruct (visible_is_best A subtitles t r H) as (_ & _ & Hout).
  exact (Hout s).
Qed.

Lemma visible_caption_ranks_first_witness :
  outranks (VisibilityOn.score_subtitle binary64 (VisibilityOn.adjustedTime binary64 0.1)
              Samples.caption_Y)
           (VisibilityOn.score_subtitle binary64 (VisibilityOn.adjustedTime binary64 0.1)
              Samples.caption_X).
Proof.
  apply (visible_caption_ranks_first binary64 [Samples.caption_X; Samples.caption_Y] 0.1).
  - vm_compute. left. reflexivity.
  - left. reflexivity.
  - vm_compute. reflexivity.
Defined.

End RankingFacts.

(** ** Word states over time *)

Module WordStageFacts.
Import Stage.

(** X13.  In both renderers a word never goes back to an earlier state as
    time goes on; in the canvas renderer it never reaches the faded state:
    a word of the drawn caption keeps an opacity of [0.3] or more. *)
Theorem word_stage_advances (w : CaptionExportWord) (t1 t2 : Q) :
  t1 <= t2 ->
  (stage (Dom.word_style t1 w) <= stage (Dom.word_style t2 w))%nat
  /\ (stage (Canvas.word_style t1 w) <= stage (Canvas.word_style t2 w))%nat
  /\ 0.3 <= opacity (Canvas.word_style t2 w).
Proof.
  intros H. split; [|split].
  - unfold Dom.word_style, TIMING_BUFFER.
    qcases; qprop; first [ exfalso; lra | vm_compute; lia ].
  - unfold Canvas.word_style, Canvas.buffer.
    qcases; qprop; first [ exfalso; lra | vm_compute; lia ].
  - unfold Canvas.word_style, Canvas.buffer. qcases; cbn [opacity]; lra.
Qed.

Lemma word_stage_advances_witness :
  (stage (Dom.word_style 1 Samples.faded_word)
   <= stage (Dom.word_style 3 Samples.faded_word))%nat
  /\ (stage (Canvas.word_style 1 Samples.faded_word)
      <= stage (Canvas.word_style 3 Samples.faded_word))%nat
  /\ 0.3 <= opacity (Canvas.word_style 3 Samples.faded_word).
Proof.
  apply (word_stage_advances Samples.faded_word 1 3). lra.
Defined.

End WordStageFacts.

(** ** The page after [updateCaptions] *)

Module PageFacts.
Import Stage Dom.

Lemma update_element_twice (a a' : Q) (e : CaptionElement) :
  in_range a (el_subtitle e) = true ->
  update_element a (update_element a' e) = update_element a e.
Proof.
  intros H. unfold update_element at 1 3.
  rewrite DomFacts.update_element_subtitle, H. f_equal.
  unfold update_element. destruct (in_range a' (el_subtitle e)); cbn [el_words];
    [|reflexivity].
  rewrite map_map. reflexivity.
Qed.

(** X15.  What the page shows after [updateCaptions(t)] does not depend on the
    time it was updated to before: a frame looks the same whether its
    worker rendered other frames first or not. *)
Theorem page_forgets_earlier_updates (page : list CaptionElement) (t t' : Q) :
  visible_state (updateCaptions t (updateCaptions t' page))
  = visible_state (updateCaptions t page).
Proof.
  unfold visible_state, updateCaptions. rewrite !map_map.
  apply map_ext. intros e.
  rewrite !DomFacts.update_element_display, !DomFacts.update_element_subtitle.
  destruct (in_range (t + TIMING_BUFFER) (el_subtitle e)) eqn:E; [|reflexivity].
  rewrite update_element_twice by exact E. reflexivity.
Qed.

End PageFacts.

(** ** The two renderers on captions without word timing *)

Module AgreementFacts.
Import Visibility Stage.

Lemma plain_candidate (a : Q) (s : CaptionExportSubtitle) :
  plain s ->
  hasActiveWord (score_subtitle a s) = Dom.in_range a s
  /\ (Dom.in_range a s = true -> score (score_subtitle a s) = 50%Z).
Proof.
  intros Hp. unfold score_subtitle, Dom.in_range.
  destruct Hp as [E|E]; rewrite E;
    destruct (Js.geb a (sub_start s) && Js.leb a (sub_end s)) eqn:R;
    cbn [hasActiveWord score]; (split; [|try reflexivity; discriminate]);
    try reflexivity;
    destruct (Js.geb a (sub_start s - TIMING_BUFFER) && Js.ltb a (sub_start s));
    reflexivity.
Qed.

(** X12.  For captions without word timing the two renderers agree: whenever
    the page displays some caption, [getVisibleSubtitles] returns one, and
    it is a caption the page displays too. *)
Theorem plain_captions_agree (subtitles : list CaptionExportSubtitle) (t : Q)
  (s : CaptionExportSubtitle) :
  Forall plain subtitles ->
  In s (Dom.displayed (Dom.updateCaptions t (map Dom.build subtitles))) ->
  exists r, getVisibleSubtitles subtitles t = [r]
            /\ In r (Dom.displayed (Dom.updateCaptions t (map Dom.build subtitles))).
Proof.
  intros Hplain Hs. rewrite Forall_forall in Hplain.
  assert (Hbuilt : map Dom.el_subtitle (map Dom.build subtitles) = subtitles).
  { rewrite map_map. cbn. apply map_id. }
  apply DomFacts.displayed_iff in Hs. rewrite Hbuilt in Hs. destruct Hs as [Hin Hr].
  assert (Hrange : Dom.in_range (t + TIMING_BUFFER) s = true).
  { apply DomFacts.in_range_iff. exact Hr. }
  destruct (plain_candidate (t + TIMING_BUFFER) s (Hplain s Hin)) as [Hact Hsc].
  specialize (Hsc Hrange). rewrite Hrange in Hact.
  destruct (getVisibleSubtitles subtitles t) as [|r tl] eqn:E.
  - exfalso. unfold getVisibleSubtitles in E.
    destruct (candidates subtitles t) as [|c cs] eqn:Ec; [|discriminate].
    unfold candidates in Ec. apply VisibilityFacts.stable_sort_nil in Ec.
    assert (Hc : In (score_subtitle (t + TIMING_BUFFER) s)
                    (filter (fun c => (0 <? score c)%Z)
                            (map (score_subtitle (t + TIMING_BUFFER)) subtitles))).
    { apply filter_In. split; [apply in_map; exact Hin|]. rewrite Hsc. reflexivity. }
    rewrite Ec in Hc. exact Hc.
  - assert (Hone : tl = []).
    { unfold getVisibleSubtitles in E. destruct (candidates subtitles t); [discriminate|].
      injection E as _ <-. reflexivity. }
    subst tl. exists r. split; [reflexivity|].
    destruct (WindowFacts.visible_is_scored subtitles t r) as (Hrin & _ & Hout).
    { rewrite E. left. reflexivity. }
    specialize (Hout s Hin ltac:(rewrite Hsc; reflexivity)).
    destruct (plain_candidate (t + TIMING_BUFFER) r (Hplain r Hrin)) as [Hract _].
    assert (Hr_range : Dom.in_range (t + TIMING_BUFFER) r = true).
    { rewrite <- Hract. destruct Hout as [[H1 _]|[H1 _]]; [exact H1 | congruence]. }
    apply DomFacts.displayed_iff. rewrite Hbuilt. split; [exact Hrin|].
    apply DomFacts.in_range_iff. exact Hr_range.
Qed.

Lemma plain_captions_agree_witness :
  exists r, getVisibleSubtitles Samples.adjacent_captions 0.45 = [r]
            /\ In r (Dom.displayed (Dom.updateCaptions 0.45
                                      (map Dom.build Samples.adjacent_captions))).
Proof.
  apply (plain_captions_agree Samples.adjacent_captions 0.45
           (nth 0 Samples.adjacent_captions (mkSubtitle EmptyString EmptyString 0 0 None))).
  - repeat constructor.
  - vm_compute. left. reflexivity.
Defined.

End AgreementFacts.

(** ** [setProgress] and [getProgress] *)

Module StoreFacts.
Import Progress Reports.

Lemma latest_snoc {A : Type} (l : list A) (x : A) : latest (l ++ [x]) = Some x.
Proof. unfold latest. rewrite map_app. cbn [map]. apply last_last. Qed.

Lemma find_other_key (exportId k : string) (m : list Update) :
  String.eqb k exportId = false ->
  find (fun kv => String.eqb (fst kv) exportId)
       (filter (fun kv => negb (String.eqb (fst kv) k)) m)
  = find (fun kv => String.eqb (fst kv) exportId) m.
Proof.
  intros Hk. induction m as [|[k' v] m IH]; [reflexivity|].
  cbn [filter find fst].
  destruct (String.eqb_spec k' k) as [->|Hne]; cbn [negb].
  - rewrite Hk. exact IH.
  - cbn [find fst]. rewrite IH. reflexivity.
Qed.

Lemma getProgress_set (exportId : string) (u : Update) (w : World) :
  getProgress exportId (setProgress u w)
  = if String.eqb (fst u) exportId then Some (snd u) else getProgress exportId w.
Proof.
  unfold getProgress, setProgress, store_set. cbn [progressStore find fst].
  destruct (String.eqb (fst u) exportId) eqn:E; [reflexivity|].
  rewrite find_other_key by exact E. reflexivity.
Qed.

Lemma updates_for_set (exportId : string) (u : Update) (w : World) :
  updates_for exportId (setProgress u w)
  = updates_for exportId w
    ++ (if String.eqb (fst u) exportId then [snd u] else []).
Proof.
  unfold updates_for, setProgress. cbn [published].
  rewrite filter_app, map_app. cbn [filter].
  destruct (String.eqb (fst u) exportId); reflexivity.
Qed.

Lemma store_follows_log (us : list Update) (w : World) (exportId : string) :
  getProgress exportId w = latest (updates_for exportId w) ->
  getProgress exportId (run_updates us w)
  = latest (updates_for exportId (run_updates us w)).
Proof.
  revert w. induction us as [|u us IH]; intros w Hw; [exact Hw|].
  unfold run_updates in *. cbn [fold_left]. apply IH.
  rewrite getProgress_set, updates_for_set.
  destruct (String.eqb (fst u) exportId).
  - symmetry. apply latest_snoc.
  - rewrite app_nil_r. exact Hw.
Qed.

End StoreFacts.

(** ** A request reports under one id *)

Module TagFacts.
Import Progress Tags.

Lemma tags_ret {A : Type} (id : string) (a : A) : tags id (ret a).
Proof. intros w H. exact H. Qed.

Lemma tags_throw {A : Type} (id : string) (msg : string) : tags id (@throw A msg).
Proof. intros w H. exact H. Qed.

Lemma tags_await (id : string) (ok : bool) (msg : string) : tags id (await ok msg).
Proof. intros w H. unfold await. destruct ok; exact H. Qed.

Lemma ids_ok_set (id : string) (u : Update) (w : World) :
  fst u = id -> ids_ok id w -> ids_ok id (setProgress u w).
Proof.
  intros Hu (Hs & Hp & Hq). unfold ids_ok, setProgress, store_set.
  cbn [progressStore published pending]. split; [|split].
  - constructor; [exact Hu|]. apply Forall_forall. intros x Hx.
    apply filter_In in Hx. rewrite Forall_forall in Hs. apply Hs. tauto.
  - apply Forall_app. split; [exact Hp | constructor; [exact Hu | constructor]].
  - exact Hq.
Qed.

Lemma tags_publish (id : string) (u : Update) : fst u = id -> tags id (publish u).
Proof. intros Hu w H. unfold publish. cbn [fst]. apply ids_ok_set; assumption. Qed.

Lemma tags_bind {A B : Type} (id : string) (m : M A) (k : A -> M B) :
  tags id m -> (forall a, tags id (k a)) -> tags id (bind m k).
Proof.
  intros Hm Hk w H. unfold bind. specialize (Hm w H).
  destruct (m w) as [w' [a|e]]; cbn [fst] in *; [apply Hk; exact Hm | exact Hm].
Qed.

Lemma tags_try_catch {A : Type} (id : string) (m : M A) (handler : string -> M A) :
  tags id m -> (forall e, tags id (handler e)) -> tags id (try_catch m handler).
Proof.
  intros Hm Hh w H. unfold try_catch. specialize (Hm w H).
  destruct (m w) as [w' [a|e]]; cbn [fst] in *; [exact Hm | apply Hh; exact Hm].
Qed.

Lemma tags_leave_running (id : string) (us : list Update) :
  Forall (fun u => fst u = id) us -> tags id (leave_running us).
Proof.
  intros Hus w (Hs & Hp & Hq). unfold leave_running, ids_ok.
  cbn [fst progressStore published pending].
  split; [exact Hs|]. split; [exact Hp|]. apply Forall_app. split; assumption.
Qed.

Section Callback.
Variables (id : string) (cb : Q -> Update).
Hypothesis cb_id : forall p, fst (cb p) = id.

Lemma tags_extract_reports (total : nat) (frames : list nat) (L : Z) :
  tags id (extract_reports total frames L cb).
Proof.
  revert L. induction frames as [|f rest IH]; intros L; cbn [extract_reports].
  - apply tags_ret.
  - destruct (min_one (frame_ratio f total)) as [p|]; [|apply IH].
    destruct (_ && _); [|apply IH].
    apply tags_bind; [apply tags_publish, cb_id | intros _; apply IH].
Qed.

Lemma tags_compose_reports (total : nat) (frames : list nat) (L : option Z) :
  tags id (compose_reports total frames L cb).
Proof.
  revert L. induction frames as [|f rest IH]; intros L; cbn [compose_reports].
  - apply tags_ret.
  - cbv zeta. destruct (floor_percent _) as [p|]; [|apply IH].
    destruct (min_one _) as [q|]; [|apply IH].
    destruct (_ || _); [|apply IH].
    apply tags_bind; [apply tags_publish, cb_id | intros _; apply IH].
Qed.

Lemma counter_reports_ids (total n from : nat) :
  Forall (fun u => fst u = id) (counter_reports total from n cb).
Proof.
  revert from. induction n as [|n IH]; intros from; cbn [counter_reports]; [constructor|].
  cbv zeta. destruct (_ =? _)%nat; [constructor; [apply cb_id | apply IH] | apply IH].
Qed.

Lemma tags_publish_all (us : list Update) :
  Forall (fun u => fst u = id) us -> tags id (publish_all us).
Proof.
  induction 1 as [|u us Hu Hus IH]; cbn [publish_all]; [apply tags_ret|].
  apply tags_bind; [apply tags_publish; exact Hu | intros _; exact IH].
Qed.

Lemma tags_extractVideoFrames (env : Env) : tags id (extractVideoFrames env cb).
Proof.
  unfold extractVideoFrames.
  repeat first [ apply tags_bind; [|intros ?] | apply tags_await | apply tags_ret
               | apply tags_extract_reports | apply tags_publish, cb_id ].
Qed.

Lemma tags_renderCaptionOverlays (env : Env) (total : nat) :
  tags id (renderCaptionOverlays env total cb).
Proof.
  unfold renderCaptionOverlays. apply tags_bind; [apply tags_await | intros _].
  cbv zeta. destruct (worker_failure env) as [[done late]|].
  - repeat first [ apply tags_bind; [|intros ?] | apply tags_throw
                 | apply tags_publish_all, counter_reports_ids
                 | apply tags_leave_running, counter_reports_ids ].
  - apply tags_publish_all, counter_reports_ids.
Qed.

Lemma tags_composeFinalVideo (env : Env) (total : nat) :
  tags id (composeFinalVideo env total cb).
Proof.
  unfold composeFinalVideo.
  repeat first [ apply tags_bind; [|intros ?] | apply tags_await
               | apply tags_compose_reports | apply tags_publish, cb_id ].
Qed.

End Callback.

Lemma tags_on_error (id : string) (e : string) : tags id (on_error id e).
Proof.
  unfold on_error. apply tags_bind; [apply tags_publish; reflexivity | intros _; apply tags_ret].
Qed.

Lemma tags_pipeline (env : Env) (id : string) : tags id (pipeline env id).
Proof.
  unfold pipeline.
  repeat first
    [ apply tags_extractVideoFrames; reflexivity
    | apply tags_renderCaptionOverlays; reflexivity
    | apply tags_composeFinalVideo; reflexivity
    | apply tags_await | apply tags_ret
    | apply tags_publish; reflexivity
    | apply tags_bind; [|intros ?] ].
Qed.

Lemma tags_render (env : Env) : tags (job_id env) (render env).
Proof.
  unfold render, job_id. cbv zeta.
  destruct (parts_ok env); cbn [negb]; [|apply tags_on_error].
  destruct (has_video env); cbn [negb].
  - destruct (payload env) as [[p|]|].
    + apply tags_try_catch; [apply tags_pipeline | intros e; apply tags_on_error].
    + apply tags_on_error.
    + apply tags_ret.
  - apply tags_ret.
Qed.

Lemma ids_ok_run (id : string) (us : list Update) (w : World) :
  Forall (fun u => fst u = id) us -> ids_ok id w ->
  ids_ok id (fold_left (fun w u => setProgress u w) us w).
Proof.
  intros Hus. revert w. induction Hus as [|u us Hu Hus IH]; intros w Hw; [exact Hw|].
  cbn [fold_left]. apply IH. apply ids_ok_set; assumption.
Qed.

Lemma ids_ok_serve (env : Env) : ids_ok (job_id env) (fst (serve env)).
Proof.
  unfold serve.
  assert (H : ids_ok (job_id env) (fst (render env empty_world))).
  { apply tags_render. repeat split; constructor. }
  destruct (render env empty_world) as [w r]. cbn [fst] in *.
  destruct H as (Hs & Hp & Hq). unfold drain.
  apply ids_ok_run; [exact Hq|]. repeat split; cbn; [exact Hs | exact Hp | constructor].
Qed.

(** X21.  Whatever the outcome of a request, every progress update it makes,
    those of workers left running included, goes under one id: the
    payload's [metadata.exportId] when the payload parses.  Under any
    other id, the [exportId] field of a request whose payload names
    another one included, nothing is published and nothing is stored. *)
Theorem other_ids_see_nothing (env : Env) (exportId : string) :
  exportId <> job_id env ->
  updates_for exportId (fst (serve env)) = []
  /\ getProgress exportId (fst (serve env)) = None.
Proof.
  intros Hne. destruct (ids_ok_serve env) as (Hs & Hp & _).
  assert (Hnone : forall l, Forall (fun u : Update => fst u = job_id env) l ->
                            filter (fun u => String.eqb (fst u) exportId) l = []).
  { induction 1 as [|u l Hu Hl IH]; [reflexivity|]. cbn [filter].
    destruct (String.eqb_spec (fst u) exportId); [congruence | exact IH]. }
  split.
  - unfold updates_for. rewrite (Hnone _ Hp). reflexivity.
  - unfold getProgress.
    destruct (find (fun kv => String.eqb (fst kv) exportId)
                   (progressStore (fst (serve env)))) as [u|] eqn:E; [|reflexivity].
    apply find_some in E. destruct E as [Hin Hk].
    rewrite Forall_forall in Hs. specialize (Hs u Hin).
    apply String.eqb_eq in Hk. congruence.
Qed.

Lemma other_ids_see_nothing_witness :
  updates_for "field-id" (fst (serve Inputs.mismatched_env)) = []
  /\ getProgress "field-id" (fst (serve Inputs.mismatched_env)) = None.
Proof.
  apply (other_ids_see_nothing Inputs.mismatched_env "field-id").
  vm_compute. discriminate.
Defined.

End TagFacts.

(** ** The fractions the stages report *)

Module ReportFacts.
Import Progress Reports.

Lemma reported_record (l : list Q) :
  map (fun u => progress (snd u)) (map record l) = l.
Proof. rewrite map_map. cbn. apply map_id. Qed.

Lemma published_run (us : list Update) (w : World) :
  published (run_updates us w) = published w ++ us.
Proof.
  revert w. induction us as [|u us IH]; intros w; [symmetry; apply app_nil_r|].
  unfold run_updates in *. cbn [fold_left]. rewrite IH. cbn [setProgress published].
  rewrite <- app_assoc. reflexivity.
Qed.

(** *** The stderr handler of [extractVideoFrames] *)

Lemma extract_reports_rising (total : nat) (frames : list nat) (cb : Q -> Update) :
  forall (L : Z) (w : World),
  exists l, published (fst (extract_reports total frames L cb w))
            = published w ++ map cb l
            /\ rising L l.
Proof.
  induction frames as [|f rest IH]; intros L w; cbn [extract_reports].
  - exists []. split; [symmetry; apply app_nil_r | exact I].
  - destruct (min_one (frame_ratio f total)) as [p|] eqn:Ep; [|apply IH].
    destruct ((L <? Qfloor (p * 100))%Z && (Qfloor (p * 100) mod 5 =? 0)%Z) eqn:Ec;
      [|apply IH].
    apply andb_true_iff in Ec. destruct Ec as [E1 E2].
    apply Z.ltb_lt in E1. apply Z.eqb_eq in E2.
    unfold bind, publish.
    destruct (IH (Qfloor (p * 100)) (setProgress (cb p) w)) as (l & Hl & Hr).
    exists (p :: l). split.
    + rewrite Hl. cbn [setProgress published map]. rewrite <- app_assoc. reflexivity.
    + cbn [rising]. repeat split; try assumption.
      exact (ProgressFacts.min_one_le _ _ Ep).
Qed.

Lemma rising_above (l : list Q) : forall L, rising L l ->
  Forall (fun q => (L < Qfloor (q * 100))%Z) l.
Proof.
  induction l as [|p l IH]; intros L H; [constructor|].
  destruct H as (H1 & _ & _ & H4). constructor; [exact H1|].
  eapply Forall_impl; [|exact (IH _ H4)]. cbn beta. intros q Hq. lia.
Qed.

Lemma floor_lt_lt (p q : Q) : (Qfloor (p * 100) < Qfloor (q * 100))%Z -> p < q.
Proof.
  intros H.
  pose proof (ProgressFacts.floor_upper (p * 100)) as Hp.
  pose proof (ProgressFacts.floor_lower (q * 100)) as Hq.
  pose proof (ProgressFacts.Zle_Q (Qfloor (p * 100) + 1) (Qfloor (q * 100)) ltac:(lia)) as Hz.
  rewrite inject_Z_plus in Hz. change (inject_Z 1) with 1 in Hz. lra.
Qed.

Lemma rising_sorted (l : list Q) : forall L, rising L l -> StronglySorted Qlt l.
Proof.
  induction l as [|p l IH]; intros L H; [constructor|].
  destruct H as (_ & _ & _ & H4). constructor; [exact (IH _ H4)|].
  eapply Forall_impl; [|exact (rising_above _ _ H4)]. cbn beta. apply floor_lt_lt.
Qed.

Lemma rising_length (l : list Q) : forall L,
  (L mod 5 = 0)%Z -> rising L l -> (5 * Z.of_nat (List.length l) <= 100 - L)%Z
                                   \/ l = [].
Proof.
  induction l as [|p l IH]; intros L HL H; [right; reflexivity|]. left.
  destruct H as (H1 & H2 & H3 & H4).
  assert (H100 : (Qfloor (p * 100) <= 100)%Z).
  { assert (Hp : p * 100 <= inject_Z 100) by (change (inject_Z 100) with 100; lra).
    apply Qfloor_resp_le in Hp. rewrite Qfloor_Z in Hp. exact Hp. }
  assert (Hstep : (L + 5 <= Qfloor (p * 100))%Z).
  { apply Z.mod_divide in HL; [|lia]. apply Z.mod_divide in H2; [|lia].
    destruct HL as [a Ha], H2 as [b Hb]. lia. }
  destruct (IH _ H2 H4) as [Hlen| ->]; cbn [List.length]; lia.
Qed.

(** X23.  The stderr handler of [extractVideoFrames] throttles: whatever frame
    numbers ffmpeg prints, the fractions it reports rise strictly, each is
    a multiple of five percent between [0.05] and [1], and there are at
    most twenty of them. *)
Theorem extract_reports_throttled (total : nat) (frames : list nat) :
  let l := reported (extract_reports total frames 0 record) in
  StronglySorted Qlt l
  /\ (List.length l <= 20)%nat
  /\ Forall (fun p => 0.05 <= p /\ p <= 1 /\ (Qfloor (p * 100) mod 5 = 0)%Z) l.
Proof.
  cbv zeta. unfold reported.
  destruct (extract_reports_rising total frames record 0 empty_world) as (l & Hl & Hr).
  rewrite Hl. cbn [published empty_world app]. rewrite reported_record.
  split; [exact (rising_sorted l 0 Hr)|]. split.
  - destruct (rising_length l 0 eq_refl Hr) as [H| ->]; [lia | cbn; lia].
  - pose proof (rising_above l 0 Hr) as Habove.
    assert (Hall : forall L, rising L l ->
              Forall (fun p => p <= 1 /\ (Qfloor (p * 100) mod 5 = 0)%Z) l).
    { clear. induction l as [|p l IH]; intros L H; [constructor|].
      destruct H as (_ & H2 & H3 & H4). constructor; [tauto | exact (IH _ H4)]. }
    specialize (Hall 0%Z Hr). rewrite Forall_forall in *. intros p Hp.
    destruct (Hall p Hp) as [H1 H2]. specialize (Habove p Hp). cbn beta in Habove.
    split; [|tauto].
    assert (H5 : (5 <= Qfloor (p * 100))%Z).
    { apply Z.mod_divide in H2; [|lia]. destruct H2 as [b Hb]. lia. }
    pose proof (ProgressFacts.floor_lower (p * 100)) as Hlo.
    pose proof (ProgressFacts.Zle_Q _ _ H5) as Hz. change (inject_Z 5) with 5 in Hz. lra.
Qed.

(** *** The stderr handler of [composeFinalVideo] *)

Lemma compose_reports_appends (total : nat) (frames : list nat) (cb : Q -> Update) :
  forall (L : option Z) (w : World),
    published (fst (compose_reports total frames L cb w))
    = published w ++ published (fst (compose_reports total frames L cb empty_world)).
Proof.
  induction frames as [|f rest IH]; intros L w; cbn [compose_reports].
  - symmetry. apply app_nil_r.
  - cbv zeta. destruct (floor_percent _) as [p|]; [|apply IH].
    destruct (min_one _) as [q|]; [|apply IH].
    destruct (_ || _); [|apply IH].
    unfold bind, publish.
    rewrite (IH p (setProgress (cb q) w)), (IH p (setProgress (cb q) empty_world)).
    cbn [setProgress published empty_world app]. rewrite <- app_assoc. reflexivity.
Qed.

Lemma sorted_tail_above (x : Q) (l : list Q) :
  Sorted Qle (x :: l) -> Sorted Qle l /\ Forall (fun y => x <= y) l.
Proof.
  intros H. apply Sorted_StronglySorted in H; [|exact Qle_trans].
  apply StronglySorted_inv in H. destruct H as [Hs Hall].
  split; [apply StronglySorted_Sorted; exact Hs | exact Hall].
Qed.

(** X24.  [composeFinalVideo] reports fractions that never decrease and lie
    between [0.05] and [1], in whatever order ffmpeg prints its frame
    numbers and whatever the frame count is. *)
Theorem compose_reports_in_order (total : nat) (frames : list nat) :
  let l := reported (compose_reports total frames (Some 0%Z) record) in
  Sorted Qle l /\ Forall (fun p => 0.05 <= p /\ p <= 1) l.
Proof.
  cbv zeta. unfold reported.
  set (w0 := setProgress (record 0.05) empty_world).
  assert (H0 : log_ok EmptyString 0.05 w0).
  { apply ProgressFacts.log_ok_publish with 0.05;
      [apply ProgressFacts.log_ok_empty | reflexivity | apply Qle_refl | apply Qle_refl]. }
  destruct (ProgressFacts.compose_reports_ok EmptyString 0 1 record ltac:(lra)
              ltac:(reflexivity) ltac:(intros p; cbn; lra)
              total frames (Some 0%Z) 0.05 w0 H0) as [((Hs & Hle) & _ & _) _].
  - intros l [= <-]. change (inject_Z 0) with 0. lra.
  - lra.
  - rewrite compose_reports_appends in Hs, Hle.
    cbn [w0 setProgress published empty_world app] in Hs, Hle.
    cbn [map record snd progress] in Hs.
    apply sorted_tail_above in Hs. destruct Hs as [Hs Hlo].
    split; [exact Hs|].
    apply Forall_inv_tail in Hle. rewrite Forall_map in Hlo.
    rewrite Forall_map. rewrite Forall_forall in *. intros u Hu.
    specialize (Hle u Hu). specialize (Hlo u Hu). cbn beta in *. lra.
Qed.

(** *** The shared counter of the parallel overlay workers *)

Lemma publish_all_run (us : list Update) (w : World) :
  publish_all us w = (run_updates us w, inl tt).
Proof.
  revert w. induction us as [|u us IH]; intros w; [reflexivity|].
  cbn [publish_all]. unfold bind, publish. rewrite IH. reflexivity.
Qed.

Lemma counter_reports_filter (total n : nat) (cb : Q -> Update) : forall from,
  counter_reports total from n cb
  = map (fun c => cb (inject_Z (Z.of_nat c) / inject_Z (Z.of_nat total)))
        (filter (fun c => (c mod 10 =? 0)%nat) (seq (S from) n)).
Proof.
  induction n as [|n IH]; intros from; [reflexivity|].
  cbn [counter_reports seq filter]. cbv zeta. rewrite IH.
  destruct (S from mod 10 =? 0)%nat; reflexivity.
Qed.

Lemma tenth_frames (n : nat) :
  filter (fun c => (c mod 10 =? 0)%nat) (seq 1 n)
  = map (fun k => (10 * k)%nat) (seq 1 (n / 10)).
Proof.
  induction n as [|n IH]; [reflexivity|].
  rewrite seq_S, filter_app, IH. cbn [filter Nat.add].
  pose proof (Nat.div_mod_eq n 10) as Hn.
  pose proof (Nat.mod_upper_bound n 10 ltac:(lia)) as Hm.
  pose proof (Nat.div_mod_eq (S n) 10) as Hn'.
  pose proof (Nat.mod_upper_bound (S n) 10 ltac:(lia)) as Hm'.
  destruct (Nat.eqb_spec (S n mod 10) 0) as [E|E].
  - assert (Hd : (S n / 10 = S (n / 10))%nat) by lia.
    rewrite Hd, seq_S, map_app. cbn [map Nat.add]. f_equal. f_equal. lia.
  - assert (Hd : (S n / 10 = n / 10)%nat) by lia.
    rewrite Hd. apply app_nil_r.
Qed.

(** X25.  When no worker fails, the parallel [renderCaptionOverlays] reports
    exactly at every tenth completed frame: the fractions [10/n, 20/n, ...]
    up to the last multiple of ten.  The last frame is reported only when
    the frame count is a multiple of ten; for fewer than ten frames nothing
    is reported. *)
Theorem overlay_reports_every_tenth_frame (env : Env) (total : nat) :
  overlay_setup_ok env = true ->
  worker_failure env = None ->
  reported (renderCaptionOverlays env total record)
  = map (fun k => inject_Z (Z.of_nat (10 * k)) / inject_Z (Z.of_nat total))
        (seq 1 (total / 10)).
Proof.
  intros Hok Hnone. unfold reported, renderCaptionOverlays.
  rewrite Hok, Hnone. unfold await, bind, ret. cbv zeta.
  rewrite PlannerFacts.planChunks_cover by (unfold Planner.CONCURRENCY; lia).
  rewrite length_seq, publish_all_run. cbn [fst].
  rewrite published_run. cbn [published empty_world app].
  rewrite counter_reports_filter, tenth_frames, !map_map. reflexivity.
Qed.

Lemma overlay_reports_every_tenth_frame_witness :
  reported (renderCaptionOverlays Samples.good_env 25 record)
  = map (fun k => inject_Z (Z.of_nat (10 * k)) / inject_Z (Z.of_nat 25))
        (seq 1 (25 / 10)).
Proof.
  apply (overlay_reports_every_tenth_frame Samples.good_env 25); reflexivity.
Defined.

(** *** The sequential [renderCaptionOverlays] *)

Section SequentialLoop.
Variables (screenshot_ok : nat -> bool) (total : nat) (cb : Q -> Update).

(** The frames the loop reports are some of the frames it renders. *)
Lemma frame_loop_reports (n : nat) : forall (i : nat) (L : Z) (w : World),
  exists js,
    published (fst (Sequential.frame_loop screenshot_ok total i n L cb w))
    = published w ++ map (fun j => cb (fraction total (j + 1))) js
    /\ StronglySorted lt js
    /\ Forall (fun j => (i <= j < i + n)%nat) js
    /\ (snd (Sequential.frame_loop screenshot_ok total i n L cb w) = inl tt ->
        ((0 < n)%nat -> (i mod 10 = 0)%nat -> In i js)
        /\ ((0 < n)%nat -> (i + n = total)%nat -> In (total - 1)%nat js)).
Proof.
  induction n as [|n IH]; intros i L w; cbn [Sequential.frame_loop].
  - exists []. split; [symmetry; apply app_nil_r|]. split; [constructor|].
    split; [constructor|]. intros _. split; intros; lia.
  - unfold bind at 1. unfold await. destruct (screenshot_ok i).
    2:{ exists []. cbn. split; [symmetry; apply app_nil_r|]. split; [constructor|].
        split; [constructor | discriminate]. }
    unfold ret at 1. cbv zeta.
    destruct ((i mod 10 =? 0)%nat || _ || (i =? total - 1)%nat) eqn:Ec.
    + unfold bind, publish.
      destruct (IH (S i) (Qfloor (fraction total (i + 1) * 100))
                  (setProgress (cb (fraction total (i + 1))) w))
        as (js & Hp & Hs & Hr & Hend).
      exists (i :: js). split; [|split; [|split]].
      * unfold fraction in *. rewrite Hp. cbn [setProgress published map].
        rewrite <- app_assoc. reflexivity.
      * constructor; [exact Hs|]. eapply Forall_impl; [|exact Hr]. cbn beta. lia.
      * constructor; [lia|]. eapply Forall_impl; [|exact Hr]. cbn beta. lia.
      * unfold fraction in *. intros Hret. specialize (Hend Hret).
        split; [intros; left; reflexivity|].
        intros _ Ht. destruct n as [|n']; [left; lia|].
        right. apply Hend; lia.
    + apply orb_false_iff in Ec. destruct Ec as [Ec E3].
      apply orb_false_iff in Ec. destruct Ec as [E1 _].
      apply Nat.eqb_neq in E1, E3.
      destruct (IH (S i) L w) as (js & Hp & Hs & Hr & Hend).
      exists js. split; [exact Hp|]. split; [exact Hs|]. split.
      * eapply Forall_impl; [|exact Hr]. cbn beta. lia.
      * intros Hret. specialize (Hend Hret). split; [intros; lia|].
        intros _ Ht. destruct n as [|n']; [lia|]. apply Hend; lia.
Qed.

End SequentialLoop.

Lemma fraction_lt (total a b : nat) :
  (0 < total)%nat -> (a < b)%nat -> fraction total a < fraction total b.
Proof.
  intros Ht Hab. unfold fraction, Qdiv. apply Qmult_lt_compat_r.
  - apply Qinv_lt_0_compat. change 0 with (inject_Z 0). rewrite <- Zlt_Qlt. lia.
  - rewrite <- Zlt_Qlt. lia.
Qed.

(** X26.  The sequential [renderCaptionOverlays] reports fractions that rise
    strictly; when every frame is captured, the first frame and the last
    frame are among those reported, so that the last report is [1]. *)
Theorem sequential_overlay_reports (screenshot_ok : nat -> bool) (total : nat) :
  (0 < total)%nat ->
  let m := Sequential.renderCaptionOverlays screenshot_ok total record in
  StronglySorted Qlt (reported m)
  /\ (snd (m empty_world) = inl tt ->
      hd_error (reported m) = Some (fraction total 1)
      /\ latest (reported m) = Some (fraction total total)
      /\ fraction total total == 1).
Proof.
  intros Ht. cbv zeta. unfold reported, Sequential.renderCaptionOverlays.
  destruct (frame_loop_reports screenshot_ok total record total 0 0%Z empty_world)
    as (js & Hp & Hs & Hr & Hend).
  rewrite Hp. cbn [published empty_world app]. rewrite map_map. cbn [record snd progress].
  split.
  - clear Hp Hend. induction Hs as [|j js Hs IH Hall]; [constructor|].
    cbn [map]. constructor; [apply IH; exact (Forall_inv_tail Hr)|].
    rewrite Forall_map. eapply Forall_impl; [|exact Hall]. cbn beta.
    intros k Hk. apply fraction_lt; lia.
  - intros Hret. destruct (Hend Hret) as [Hfirst Hlast].
    specialize (Hfirst Ht eq_refl). specialize (Hlast Ht eq_refl).
    split; [|split].
    + destruct js as [|j js]; [destruct Hfirst|]. cbn [map hd_error].
      apply StronglySorted_inv in Hs. destruct Hs as [_ Hall].
      destruct Hfirst as [E|Hin]; [subst j; reflexivity|].
      rewrite Forall_forall in Hall. specialize (Hall _ Hin). lia.
    + assert (Hsplit : exists js', js = js' ++ [(total - 1)%nat]).
      { clear Hp Hend Hfirst. 
        induction js as [|j js IH] using rev_ind; [destruct Hlast|].
        exists js. f_equal. f_equal.
        apply in_app_or in Hlast. destruct Hlast as [Hin|[<-|[]]]; [|reflexivity].
        exfalso.
        assert (Hj : (j < total)%nat).
        { rewrite Forall_forall in Hr. specialize (Hr j ltac:(apply in_or_app; right; left; reflexivity)). lia. }
        assert (Hlt : (total - 1 < j)%nat).
        { clear IH Hr Hj. induction js as [|x xs IHx]; [destruct Hin|].
          cbn [app] in Hs. apply StronglySorted_inv in Hs. destruct Hs as [Hs' Hall].
          destruct Hin as [<-|Hin].
          - rewrite Forall_forall in Hall. apply Hall. apply in_or_app. right. left. reflexivity.
          - apply IHx; assumption. }
        lia. }
      destruct Hsplit as [js' ->]. rewrite map_app. cbn [map].
      unfold latest. rewrite map_app. cbn [map]. rewrite last_last.
      replace (total - 1 + 1)%nat with total by lia. reflexivity.
    + unfold fraction, Qdiv. apply Qmult_inv_r.
      intros H. unfold Qeq, inject_Z in H. cbn [Qnum Qden] in H. lia.
Qed.

Lemma sequential_overlay_reports_witness :
  StronglySorted Qlt
    (reported (Sequential.renderCaptionOverlays (fun _ => true) 25 record)).
Proof.
  exact (proj1 (sequential_overlay_reports (fun _ => true) 25 ltac:(lia))).
Defined.

End ReportFacts.

(** ** Subscribers of the progress store *)

Module SubscriberFacts.
Import Progress Subscribers.

Lemma callbacks_of_set_same (id : string) (v : list nat) (t : list (string * list nat)) :
  callbacks_of id (table_set id v t) = Some v.
Proof.
  unfold callbacks_of. induction t as [|[k x] t IH]; cbn [table_set find fst].
  - rewrite String.eqb_refl. reflexivity.
  - destruct (String.eqb k id) eqn:E; cbn [find fst]; rewrite E; [reflexivity | exact IH].
Qed.

Lemma callbacks_of_set_other (id k : string) (v : list nat) (t : list (string * list nat)) :
  k <> id -> callbacks_of k (table_set id v t) = callbacks_of k t.
Proof.
  intros Hk. unfold callbacks_of. induction t as [|[k' x] t IH]; cbn [table_set find fst].
  - destruct (String.eqb_spec id k); [congruence | reflexivity].
  - destruct (String.eqb_spec k' id) as [->|Hne]; cbn [find fst].
    + destruct (String.eqb_spec id k); [congruence | reflexivity].
    + destruct (String.eqb k' k); [reflexivity | exact IH].
Qed.

Lemma callbacks_of_in (id : string) (t : list (string * list nat)) (s : list nat) :
  callbacks_of id t = Some s -> In (id, s) t.
Proof.
  unfold callbacks_of. destruct (find _ t) as [[k x]|] eqn:E; [|discriminate].
  intros [= <-]. apply find_some in E. destruct E as [Hin Hk].
  apply String.eqb_eq in Hk. cbn in Hk. subst k. exact Hin.
Qed.

Lemma received_app (c : nat) (w : World) (t : list (string * list nat))
  (l l' : list (nat * ProgressState)) :
  received c (mkBus w t (l ++ l')) = received c (mkBus w t l) ++ received c (mkBus w t l').
Proof. unfold received. cbn [delivered]. rewrite filter_app, map_app. reflexivity. Qed.

Lemma notify_one (c : nat) (state : ProgressState) (s : list nat) :
  ~ In c s ->
  map snd (filter (fun d => Nat.eqb (fst d) c) (map (fun x => (x, state)) s)) = [].
Proof.
  induction s as [|x s IH]; intros H; [reflexivity|]. cbn [map filter fst].
  destruct (Nat.eqb_spec x c) as [->|_]; [exfalso; apply H; left; reflexivity|].
  apply IH. intros Hin. apply H. right. exact Hin.
Qed.

Lemma notify_last (c : nat) (state : ProgressState) (s : list nat) :
  ~ In c s ->
  map snd (filter (fun d => Nat.eqb (fst d) c) (map (fun x => (x, state)) (s ++ [c])))
  = [state].
Proof.
  intros H. rewrite map_app, filter_app, map_app, notify_one by exact H.
  cbn [map filter fst app]. rewrite Nat.eqb_refl. reflexivity.
Qed.

(** What [setProgress] hands to a callback. *)
Lemma received_set (c : nat) (u : Update) (b : Bus) :
  received c (setProgress u b)
  = received c b
    ++ match callbacks_of (fst u) (table b) with
       | Some s => map snd (filter (fun d => Nat.eqb (fst d) c)
                                   (map (fun x => (x, snd u)) s))
       | None => []
       end.
Proof.
  unfold received, setProgress. cbn [delivered].
  destruct (callbacks_of (fst u) (table b)); [|symmetry; apply app_nil_r].
  rewrite filter_app, map_app. reflexivity.
Qed.

Lemma run_table (us : list Update) (b : Bus) : table (run us b) = table b.
Proof.
  revert b. induction us as [|u us IH]; intros b; [reflexivity|].
  unfold run in *. cbn [fold_left]. rewrite IH. reflexivity.
Qed.

(** A callback listed once under [id] and nowhere else gets the states
    published for [id], and no other. *)
Lemma run_received (id : string) (c : nat) (s : list nat) (us : list Update) :
  forall b,
    callbacks_of id (table b) = Some (s ++ [c]) -> ~ In c s ->
    only_under id c (table b) ->
    received c (run us b)
    = received c b ++ map snd (filter (fun u => String.eqb (fst u) id) us).
Proof.
  induction us as [|u us IH]; intros b Hid Hs Hother; [symmetry; apply app_nil_r|].
  unfold run in *. cbn [fold_left]. rewrite IH; [| exact Hid | exact Hs | exact Hother].
  rewrite received_set. rewrite <- app_assoc. f_equal. cbn [filter].
  destruct (String.eqb_spec (fst u) id) as [E|E].
  - rewrite E, Hid, notify_last by exact Hs. reflexivity.
  - destruct (callbacks_of (fst u) (table b)) as [s'|] eqn:Es; [|reflexivity].
    rewrite notify_one; [reflexivity|].
    apply callbacks_of_in in Es. unfold only_under in Hother.
    rewrite Forall_forall in Hother. exact (Hother _ Es E).
Qed.

Lemma only_under_set (id : string) (c : nat) (v : list nat) (t : list (string * list nat)) :
  only_under id c t -> only_under id c (table_set id v t).
Proof.
  unfold only_under. induction t as [|[k x] t IH]; intros H; cbn [table_set].
  - constructor; [|constructor]. cbn. congruence.
  - pose proof (Forall_inv H) as Hh. pose proof (Forall_inv_tail H) as Ht.
    destruct (String.eqb_spec k id) as [->|Hne].
    + constructor; [cbn; congruence | exact Ht].
    + constructor; [exact Hh | exact (IH Ht)].
Qed.

Lemma unknown_only_under (id : string) (c : nat) (t : list (string * list nat)) :
  unknown c t -> only_under id c t.
Proof. unfold unknown, only_under. apply Forall_impl. intros kv H _. exact H. Qed.

Lemma set_add_new (c : nat) (s : list nat) : ~ In c s -> set_add c s = s ++ [c].
Proof.
  intros H. unfold set_add. destruct (existsb (Nat.eqb c) s) eqn:E; [|reflexivity].
  exfalso. apply existsb_exists in E. destruct E as (x & Hx & Hc).
  apply Nat.eqb_eq in Hc. subst x. exact (H Hx).
Qed.

(** *** Unsubscribing *)

Lemma run_received_none (c : nat) (us : list Update) : forall b,
  (forall k s, callbacks_of k (table b) = Some s -> ~ In c s) ->
  received c (run us b) = received c b.
Proof.
  induction us as [|u us IH]; intros b H; [reflexivity|].
  unfold run in *. cbn [fold_left]. rewrite IH by exact H.
  rewrite received_set.
  destruct (callbacks_of (fst u) (table b)) as [s|] eqn:E; [|apply app_nil_r].
  rewrite notify_one by exact (H _ _ E). apply app_nil_r.
Qed.

Lemma callbacks_of_delete_same (id : string) (t : list (string * list nat)) :
  callbacks_of id (table_delete id t) = None.
Proof.
  unfold callbacks_of, table_delete.
  destruct (find _ (filter _ t)) as [kv|] eqn:E; [|reflexivity].
  apply find_some in E. destruct E as [Hin Hk]. apply filter_In in Hin.
  destruct Hin as [_ Hn]. rewrite Hk in Hn. discriminate.
Qed.

Lemma callbacks_of_delete_other (id k : string) (t : list (string * list nat)) :
  k <> id -> callbacks_of k (table_delete id t) = callbacks_of k t.
Proof.
  intros Hk. unfold callbacks_of, table_delete.
  induction t as [|[k' x] t IH]; [reflexivity|]. cbn [filter find fst].
  destruct (String.eqb_spec k' id) as [->|Hne]; cbn [negb find fst].
  - destruct (String.eqb_spec id k); [congruence | exact IH].
  - destruct (String.eqb k' k); [reflexivity | exact IH].
Qed.

Lemma set_delete_out (c : nat) (s : list nat) : ~ In c (set_delete c s).
Proof.
  unfold set_delete. intros H. apply filter_In in H. destruct H as [_ H].
  rewrite Nat.eqb_refl in H. discriminate.
Qed.

(** X18.  After [unsubscribe], a callback that was listed under that id only
    is handed nothing any more. *)
Theorem unsubscribed_receives_nothing (exportId : string) (callback : nat)
  (us : list Update) (b : Bus) :
  only_under exportId callback (table b) ->
  received callback (run us (unsubscribe exportId callback b)) = received callback b.
Proof.
  intros Honly.
  assert (Hold : forall k s, k <> exportId -> callbacks_of k (table b) = Some s ->
                             ~ In callback s).
  { intros k s Hk Hs. apply callbacks_of_in in Hs. unfold only_under in Honly.
    rewrite Forall_forall in Honly. exact (Honly _ Hs Hk). }
  rewrite run_received_none.
  - unfold unsubscribe. destruct (callbacks_of exportId (table b)); reflexivity.
  - intros k s. unfold unsubscribe.
    destruct (callbacks_of exportId (table b)) as [s0|] eqn:E; cbn [table].
    + destruct (String.eqb_spec k exportId) as [->|Hk].
      * destruct (List.length (set_delete callback s0) =? 0)%nat.
        -- rewrite callbacks_of_delete_same. discriminate.
        -- rewrite callbacks_of_set_same. intros [= <-]. apply set_delete_out.
      * destruct (List.length (set_delete callback s0) =? 0)%nat.
        -- rewrite callbacks_of_delete_other by exact Hk. apply Hold. exact Hk.
        -- rewrite callbacks_of_set_other by exact Hk. apply Hold. exact Hk.
    + destruct (String.eqb_spec k exportId) as [->|Hk].
      * rewrite E. discriminate.
      * apply Hold. exact Hk.
Qed.

Lemma unsubscribed_receives_nothing_witness :
  received 1 (run [("a", mkState 10 "s" "m")]%string
                  (unsubscribe "a" 1 (subscribe "a" 1 empty_bus)))
  = received 1 (subscribe "a" 1 empty_bus).
Proof.
  apply (unsubscribed_receives_nothing "a" 1).
  repeat constructor. cbn. congruence.
Defined.

(** *** The table stays tidy *)

Lemma table_set_keys_present (id : string) (v : list nat) (t : list (string * list nat)) :
  In id (map fst t) -> map fst (table_set id v t) = map fst t.
Proof.
  induction t as [|[k x] t IH]; intros H; [destruct H|]. cbn [table_set].
  destruct (String.eqb_spec k id) as [->|Hne]; [reflexivity|].
  cbn [map fst]. f_equal. apply IH. destruct H as [H|H]; [cbn in H; congruence | exact H].
Qed.

Lemma table_set_keys_absent (id : string) (v : list nat) (t : list (string * list nat)) :
  ~ In id (map fst t) -> table_set id v t = t ++ [(id, v)].
Proof.
  induction t as [|[k x] t IH]; intros H; [reflexivity|]. cbn [table_set].
  destruct (String.eqb_spec k id) as [->|Hne]; [exfalso; apply H; left; reflexivity|].
  cbn [app]. f_equal. apply IH. intros Hin. apply H. right. exact Hin.
Qed.

Lemma callbacks_of_none (id : string) (t : list (string * list nat)) :
  callbacks_of id t = None <-> ~ In id (map fst t).
Proof.
  unfold callbacks_of. split.
  - intros H Hin. apply in_map_iff in Hin. destruct Hin as ([k x] & Hk & Hin).
    cbn in Hk. subst k.
    destruct (find _ t) eqn:E; [discriminate|].
    pose proof (find_none _ _ E _ Hin) as Hn. cbn in Hn.
    rewrite String.eqb_refl in Hn. discriminate.
  - intros H. destruct (find _ t) as [[k x]|] eqn:E; [|reflexivity].
    exfalso. apply find_some in E. destruct E as [Hin Hk].
    apply String.eqb_eq in Hk. cbn in Hk. subst k.
    apply H. apply in_map_iff. exists (id, x). split; [reflexivity | exact Hin].
Qed.

Lemma table_set_entries (id : string) (v : list nat) (t : list (string * list nat))
  (P : string * list nat -> Prop) :
  P (id, v) -> Forall P t -> Forall P (table_set id v t).
Proof.
  intros Hv. induction 1 as [|[k x] t Hh Ht IH]; cbn [table_set].
  - constructor; [exact Hv | constructor].
  - destruct (String.eqb_spec k id) as [->|Hne]; constructor; assumption.
Qed.

Lemma tidy_set (id : string) (v : list nat) (t : list (string * list nat)) :
  v <> [] -> NoDup v -> tidy t -> tidy (table_set id v t).
Proof.
  intros Hv Hnd [Hk He]. split.
  - destruct (in_dec string_dec id (map fst t)) as [Hin|Hout].
    + rewrite table_set_keys_present by exact Hin. exact Hk.
    + rewrite table_set_keys_absent by exact Hout. rewrite map_app. cbn [map fst].
      apply NoDup_app; [exact Hk | repeat constructor; intros [] |].
      intros a Ha [<-|[]]. exact (Hout Ha).
  - apply table_set_entries; [split; assumption | exact He].
Qed.

Lemma table_set_twice (id : string) (v v' : list nat) (t : list (string * list nat)) :
  table_set id v (table_set id v' t) = table_set id v t.
Proof.
  induction t as [|[k x] t IH]; cbn [table_set].
  - rewrite String.eqb_refl. reflexivity.
  - destruct (String.eqb k id) eqn:E; cbn [table_set]; rewrite E; [reflexivity|].
    f_equal. exact IH.
Qed.

Lemma table_set_found (id : string) (s : list nat) (t : list (string * list nat)) :
  callbacks_of id t = Some s -> table_set id s t = t.
Proof.
  unfold callbacks_of. induction t as [|[k x] t IH]; cbn [find fst table_set];
    [discriminate|].
  destruct (String.eqb k id); [intros [= ->]; reflexivity|].
  intros H. f_equal. exact (IH H).
Qed.

Lemma set_add_nodup (c : nat) (s : list nat) :
  NoDup s -> set_add c s <> [] /\ NoDup (set_add c s).
Proof.
  intros H. unfold set_add. destruct (existsb (Nat.eqb c) s) eqn:E.
  - split; [|exact H]. apply existsb_exists in E. destruct E as (x & Hx & _).
    intros ->. exact Hx.
  - split; [destruct s; discriminate|].
    apply NoDup_app; [exact H | repeat constructor; intros [] |].
    intros a Ha [<-|[]].
    assert (Ht : existsb (Nat.eqb c) s = true).
    { apply existsb_exists. exists c. split; [exact Ha | apply Nat.eqb_refl]. }
    congruence.
Qed.

Lemma tidy_delete (id : string) (t : list (string * list nat)) :
  tidy t -> tidy (table_delete id t).
Proof.
  intros [Hk He]. unfold table_delete. split.
  - clear He. induction t as [|[k x] t IH]; [constructor|]. cbn [filter fst].
    cbn [map fst] in Hk. apply NoDup_cons_iff in Hk. destruct Hk as [Hk1 Hk2].
    destruct (String.eqb k id); cbn [negb]; [exact (IH Hk2)|].
    cbn [map fst]. constructor; [|exact (IH Hk2)].
    intros Hin. apply Hk1. apply in_map_iff in Hin. destruct Hin as (kv & <- & Hin).
    apply filter_In in Hin. apply in_map. tauto.
  - rewrite Forall_forall in *. intros kv Hin. apply filter_In in Hin. apply He. tauto.
Qed.

Lemma set_delete_last (c : nat) (s : list nat) :
  ~ In c s -> set_delete c (s ++ [c]) = s.
Proof.
  intros H. unfold set_delete. rewrite filter_app. cbn [filter].
  rewrite Nat.eqb_refl. cbn [negb]. rewrite app_nil_r.
  induction s as [|x s IH]; [reflexivity|]. cbn [filter].
  destruct (Nat.eqb_spec x c) as [->|_]; [exfalso; apply H; left; reflexivity|].
  cbn [negb]. f_equal. apply IH. intros Hin. apply H. right. exact Hin.
Qed.

Lemma table_delete_absent (id : string) (t : list (string * list nat)) :
  ~ In id (map fst t) -> table_delete id t = t.
Proof.
  unfold table_delete. induction t as [|[k x] t IH]; intros H; [reflexivity|].
  cbn [filter fst]. destruct (String.eqb_spec k id) as [->|_];
    [exfalso; apply H; left; reflexivity|].
  cbn [negb]. f_equal. apply IH. intros Hin. apply H. right. exact Hin.
Qed.

(** Subscribing a callback that is not listed under the id and
    unsubscribing it again leaves a tidy table as it was. *)
Lemma unsubscribe_undoes_subscribe (exportId : string) (callback : nat) (b : Bus) :
  tidy (table b) ->
  (forall s, callbacks_of exportId (table b) = Some s -> ~ In callback s) ->
  table (unsubscribe exportId callback (subscribe exportId callback b)) = table b.
Proof.
  intros Ht Hnew. unfold unsubscribe, subscribe. cbn [table].
  destruct (callbacks_of exportId (table b)) as [s|] eqn:E.
  - rewrite E, callbacks_of_set_same. cbn [table world delivered].
    specialize (Hnew s eq_refl). rewrite set_add_new, set_delete_last by exact Hnew.
    assert (Hs : s <> []).
    { pose proof (callbacks_of_in _ _ _ E) as Hin. destruct Ht as [_ He].
      rewrite Forall_forall in He. exact (proj1 (He _ Hin)). }
    destruct (Nat.eqb_spec (List.length s) 0) as [H0|_];
      [destruct s; [congruence | discriminate]|].
    rewrite table_set_twice. apply table_set_found. exact E.
  - rewrite !callbacks_of_set_same, table_set_twice. cbn [table].
    cbn [set_add existsb app set_delete filter]. rewrite Nat.eqb_refl.
    cbn [negb List.length Nat.eqb].
    apply callbacks_of_none in E.
    rewrite table_set_keys_absent by exact E.
    unfold table_delete. rewrite filter_app. cbn [filter fst].
    rewrite String.eqb_refl. cbn [negb]. rewrite app_nil_r.
    apply table_delete_absent. exact E.
Qed.

(** X19.  [subscribe], [unsubscribe] and [setProgress] keep the subscriber
    table tidy: one entry per id, no empty set left behind, no callback
    listed twice.  On a tidy table, subscribing a callback that is not
    listed under the id and unsubscribing it again leaves the table as it
    was. *)
Theorem table_stays_tidy (exportId : string) (callback : nat) (u : Update) (b : Bus) :
  tidy (table b) ->
  tidy (table (subscribe exportId callback b))
  /\ tidy (table (unsubscribe exportId callback b))
  /\ tidy (table (setProgress u b))
  /\ ((forall s, callbacks_of exportId (table b) = Some s -> ~ In callback s) ->
      table (unsubscribe exportId callback (subscribe exportId callback b)) = table b).
Proof.
  intros Ht.
  split; [|split; [|split; [exact Ht | apply unsubscribe_undoes_subscribe; exact Ht]]].
  - unfold subscribe. cbn [table].
    destruct (callbacks_of exportId (table b)) as [s|] eqn:E.
    + rewrite E.
      assert (Hs : NoDup s).
      { apply callbacks_of_in in E. destruct Ht as [_ He].
        rewrite Forall_forall in He. exact (proj2 (He _ E)). }
      destruct (set_add_nodup callback s Hs) as [H1 H2]. apply tidy_set; assumption.
    + rewrite callbacks_of_set_same, table_set_twice.
      destruct (set_add_nodup callback [] ltac:(constructor)) as [H1 H2].
      apply tidy_set; assumption.
  - unfold unsubscribe.
    destruct (callbacks_of exportId (table b)) as [s|] eqn:E; [|exact Ht]. cbn [table].
    destruct (Nat.eqb_spec (List.length (set_delete callback s)) 0) as [H0|H0].
    + apply tidy_delete. exact Ht.
    + apply tidy_set; [intros H; rewrite H in H0; apply H0; reflexivity | | exact Ht].
      apply NoDup_filter. apply callbacks_of_in in E. destruct Ht as [_ He].
      rewrite Forall_forall in He. exact (proj2 (He _ E)).
Qed.

Lemma table_stays_tidy_witness :
  tidy (table (subscribe "a" 1 empty_bus))
  /\ tidy (table (unsubscribe "a" 1 empty_bus))
  /\ tidy (table (setProgress ("a"%string, mkState 10 "s" "m") empty_bus))
  /\ ((forall s, callbacks_of "a" (table empty_bus) = Some s -> ~ In 1%nat s) ->
      table (unsubscribe "a" 1 (subscribe "a" 1 empty_bus)) = table empty_bus).
Proof.
  apply (table_stays_tidy "a" 1 ("a"%string, mkState 10 "s" "m") empty_bus).
  split; constructor.
Defined.

End SubscriberFacts.


(** ** The store with its cleanup timers *)

Module CleanupFacts.
Import Progress Reports Subscribers Cleanup.

Local Open Scope Z_scope.


Lemma run_cons (events : list (Z * Event)) (e : Z * Event) (s : Store) :
  run (e :: events) s
  = match step s e with Some s' => run events s' | None => None end.
Proof.
  unfold run. cbn [fold_left]. destruct (step s e); [reflexivity|].
  induction events as [|x l IH]; [reflexivity | exact IH].
Qed.





Lemma getProgress_cleanup (now : Z) (id k : string) (s : Store) :
  getProgress id (bus (cleanup now k s))
  = if String.eqb k id then None else getProgress id (bus s).
Proof.
  unfold getProgress, Progress.getProgress, cleanup. cbn [bus world progressStore].
  destruct (String.eqb k id) eqn:E.
  - apply String.eqb_eq in E. subst k.
    destruct (find _ (filter _ _)) as [kv|] eqn:F; [|reflexivity].
    apply find_some in F. destruct F as [Hin Hk]. apply filter_In in Hin.
    destruct Hin as [_ Hn]. rewrite Hk in Hn. discriminate.
  - rewrite StoreFacts.find_other_key by exact E. reflexivity.
Qed.








(** *** Subscribers *)

Lemma step_spares (id : string) (c : nat) (e : Z * Event) (s s' : Store) (l : list nat) :
  spares id e ->
  step s e = Some s' ->
  callbacks_of id (table (bus s)) = Some (l ++ [c]) -> ~ In c l ->
  only_under id c (table (bus s)) ->
  callbacks_of id (table (bus s')) = Some (l ++ [c])
  /\ only_under id c (table (bus s'))
  /\ received c (bus s')
     = received c (bus s)
       ++ match snd e with
          | SetProgress u => if String.eqb (fst u) id then [snd u] else []
          | _ => []
          end.
Proof.
  intros Hsp Hstep Hid Hl Honly. destruct e as [now event]. cbn [snd] in *.
  unfold step in Hstep. destruct (now <? clock s); [discriminate|].
  destruct event as [u|k c'|k c'|k]; try contradiction.
  - injection Hstep as <-. cbn [setProgress bus].
    split; [exact Hid|]. split; [exact Honly|].
    rewrite SubscriberFacts.received_set. f_equal.
    destruct (String.eqb_spec (fst u) id) as [E|E].
    + rewrite E, Hid, SubscriberFacts.notify_last by exact Hl. reflexivity.
    + destruct (callbacks_of (fst u) (table (bus s))) as [l'|] eqn:Es; [|reflexivity].
      apply SubscriberFacts.notify_one.
      apply SubscriberFacts.callbacks_of_in in Es. unfold only_under in Honly.
      rewrite Forall_forall in Honly. exact (Honly _ Es E).
  - cbn in Hsp.
    destruct (due k (cleanupTimers s)) as [at_|]; [|discriminate].
    destruct (at_ <=? now); [|discriminate]. injection Hstep as <-.
    cbn [cleanup bus table]. split; [|split].
    + rewrite SubscriberFacts.callbacks_of_delete_other by congruence. exact Hid.
    + unfold only_under, table_delete in *. apply Forall_forall. intros kv Hin.
      apply filter_In in Hin. rewrite Forall_forall in Honly. exact (Honly kv (proj1 Hin)).
    + symmetry. apply app_nil_r.
Qed.

Lemma run_spares (id : string) (c : nat) (l : list nat) (events : list (Z * Event)) :
  forall s s',
    Forall (spares id) events ->
    run events s = Some s' ->
    callbacks_of id (table (bus s)) = Some (l ++ [c]) -> ~ In c l ->
    only_under id c (table (bus s)) ->
    received c (bus s') = received c (bus s) ++ map snd (sets_of id events).
Proof.
  induction events as [|e events IH]; intros s s' Hall Hrun Hid Hl Honly.
  - injection Hrun as <-. symmetry. apply app_nil_r.
  - rewrite run_cons in Hrun. destruct (step s e) as [s1|] eqn:E; [|discriminate].
    pose proof (Forall_inv Hall) as He. pose proof (Forall_inv_tail Hall) as Ht.
    destruct (step_spares id c e s s1 l He E Hid Hl Honly) as (Hid1 & Honly1 & Hr).
    rewrite (IH s1 s' Ht Hrun Hid1 Hl Honly1), Hr, <- app_assoc. f_equal.
    unfold sets_of. cbn [flat_map]. rewrite map_app. f_equal.
    destruct (snd e) as [u| | |]; try reflexivity.
    destruct (String.eqb (fst u) id); reflexivity.
Qed.

(** X17.  A new subscriber is handed the current state of its id at once, if
    there is one, and then every state set for that id, in order, and
    nothing set for another id, as long as the cleanup timer of its id
    does not run.  When that timer runs (ten minutes after the last
    [setProgress] for the id, or later) the subscriber is dropped with
    all subscribers of the id, and is handed nothing then. *)
Theorem subscriber_receives_updates (exportId : string) (callback : nat) (now : Z)
  (events : list (Z * Event)) (s s' : Store) :
  unknown callback (table (bus s)) ->
  Forall (spares exportId) events ->
  run ((now, Subscribe exportId callback) :: events) s = Some s' ->
  received callback (bus s')
  = received callback (bus s)
    ++ match getProgress exportId (bus s) with Some st => [st] | None => [] end
    ++ map snd (sets_of exportId events)
  /\ forall later s'',
       step s' (later, Timeout exportId) = Some s'' ->
       callbacks_of exportId (table (bus s'')) = None
       /\ getProgress exportId (bus s'') = None
       /\ received callback (bus s'') = received callback (bus s').
Proof.
  intros Hnew Hall Hrun. split.
  - rewrite run_cons in Hrun.
    unfold step in Hrun. destruct (now <? clock s); [discriminate|].
    set (s1 := mkStore (subscribe exportId callback (bus s)) (cleanupTimers s) now) in *.
    assert (Hsub : exists l, ~ In callback l
              /\ callbacks_of exportId (table (bus s1)) = Some (l ++ [callback])).
    { unfold s1, subscribe. cbn [bus table].
      destruct (callbacks_of exportId (table (bus s))) as [l|] eqn:E.
      - rewrite E. exists l.
        assert (Hl : ~ In callback l).
        { apply SubscriberFacts.callbacks_of_in in E. unfold unknown in Hnew.
          rewrite Forall_forall in Hnew. exact (Hnew _ E). }
        split; [exact Hl|].
        rewrite SubscriberFacts.callbacks_of_set_same, SubscriberFacts.set_add_new by exact Hl.
        reflexivity.
      - rewrite SubscriberFacts.callbacks_of_set_same. exists []. split; [intros []|].
        rewrite SubscriberFacts.callbacks_of_set_same. reflexivity. }
    destruct Hsub as (l & Hl & Hc).
    rewrite (run_spares exportId callback l events s1 s' Hall Hrun Hc Hl).
    + rewrite app_assoc. f_equal. unfold s1, subscribe, getProgress, received.
      cbn [bus delivered].
      destruct (Progress.getProgress exportId (world (bus s))) as [st|];
        [|symmetry; apply app_nil_r].
      rewrite filter_app, map_app. cbn [filter fst]. rewrite Nat.eqb_refl. reflexivity.
    + unfold s1, subscribe. cbn [bus table]. apply SubscriberFacts.only_under_set.
      destruct (callbacks_of exportId (table (bus s)));
        [|apply SubscriberFacts.only_under_set];
        apply SubscriberFacts.unknown_only_under; exact Hnew.
  - intros later s'' Hstep. unfold step in Hstep.
    destruct (later <? clock s'); [discriminate|].
    destruct (due exportId (cleanupTimers s')) as [at_|]; [|discriminate].
    destruct (at_ <=? later); [|discriminate]. injection Hstep as <-.
    split; [|split].
    + cbn [cleanup bus table]. apply SubscriberFacts.callbacks_of_delete_same.
    + rewrite getProgress_cleanup, String.eqb_refl. reflexivity.
    + reflexivity.
Qed.

Lemma subscriber_receives_updates_witness :
  received 7 (bus Samples.watched_store) = [mkState 10 "s" "m"; mkState 30 "s" "m"]
  /\ step Samples.watched_store (600003, Timeout "a")
     = Some (cleanup 600003 "a" Samples.watched_store)
  /\ callbacks_of "a" (table (bus (cleanup 600003 "a" Samples.watched_store))) = None
  /\ received 7 (bus (setProgress 600004 ("a"%string, mkState 40 "s" "m")
                        (cleanup 600003 "a" Samples.watched_store)))
     = [mkState 10 "s" "m"; mkState 30 "s" "m"].
Proof.
  destruct (subscriber_receives_updates "a" 7 0 Samples.watched_events empty_store
              Samples.watched_store) as [H1 H2].
  - constructor.
  - repeat constructor.
  - reflexivity.
  - split; [exact H1|]. split; [reflexivity|].
    split; [exact (proj1 (H2 600003 (cleanup 600003 "a" Samples.watched_store) eq_refl))|].
    vm_compute. reflexivity.
Defined.

End CleanupFacts.

(** ** The legacy exporter *)

Module LegacyFacts.
Import Legacy.

Lemma find_same {A : Type} (f g : A -> bool) (l : list A) :
  (forall a, f a = g a) -> find f l = find g l.
Proof.
  intros H. induction l as [|a l IH]; [reflexivity|]. cbn [find].
  rewrite H, IH. reflexivity.
Qed.

(** X27.  In the legacy exporter the numbering agrees: output frame [k] shows
    extracted frame [k] under the captions drawn in turn [k] of the loop,
    that is for the time [k / rate] of that frame. *)
Theorem legacy_frames_aligned (totalFrames extractedFrames k : nat) :
  (k < Nat.min totalFrames extractedFrames)%nat ->
  output_frame totalFrames extractedFrames k = Some (k, k).
Proof.
  intros H. unfold output_frame, rendered_in, extracted_in, frame_file,
    FrameFiles.sequence_file, EXTRACT_START_NUMBER, COMBINE_START_NUMBER.
  cbv zeta.
  rewrite (find_same _ (fun i => i =? k)%nat).
  2:{ intros i. destruct (Nat.eqb_spec (i + 1) (1 + k)), (Nat.eqb_spec i k); lia || reflexivity. }
  rewrite FrameFilesFacts.find_in_seq by lia.
  rewrite (find_same _ (fun i => i =? k)%nat).
  2:{ intros i. destruct (Nat.eqb_spec (1 + i) (k + 1)), (Nat.eqb_spec i k); lia || reflexivity. }
  rewrite FrameFilesFacts.find_in_seq by lia. reflexivity.
Qed.

Lemma legacy_frames_aligned_witness : output_frame 3 3 2 = Some (2%nat, 2%nat).
Proof. apply (legacy_frames_aligned 3 3 2). cbn. lia. Defined.

(** *** The batches of the render loop *)

Lemma render_loop_frames (total n : nat) : forall (i : nat) (fp : list nat),
  (i + n = total)%nat ->
  List.concat (map fst (render_loop total i n fp))
  = match n with O => [] | S _ => fp ++ seq i n end.
Proof.
  induction n as [|n IH]; intros i fp Hn; [reflexivity|].
  cbn [render_loop]. cbv zeta.
  destruct ((CONCURRENT_FRAMES <=? List.length (fp ++ [i]))%nat
            || (i =? total - 1)%nat) eqn:Ec.
  - cbn [map fst List.concat]. rewrite IH by lia.
    rewrite <- app_assoc. cbn [app seq]. destruct n; reflexivity.
  - apply orb_false_iff in Ec. destruct Ec as [_ Ec]. apply Nat.eqb_neq in Ec.
    rewrite IH by lia. destruct n as [|n]; [lia|].
    rewrite <- app_assoc. reflexivity.
Qed.

Lemma render_loop_sizes (total n : nat) : forall (i : nat) (fp : list nat),
  (List.length fp < CONCURRENT_FRAMES)%nat ->
  Forall (fun b => (1 <= List.length (fst b) <= CONCURRENT_FRAMES)%nat)
         (render_loop total i n fp).
Proof.
  induction n as [|n IH]; intros i fp Hfp; [constructor|].
  cbn [render_loop]. cbv zeta.
  assert (Hlen : List.length (fp ++ [i]) = S (List.length fp)).
  { rewrite length_app. cbn. lia. }
  destruct (Nat.leb_spec CONCURRENT_FRAMES (List.length (fp ++ [i]))) as [Hfull|Hroom];
    cbn [orb].
  - constructor; [cbn [fst]; lia|]. apply IH. unfold CONCURRENT_FRAMES. cbn. lia.
  - destruct (i =? total - 1)%nat.
    + constructor; [cbn [fst]; lia|]. apply IH. unfold CONCURRENT_FRAMES. cbn. lia.
    + apply IH. exact Hroom.
Qed.

Lemma render_loop_reports (total n : nat) : forall (i : nat) (fp : list nat),
  exists js,
    map snd (render_loop total i n fp)
    = map (fun j => 0.4 + Reports.fraction total j * 0.5) js
    /\ StronglySorted lt js
    /\ Forall (fun j => (i <= j < i + n)%nat) js.
Proof.
  induction n as [|n IH]; intros i fp.
  - exists []. repeat split; constructor.
  - cbn [render_loop]. cbv zeta.
    destruct ((CONCURRENT_FRAMES <=? List.length (fp ++ [i]))%nat || (i =? total - 1)%nat).
    + destruct (IH (S i) []) as (js & Hm & Hs & Hr).
      exists (i :: js). cbn [map snd]. rewrite Hm. split; [reflexivity|]. split.
      * constructor; [exact Hs|]. eapply Forall_impl; [|exact Hr]. cbn beta. lia.
      * constructor; [lia|]. eapply Forall_impl; [|exact Hr]. cbn beta. lia.
    + destruct (IH (S i) (fp ++ [i])) as (js & Hm & Hs & Hr).
      exists js. split; [exact Hm|]. split; [exact Hs|].
      eapply Forall_impl; [|exact Hr]. cbn beta. lia.
Qed.

(** X28.  The legacy render loop awaits its frames in batches: every frame
    index is in exactly one batch, in order; a batch holds between one and
    [CONCURRENT_FRAMES] frames; the progress reported after the batches
    rises strictly and stays in [[0.4, 0.9)], so the rendering stage never
    reports its own upper bound. *)
Theorem legacy_batches (actualTotalFrames : nat) :
  List.concat (map fst (batches actualTotalFrames)) = seq 0 actualTotalFrames
  /\ Forall (fun b => (1 <= List.length (fst b) <= CONCURRENT_FRAMES)%nat)
            (batches actualTotalFrames)
  /\ StronglySorted Qlt (map snd (batches actualTotalFrames))
  /\ Forall (fun p => 0.4 <= p /\ p < 0.9) (map snd (batches actualTotalFrames)).
Proof.
  unfold batches. split; [|split].
  - rewrite render_loop_frames by reflexivity. destruct actualTotalFrames; reflexivity.
  - apply render_loop_sizes. unfold CONCURRENT_FRAMES. cbn. lia.
  - destruct (render_loop_reports actualTotalFrames actualTotalFrames 0 [])
      as (js & Hm & Hs & Hr).
    rewrite Hm. clear Hm.
    assert (Hfrac : forall j, In j js ->
              0 <= Reports.fraction actualTotalFrames j
              /\ Reports.fraction actualTotalFrames j < 1).
    { intros j Hj. rewrite Forall_forall in Hr. specialize (Hr j Hj).
      pose proof (ReportFacts.fraction_lt actualTotalFrames 0 (S j) ltac:(lia) ltac:(lia)).
      pose proof (ReportFacts.fraction_lt actualTotalFrames j actualTotalFrames
                    ltac:(lia) ltac:(lia)) as H1.
      pose proof (ReportFacts.fraction_lt actualTotalFrames 0 actualTotalFrames
                    ltac:(lia) ltac:(lia)) as H2.
      assert (E1 : Reports.fraction actualTotalFrames actualTotalFrames == 1).
      { unfold Reports.fraction, Qdiv. apply Qmult_inv_r.
        intros E. unfold Qeq, inject_Z in E. cbn [Qnum Qden] in E. lia. }
      assert (E0 : Reports.fraction actualTotalFrames 0 == 0).
      { unfold Reports.fraction, Qdiv. change (inject_Z (Z.of_nat 0)) with 0. lra. }
      destruct j as [|j'].
      - split; [rewrite E0; apply Qle_refl | rewrite <- E1; exact H2].
      - pose proof (ReportFacts.fraction_lt actualTotalFrames 0 (S j') ltac:(lia) ltac:(lia)).
        rewrite E1 in H1. rewrite E0 in *. split; lra. }
    split.
    + clear Hfrac. induction Hs as [|j js Hs IH Hall]; [constructor|].
      cbn [map]. constructor; [apply IH; exact (Forall_inv_tail Hr)|].
      rewrite Forall_map. rewrite Forall_forall in *. intros k Hk.
      specialize (Hall k Hk). specialize (Hr k (or_intror Hk)).
      pose proof (ReportFacts.fraction_lt actualTotalFrames j k ltac:(lia) Hall). lra.
    + rewrite Forall_map. apply Forall_forall. intros j Hj.
      destruct (Hfrac j Hj). lra.
Qed.

End LegacyFacts.

(** ** Frame file names in string order *)

Module PathFacts.
Import Paths.

Local Open Scope N_scope.

Lemma length_append (s t : string) :
  String.length (s ++ t) = (String.length s + String.length t)%nat.
Proof. induction s as [|c s IH]; cbn; [reflexivity | rewrite IH; reflexivity]. Qed.

Lemma append_assoc (s t u : string) : ((s ++ t) ++ u = s ++ (t ++ u))%string.
Proof. induction s as [|c s IH]; cbn; [reflexivity | rewrite IH; reflexivity]. Qed.

Lemma zeros_snoc (n : nat) :
  (zeros n ++ String "0"%char EmptyString)%string = zeros (S n).
Proof. induction n as [|n IH]; cbn in *; [reflexivity | rewrite IH; reflexivity]. Qed.

Lemma fixed_width_zero (width : nat) : fixed_width width 0 = zeros width.
Proof.
  induction width as [|w IH]; [reflexivity|].
  cbn [fixed_width]. change (0 / 10) with 0. change (0 mod 10) with 0.
  rewrite IH. apply zeros_snoc.
Qed.

Lemma fixed_width_length (width : nat) (n : N) :
  String.length (fixed_width width n) = width.
Proof.
  revert n. induction width as [|w IH]; intros n; [reflexivity|].
  cbn [fixed_width]. rewrite length_append, IH. cbn. lia.
Qed.

(** Padding the digits of a number that fits gives its fixed-width form. *)
Lemma padded_is_fixed (fuel : nat) : forall (n : N) (width : nat),
  n < 2 ^ N.of_nat fuel -> (1 <= width)%nat -> n < 10 ^ N.of_nat width ->
  (String.length (number_string_from fuel n) <= width)%nat
  /\ padStart width (number_string_from fuel n) = fixed_width width n.
Proof.
  induction fuel as [|fuel IH]; intros n width Hf Hw Hn.
  - cbn in Hf. assert (n = 0) by lia. subst n. cbn [number_string_from String.length].
    split; [lia|]. unfold padStart. cbn [String.length].
    rewrite fixed_width_zero, Nat.sub_0_r.
    clear. induction width as [|w IH]; cbn; [reflexivity | rewrite IH; reflexivity].
  - cbn [number_string_from]. destruct width as [|w]; [lia|].
    destruct (N.ltb_spec n 10) as [Hsmall|Hbig].
    + cbn [String.length]. split; [lia|].
      unfold padStart. cbn [String.length fixed_width].
      rewrite N.div_small, N.mod_small by lia.
      rewrite fixed_width_zero. replace (S w - 1)%nat with w by lia. reflexivity.
    + assert (Hw2 : (1 <= w)%nat).
      { destruct w; [cbn in Hn; lia | lia]. }
      assert (Hdiv : n / 10 < 10 ^ N.of_nat w).
      { apply N.Div0.div_lt_upper_bound.
        rewrite Nat2N.inj_succ, N.pow_succ_r' in Hn. lia. }
      assert (Hlt : n / 10 < 2 ^ N.of_nat fuel).
      { apply N.Div0.div_lt_upper_bound.
        rewrite Nat2N.inj_succ, N.pow_succ_r' in Hf. lia. }
      destruct (IH (n / 10) w Hlt Hw2 Hdiv) as [Hlen Hpad].
      rewrite length_append. cbn [String.length]. split; [lia|].
      cbn [fixed_width]. rewrite <- Hpad. unfold padStart.
      rewrite length_append. cbn [String.length].
      replace (S w - (String.length (number_string_from fuel (n / 10)) + 1))%nat
        with (w - String.length (number_string_from fuel (n / 10)))%nat by lia.
      symmetry. apply append_assoc.
Qed.

Lemma number_string_fixed (n : N) (width : nat) :
  (1 <= width)%nat -> n < 10 ^ N.of_nat width ->
  padStart width (number_string n) = fixed_width width n.
Proof.
  intros Hw Hn. unfold number_string. apply padded_is_fixed; [|exact Hw | exact Hn].
  rewrite Nat2N.inj_succ, N2Nat.id.
  destruct (N.eq_dec n 0) as [->|Hne]; [reflexivity|].
  apply N.log2_spec. lia.
Qed.

Lemma digit_compare (x y : N) :
  x < 10 -> y < 10 -> Ascii.compare (digit_char x) (digit_char y) = N.compare x y.
Proof.
  intros Hx Hy.
  assert (Hc : forall d, d < 10 -> N_of_ascii (digit_char d) = 48 + d).
  { intros d Hd. unfold digit_char. apply N_ascii_embedding. lia. }
  unfold Ascii.compare. rewrite !Hc by assumption.
  destruct (N.compare_spec x y) as [E|E|E];
    [apply N.compare_eq_iff | apply N.compare_lt_iff | apply N.compare_gt_iff]; lia.
Qed.

Lemma compare_snoc (s1 : string) : forall (s2 : string) (c1 c2 : ascii),
  String.length s1 = String.length s2 ->
  String.compare (s1 ++ String c1 EmptyString) (s2 ++ String c2 EmptyString)
  = match String.compare s1 s2 with
    | Eq => Ascii.compare c1 c2
    | r => r
    end.
Proof.
  induction s1 as [|a s1 IH]; intros [|b s2] c1 c2 Hlen; try discriminate.
  - cbn. destruct (Ascii.compare c1 c2); reflexivity.
  - cbn [append String.compare]. destruct (Ascii.compare a b); try reflexivity.
    apply IH. cbn in Hlen. lia.
Qed.

Lemma fixed_width_compare (width : nat) : forall a b,
  a < 10 ^ N.of_nat width -> b < 10 ^ N.of_nat width ->
  String.compare (fixed_width width a) (fixed_width width b) = N.compare a b.
Proof.
  induction width as [|w IH]; intros a b Ha Hb.
  - cbn in Ha, Hb. replace a with 0 by lia. replace b with 0 by lia. reflexivity.
  - cbn [fixed_width]. rewrite compare_snoc by (rewrite !fixed_width_length; reflexivity).
    rewrite Nat2N.inj_succ, N.pow_succ_r' in Ha, Hb.
    rewrite IH by (apply N.Div0.div_lt_upper_bound; lia).
    rewrite digit_compare by (apply N.mod_upper_bound; lia).
    pose proof (N.div_mod a 10 ltac:(lia)) as Ea. pose proof (N.div_mod b 10 ltac:(lia)) as Eb.
    pose proof (N.mod_upper_bound a 10 ltac:(lia)) as Ma.
    pose proof (N.mod_upper_bound b 10 ltac:(lia)) as Mb.
    clear IH Ha Hb.
    generalize dependent (a / 10). generalize dependent (b / 10).
    generalize dependent (a mod 10). generalize dependent (b mod 10).
    intros mb Mb ma Ma qb Eb qa Ea.
    destruct (N.compare_spec qa qb) as [E|E|E].
    + destruct (N.compare_spec ma mb) as [E'|E'|E'];
        symmetry; [apply N.compare_eq_iff | apply N.compare_lt_iff
                  | apply N.compare_gt_iff]; lia.
    + symmetry. apply N.compare_lt_iff. lia.
    + symmetry. apply N.compare_gt_iff. lia.
Qed.

Lemma compare_prefix (p s1 s2 : string) :
  String.compare (p ++ s1) (p ++ s2) = String.compare s1 s2.
Proof.
  induction p as [|c p IH]; [reflexivity|]. cbn [append String.compare].
  assert (E : Ascii.compare c c = Eq).
  { unfold Ascii.compare. apply N.compare_refl. }
  rewrite E. exact IH.
Qed.

Lemma compare_suffix_lt (s1 : string) : forall (s2 t u : string),
  String.length s1 = String.length s2 ->
  String.compare s1 s2 = Lt -> String.compare (s1 ++ t) (s2 ++ u) = Lt.
Proof.
  induction s1 as [|a s1 IH]; intros [|b s2] t u Hlen Hlt; try discriminate.
  cbn [append String.compare] in *. destruct (Ascii.compare a b); try congruence.
  apply IH; [cbn in Hlen; lia | exact Hlt].
Qed.

(** X29.  Below a million frames the paths of the frame files sort, as
    strings, in the order of the frame indices, which is what
    [results.flat().sort()] relies on; at a million the order breaks. *)
Theorem frame_names_sort_by_index (outputDir : string) (a b : N) :
  a < b -> b < 1000000 ->
  String.ltb (frame_path outputDir a) (frame_path outputDir b) = true
  /\ String.ltb (frame_name 1000000) (frame_name 999999) = true
  /\ frame_name 42 = "frame-000042.jpg"%string.
Proof.
  intros Hab Hb. split; [|split; vm_compute; reflexivity].
  unfold String.ltb, frame_path, frame_name. rewrite !compare_prefix.
  rewrite !number_string_fixed by (try (change (10 ^ N.of_nat 6) with 1000000); lia).
  rewrite compare_suffix_lt; [reflexivity | rewrite !fixed_width_length; reflexivity |].
  rewrite fixed_width_compare by (change (10 ^ N.of_nat 6) with 1000000; lia).
  apply N.compare_lt_iff. exact Hab.
Qed.

Lemma frame_names_sort_by_index_witness :
  String.ltb (frame_path "/tmp/frames" 9) (frame_path "/tmp/frames" 10) = true
  /\ String.ltb (frame_name 1000000) (frame_name 999999) = true
  /\ frame_name 42 = "frame-000042.jpg"%string.
Proof. apply (frame_names_sort_by_index "/tmp/frames" 9 10); lia. Defined.

End PathFacts.

(** ** The video frame covers the canvas *)

Module LayoutFacts.
Import Layout.

Lemma ratio_pos (a b : Q) : 0 < a -> 0 < b -> 0 < a / b.
Proof.
  intros Ha Hb. unfold Qdiv. apply Qmult_lt_0_compat; [exact Ha|].
  apply Qinv_lt_0_compat. exact Hb.
Qed.

(** X30.  The video frame is drawn so that it covers the whole canvas, keeps
    its aspect ratio, fits the canvas exactly in one direction and is
    centred in the other. *)
Theorem fill_covers_canvas (imageWidth imageHeight width height : Q) :
  0 < imageWidth -> 0 < imageHeight -> 0 < width -> 0 < height ->
  let p := fill imageWidth imageHeight width height in
  offsetX p <= 0 /\ width <= offsetX p + drawWidth p
  /\ offsetY p <= 0 /\ height <= offsetY p + drawHeight p
  /\ drawWidth p * imageHeight == drawHeight p * imageWidth
  /\ (drawWidth p == width \/ drawHeight p == height)
  /\ offsetX p + drawWidth p - width == - offsetX p
  /\ offsetY p + drawHeight p - height == - offsetY p.
Proof.
  intros Hiw Hih Hw Hh. cbv zeta. unfold fill. cbv zeta.
  pose proof (ratio_pos _ _ Hiw Hih) as Hr.
  set (r := imageWidth / imageHeight) in *.
  assert (Er : r * imageHeight == imageWidth).
  { unfold r. field. lra. }
  assert (Ec : (width / height) * height == width).
  { field. lra. }
  set (c := width / height) in *.
  unfold Js.gtb. destruct (Qle_bool r c) eqn:E; cbn [negb]; qprop;
    cbn [offsetX offsetY drawWidth drawHeight].
  - (* the frame is narrower than the canvas: fit the width *)
    assert (Eh : (width / r) * r == width) by (field; lra).
    set (h := width / r) in *.
    assert (Hh' : height <= h).
    { assert (H1 : c * height <= c * h).
      { rewrite Ec. assert (H2 : r * h <= c * h).
        { apply Qmult_le_compat_r; [exact E|].
          apply Qnot_lt_le. intros Hneg.
          assert (r * h < 0) by nra. lra. }
        lra. }
      assert (Hc : 0 < c) by (apply ratio_pos; assumption).
      nra. }
    assert (E2 : (height - h) / 2 == (height - h) * (1 # 2)) by field.
    rewrite E2.
    repeat split; try lra.
    rewrite <- Eh at 1. rewrite <- Er. ring.
  - assert (E2 : (width - height * r) / 2 == (width - height * r) * (1 # 2)) by field.
    rewrite E2.
    assert (Hw' : width <= height * r) by nra.
    repeat split; try lra.
    rewrite <- Er. ring.
Qed.

Lemma fill_covers_canvas_witness :
  offsetX (fill 1920 1080 1080 1920) <= 0
  /\ 1080 <= offsetX (fill 1920 1080 1080 1920) + drawWidth (fill 1920 1080 1080 1920).
Proof.
  pose proof (fill_covers_canvas 1920 1080 1080 1920
                ltac:(reflexivity) ltac:(reflexivity) ltac:(reflexivity)
                ltac:(reflexivity)) as H.
  cbv zeta in H. split; [exact (proj1 H) | exact (proj1 (proj2 H))].
Defined.

End LayoutFacts.

(** ** How many workers start *)

Module PlannerCount.
Import Planner.
Local Open Scope nat_scope.

Lemma chunks_all_kept (fpw total m i0 : nat) :
  (i0 + m) * fpw < total + fpw -> 0 < fpw ->
  filter (fun c => start c <? total) (map (chunk_of fpw total) (seq i0 m))
  = map (chunk_of fpw total) (seq i0 m).
Proof.
  revert i0. induction m as [|m IH]; intros i0 H Hf; [reflexivity|].
  cbn [seq map filter start chunk_of].
  destruct (Nat.ltb_spec (i0 * fpw) total) as [_|Hge]; [|nia].
  f_equal. apply IH; [|exact Hf]. nia.
Qed.

(** X14.  The workers started are the first [ceil(totalFrames / framesPerWorker)]
    of the [concurrency] planned, which can be fewer than [concurrency]:
    five frames for four workers make three chunks of two, two and one
    frames. *)
Theorem planChunks_count (totalFrames concurrency : nat) :
  1 <= concurrency ->
  let framesPerWorker := ceil_div totalFrames concurrency in
  planChunks totalFrames concurrency
  = map (chunk_of framesPerWorker totalFrames)
        (seq 0 (ceil_div totalFrames framesPerWorker))
  /\ List.length (planChunks totalFrames concurrency)
     = ceil_div totalFrames framesPerWorker
  /\ map size (planChunks 5 4) = [2; 2; 1].
Proof.
  intros Hc. cbv zeta.
  set (fpw := ceil_div totalFrames concurrency).
  assert (E : planChunks totalFrames concurrency
              = map (chunk_of fpw totalFrames) (seq 0 (ceil_div totalFrames fpw))).
  { unfold planChunks. fold fpw.
    destruct (PlannerFacts.ceil_div_bounds totalFrames concurrency ltac:(lia)) as [Hlo Hhi].
    fold fpw in Hlo, Hhi.
    destruct (Nat.eq_dec fpw 0) as [Hz|Hnz].
    - rewrite Hz in *. assert (totalFrames = 0) by lia. subst totalFrames.
      rewrite (PlannerFacts.chunks_beyond_total 0 0 concurrency 0) by lia.
      reflexivity.
    - destruct (PlannerFacts.ceil_div_bounds totalFrames fpw ltac:(lia)) as [Mlo Mhi].
      set (m := ceil_div totalFrames fpw) in *.
      assert (Hm : m <= concurrency).
      { apply PlannerFacts.ceil_div_least; [lia | lia]. }
      replace concurrency with (m + (concurrency - m)) at 1 by lia.
      rewrite seq_app, map_app, filter_app.
      rewrite (PlannerFacts.chunks_beyond_total fpw totalFrames (concurrency - m) (0 + m))
        by (cbn; lia).
      rewrite app_nil_r. apply chunks_all_kept; [cbn; lia | lia]. }
  split; [exact E|]. split; [|reflexivity].
  rewrite E, length_map, length_seq. reflexivity.
Qed.

Lemma planChunks_count_witness :
  List.length (planChunks 5 4) = ceil_div 5 (ceil_div 5 4).
Proof. apply (planChunks_count 5 4). lia. Defined.

End PlannerCount.

(** ** The two [hexToRgb] agree on well-formed colours *)

Module ColorFacts.
Import Colors.

Lemma hex_digit_plain (c : ascii) (v : N) :
  hex_value c = Some v ->
  (v < 16)%N
  /\ is_white_space c = false /\ is_line_terminator c = false
  /\ (c =? "#")%char = false /\ (c =? "-")%char = false /\ (c =? "+")%char = false
  /\ (c =? "x")%char = false /\ (c =? "X")%char = false.
Proof.
  destruct c as [[] [] [] [] [] [] [] []]; vm_compute; intros H;
    try discriminate; injection H as <-; repeat split; reflexivity.
Qed.

Lemma parse_pair (c1 c2 : ascii) (a b : N) :
  hex_value c1 = Some a -> hex_value c2 = Some b ->
  parseInt16 (String c1 (String c2 EmptyString)) = Some (Z.of_N (16 * a + b)).
Proof.
  intros H1 H2.
  destruct (hex_digit_plain c1 a H1) as (_ & W1 & _ & _ & M1 & P1 & _ & _).
  destruct (hex_digit_plain c2 b H2) as (_ & _ & _ & _ & _ & _ & X2 & X2').
  unfold parseInt16. cbn [trim_start]. rewrite W1, M1, P1, X2, X2'.
  rewrite andb_false_r. cbn [hex_digits]. rewrite H1, H2. reflexivity.
Qed.

Lemma is_hex_value (c : ascii) : is_hex c = true -> exists v, hex_value c = Some v.
Proof. unfold is_hex. destruct (hex_value c) as [v|]; [eexists; reflexivity | discriminate]. Qed.

(** On a colour the page accepts, the canvas reads the same three
    groups. *)
Lemma canvas_reads_groups (hex g1 g2 g3 : string) :
  exec_regex hex = Some (g1, g2, g3) ->
  canvas_hexToRgb hex = mkRgb (parseInt16 g1) (parseInt16 g2) (parseInt16 g3)
  /\ exists v1 v2 v3 : N,
       parseInt16 g1 = Some (Z.of_N v1) /\ parseInt16 g2 = Some (Z.of_N v2)
       /\ parseInt16 g3 = Some (Z.of_N v3)
       /\ (v1 < 256 /\ v2 < 256 /\ v3 < 256)%N.
Proof.
  unfold exec_regex. cbv zeta.
  set (body := match hex with
               | String c rest => if (c =? "#")%char then rest else hex
               | EmptyString => hex
               end).
  destruct body as [|c1 [|c2 [|c3 [|c4 [|c5 [|c6 [|c7 tl]]]]]]] eqn:Eb; try discriminate.
  destruct (is_hex c1) eqn:E1; [|discriminate].
  destruct (is_hex c2) eqn:E2; [|discriminate].
  destruct (is_hex c3) eqn:E3; [|discriminate].
  destruct (is_hex c4) eqn:E4; [|discriminate].
  destruct (is_hex c5) eqn:E5; [|discriminate].
  destruct (is_hex c6) eqn:E6; [|discriminate].
  cbn [andb]. intros [= <- <- <-].
  destruct (is_hex_value _ E1) as [v1 H1]. destruct (is_hex_value _ E2) as [v2 H2].
  destruct (is_hex_value _ E3) as [v3 H3]. destruct (is_hex_value _ E4) as [v4 H4].
  destruct (is_hex_value _ E5) as [v5 H5]. destruct (is_hex_value _ E6) as [v6 H6].
  destruct (hex_digit_plain _ _ H1) as (B1 & _ & T1 & S1 & _).
  destruct (hex_digit_plain _ _ H2) as (B2 & _ & T2 & S2 & _).
  destruct (hex_digit_plain _ _ H3) as (B3 & _ & T3 & S3 & _).
  destruct (hex_digit_plain _ _ H4) as (B4 & _ & T4 & S4 & _).
  destruct (hex_digit_plain _ _ H5) as (B5 & _ & T5 & S5 & _).
  destruct (hex_digit_plain _ _ H6) as (B6 & _ & T6 & S6 & _).
  assert (Hclean : remove_first_hash hex
                   = String c1 (String c2 (String c3 (String c4 (String c5
                       (String c6 EmptyString)))))
                   /\ hex <> EmptyString).
  { subst body. destruct hex as [|c rest]; [discriminate|].
    split; [|discriminate]. cbn [remove_first_hash].
    destruct (c =? "#")%char eqn:Ec; [exact Eb|].
    injection Eb as -> ->. cbn [remove_first_hash].
    rewrite S2, S3, S4, S5, S6. reflexivity. }
  destruct Hclean as [Hclean Hne].
  split.
  - unfold canvas_hexToRgb. destruct hex as [|c rest]; [congruence|].
    rewrite Hclean. cbn [chunks]. rewrite T1, T2, T3, T4, T5, T6. reflexivity.
  - exists (16 * v1 + v2)%N, (16 * v3 + v4)%N, (16 * v5 + v6)%N.
    rewrite (parse_pair _ _ _ _ H1 H2), (parse_pair _ _ _ _ H3 H4),
      (parse_pair _ _ _ _ H5 H6).
    repeat split; lia.
Qed.

(** X20.  The two [hexToRgb] agree on every colour the page accepts (six
    hexadecimal digits after an optional [#]): the same three components,
    each between 0 and 255.  They differ elsewhere: the page turns any
    other string into black, the canvas reads five digits as a colour and
    letters that are no digits as [NaN]. *)
Theorem hexToRgb_agree (hex : string) :
  exec_regex hex <> None ->
  overlay_hexToRgb hex = show_rgb (canvas_hexToRgb hex)
  /\ (exists v1 v2 v3 : N,
        canvas_hexToRgb hex = mkRgb (Some (Z.of_N v1)) (Some (Z.of_N v2)) (Some (Z.of_N v3))
        /\ (v1 < 256 /\ v2 < 256 /\ v3 < 256)%N)
  /\ (overlay_hexToRgb "abcde" = "0, 0, 0"%string
      /\ show_rgb (canvas_hexToRgb "abcde") = "171, 205, 14"%string)
  /\ (overlay_hexToRgb "zzzzzz" = "0, 0, 0"%string
      /\ show_rgb (canvas_hexToRgb "zzzzzz") = "NaN, NaN, NaN"%string).
Proof.
  intros H. destruct (exec_regex hex) as [[[g1 g2] g3]|] eqn:E; [|congruence].
  destruct (canvas_reads_groups hex g1 g2 g3 E) as [Hc (v1 & v2 & v3 & P1 & P2 & P3 & Hb)].
  split; [|split; [|split; split; vm_compute; reflexivity]].
  - unfold overlay_hexToRgb. rewrite E, Hc. reflexivity.
  - exists v1, v2, v3. rewrite Hc, P1, P2, P3. split; [reflexivity | exact Hb].
Qed.

Lemma hexToRgb_agree_witness :
  overlay_hexToRgb "#1A2b3C" = show_rgb (canvas_hexToRgb "#1A2b3C").
Proof.
  apply (hexToRgb_agree "#1A2b3C"). vm_compute. discriminate.
Defined.

End ColorFacts.
